(** * Unified-diff engine of the assisted-review extension

    A shallow embedding of [parseUnifiedDiff], [filterDiffFiles],
    [hunkLinkTarget] and [formatDiffOutput], of the two tools built on them
    ([assisted_review_diff], [assisted_review_comment]) with
    [reconstructState], and of [parsePrettyDiffLine], [renderPrettyDiff],
    [getUserFacingHint] and [postGithubComments], followed by the properties
    established about them.

    Modelling conventions.
    - A JavaScript string is a [string]: a sequence of code units below 256.
      The only line terminators that exist in this model are LF and CR.
    - A JavaScript number is a [Z]: line counters, budgets and the grep
      context are integers, and the counters add exactly, as the numbers of
      the host do up to [2 ^ 53]; the statements that depend on it say so
      ([safeCounters]).  [Number] applied to a numeral rounds as the host
      does ([toDouble]).
    - [null] / [undefined] / an absent option is [None].
    - An exception that escapes a function is the [Throws] result.
    - A call of an external program is a function from the number of the
      call and its arguments to the exit code. *)

From Stdlib Require Import ZArith List Bool Lia Ascii String DecimalString.
From Stdlib Require Import DecimalPos DecimalZ Sorted.
Import ListNotations.

Local Open Scope string_scope.
Local Open Scope Z_scope.

(* ================================================================== *)
(** ** String primitives of the host language *)

Definition LF : ascii := "010"%char.
Definition CR : ascii := "013"%char.

(** [s.startsWith(p)] *)
Fixpoint startsWith (s p : string) {struct p} : bool :=
  match p with
  | EmptyString => true
  | String a p' =>
      match s with
      | EmptyString => false
      | String b s' => Ascii.eqb a b && startsWith s' p'
      end
  end.

(** [s.slice(n)] for a natural [n] *)
Fixpoint sliceFrom (n : nat) (s : string) : string :=
  match n with
  | O => s
  | S n' => match s with
            | EmptyString => EmptyString
            | String _ s' => sliceFrom n' s'
            end
  end.

(** [s.includes(p)] *)
Fixpoint includes (s p : string) : bool :=
  startsWith s p ||
  match s with
  | EmptyString => false
  | String _ s' => includes s' p
  end.

(** [s.split("\n")]: never empty, one more element than there are LFs. *)
Fixpoint splitLines (s : string) : list string :=
  match s with
  | EmptyString => [EmptyString]
  | String c s' =>
      if Ascii.eqb c LF then EmptyString :: splitLines s'
      else match splitLines s' with
           | [] => [String c EmptyString]
           | l :: ls => String c l :: ls
           end
  end.

(** [s.split("\n").length] *)
Definition lineCount (s : string) : Z := Z.of_nat (List.length (splitLines s)).

(** [arr.join(sep)] *)
Definition join (sep : string) (l : list string) : string := String.concat sep l.

(** [s.replace(pat, rep)] with a string pattern: first occurrence only. *)
Fixpoint replaceFirst (s pat rep : string) : string :=
  if startsWith s pat then rep ++ sliceFrom (String.length pat) s
  else match s with
       | EmptyString => EmptyString
       | String c s' => String c (replaceFirst s' pat rep)
       end.

(** White space recognised by [trim] among the code units below 256. *)
Definition isWhiteSpace (c : ascii) : bool :=
  let n := nat_of_ascii c in
  ((9 <=? n)%nat && (n <=? 13)%nat) || (n =? 32)%nat || (n =? 160)%nat.

Fixpoint trimStart (s : string) : string :=
  match s with
  | EmptyString => EmptyString
  | String c s' => if isWhiteSpace c then trimStart s' else s
  end.

Fixpoint trimEnd (s : string) : string :=
  match s with
  | EmptyString => EmptyString
  | String c s' =>
      match trimEnd s' with
      | EmptyString => if isWhiteSpace c then EmptyString else String c EmptyString
      | t => String c t
      end
  end.

Definition trim (s : string) : string := trimEnd (trimStart s).

Definition isDigit (c : ascii) : bool :=
  let n := nat_of_ascii c in (48 <=? n)%nat && (n <=? 57)%nat.

(** Longest prefix of decimal digits, and what follows it. *)
Fixpoint spanDigits (s : string) : string * string :=
  match s with
  | EmptyString => (EmptyString, EmptyString)
  | String c s' =>
      if isDigit c then let (d, r) := spanDigits s' in (String c d, r)
      else (EmptyString, s)
  end.

(** The integer that a string of decimal digits writes. *)
Definition digitsValue (d : string) : Z :=
  fold_left (fun acc c => 10 * acc + (Z.of_nat (nat_of_ascii c) - 48))
            (list_ascii_of_string d) 0.

(** The number of the host that is nearest to an integer [n >= 0]: a
    number holds 53 significant bits, so the bits of [n] below the top 53
    are rounded away, to the nearest and to even on a tie.  (A value of
    [2 ^ 1024] or more, which the host turns into [Infinity], has no
    counterpart here.) *)
Definition toDouble (n : Z) : Z :=
  let e := Z.log2 n - 52 in
  if e <=? 0 then n
  else
    let q := Z.shiftr n e in
    let r := n - Z.shiftl q e in
    let half := Z.shiftl 1 (e - 1) in
    let q' := if (half <? r) || ((half =? r) && Z.odd q) then q + 1 else q in
    Z.shiftl q' e.

(** [Number(d)] for a string of decimal digits. *)
Definition digitsToNumber (d : string) : Z := toDouble (digitsValue d).

(** Template-literal rendering of an integer: [`${n}`]. *)
Definition numberToString (n : Z) : string := NilZero.string_of_int (Z.to_int n).

(** [arr.slice(0, n)] for an integer [n >= 0] *)
Definition sliceTo {A : Type} (n : Z) (l : list A) : list A := firstn (Z.to_nat n) l.

(** The integers [lo, lo+1, ..., hi] visited by
    [for (let i = lo; i <= hi; i++)]. *)
Definition upTo (lo hi : Z) : list Z :=
  map (fun k => lo + Z.of_nat k) (seq 0 (Z.to_nat (hi - lo + 1))).

(** [arr.filter((x, index) => p(x, index))] with indices counted from [i]. *)
Fixpoint filterIndexed {A : Type} (p : A -> Z -> bool) (i : Z) (l : list A) : list A :=
  match l with
  | [] => []
  | x :: r => if p x i then x :: filterIndexed p (i + 1) r
              else filterIndexed p (i + 1) r
  end.

(** [arr.map(f).filter(Boolean)] when [f] yields an object or [null]. *)
Fixpoint filterMap {A B : Type} (f : A -> option B) (l : list A) : list B :=
  match l with
  | [] => []
  | x :: r => match f x with
              | Some y => y :: filterMap f r
              | None => filterMap f r
              end
  end.

Definition isEmpty {A : Type} (l : list A) : bool :=
  match l with [] => true | _ => false end.

(** Outcome of a call that may raise. *)
Inductive Result (A : Type) : Type :=
| Ok (a : A)
| Throws.
Arguments Ok {A} a.
Arguments Throws {A}.

Definition bindResult {A B : Type} (r : Result A) (k : A -> Result B) : Result B :=
  match r with
  | Ok a => k a
  | Throws => Throws
  end.

(* ================================================================== *)
(** ** Data model *)

Record DiffHunk : Type := mkHunk {
  header : string;
  lines : list string;
  oldStart : Z;
  newStart : Z
}.

Record DiffFile : Type := mkFile {
  path : string;
  headerLines : list string;
  hunks : list DiffHunk
}.

(** [{ ...hunk, lines }] *)
Definition withLines (h : DiffHunk) (ls : list string) : DiffHunk :=
  mkHunk (header h) ls (oldStart h) (newStart h).

(** [{ ...file, hunks }] *)
Definition withHunks (f : DiffFile) (hs : list DiffHunk) : DiffFile :=
  mkFile (path f) (headerLines f) hs.

(* ================================================================== *)
(** ** DiffParser: [parseUnifiedDiff] *)

(** What the [.] of a pattern accepts all along [s]: no line terminator.
    Among the code units of this development these are LF and CR; the two
    others of the language, U+2028 and U+2029, lie beyond them. *)
Definition noLineTerminator (s : string) : bool :=
  forallb (fun c => negb (Ascii.eqb c LF || Ascii.eqb c CR)) (list_ascii_of_string s).

(** Scan for the separator of [(.+?) b\/(.+)$]: the lazy group has already
    taken at least one character; [s] is what follows.  The first place
    where [" b/"] occurs with something after it wins. *)
Fixpoint diffGitNewPath (s : string) : option string :=
  if startsWith s " b/" && negb (String.eqb (sliceFrom 3 s) EmptyString)
  then Some (sliceFrom 3 s)
  else match s with
       | EmptyString => None
       | String _ s' => diffGitNewPath s'
       end.

(** [/^diff --git a\/(.+?) b\/(.+)$/.exec(line)], returning capture 2.
    The dot matches anything but a line terminator and the pattern is
    anchored at both ends, so a terminator anywhere after the prefix rules
    a match out. *)
Definition diffGitExec (line : string) : option string :=
  if startsWith line "diff --git a/" then
    let r := sliceFrom 13 line in
    if noLineTerminator r then
      match r with
      | EmptyString => None
      | String _ r' => diffGitNewPath r'
      end
    else None
  else None.

(** The optional group [(?:,\d+)?]. *)
Definition skipCount (s : string) : string :=
  match s with
  | String c r =>
      if Ascii.eqb c ","%char then
        match spanDigits r with
        | (EmptyString, _) => s
        | (_, r') => r'
        end
      else s
  | EmptyString => s
  end.

Definition expect (s p : string) : option string :=
  if startsWith s p then Some (sliceFrom (String.length p) s) else None.

(** [@@ -(\d+)(?:,\d+)? \+(\d+)(?:,\d+)? @@] matched at the start of [s].
    Every quantifier is followed by a character it cannot itself match, so
    the greedy choice is the only one that can succeed. *)
Definition hunkHeaderAt (s : string) : option (Z * Z) :=
  match expect s "@@ -" with
  | None => None
  | Some s1 =>
      match spanDigits s1 with
      | (EmptyString, _) => None
      | (d1, s2) =>
          match expect (skipCount s2) " +" with
          | None => None
          | Some s4 =>
              match spanDigits s4 with
              | (EmptyString, _) => None
              | (d2, s5) =>
                  match expect (skipCount s5) " @@" with
                  | None => None
                  | Some _ => Some (digitsToNumber d1, digitsToNumber d2)
                  end
              end
          end
      end
  end.

(** The unanchored search [/@@ -(\d+).../.exec(line)]: leftmost match. *)
Fixpoint hunkHeaderExec (s : string) : option (Z * Z) :=
  match hunkHeaderAt s with
  | Some r => Some r
  | None => match s with
            | EmptyString => None
            | String _ s' => hunkHeaderExec s'
            end
  end.

(** The parser's mutable variables.  In the source [currentHunk] is the
    very object that was pushed last onto [currentFile.hunks], so pushing a
    line onto [currentHunk.lines] changes that last element; the model keeps
    only the flag telling whether [currentHunk] is set and updates the last
    hunk of [currentFile] in place. *)
Record ParseState : Type := mkParse {
  files : list DiffFile;
  currentFile : option DiffFile;
  currentHunk : bool
}.

Definition pushCurrent (st : ParseState) : ParseState :=
  mkParse (match currentFile st with
           | Some f => files st ++ [f]
           | None => files st
           end) None false.

(** [currentHunk.lines.push(line)] seen through [currentFile.hunks]. *)
Fixpoint pushToLastHunk (line : string) (hs : list DiffHunk) : list DiffHunk :=
  match hs with
  | [] => []
  | [h] => [withLines h (lines h ++ [line])]
  | h :: r => h :: pushToLastHunk line r
  end.

(** One iteration of [for (const line of lines)]. *)
Definition parseLine (st : ParseState) (line : string) : ParseState :=
  if startsWith line "diff --git " then
    let st' := pushCurrent st in
    let p := match diffGitExec line with
             | Some m2 => m2
             | None => replaceFirst line "diff --git " ""
             end in
    mkParse (files st') (Some (mkFile p [line] [])) false
  else
    match currentFile st with
    | None => st
    | Some cf =>
        if startsWith line "@@ " then
          let m := hunkHeaderExec line in
          let o := match m with Some (a, _) => a | None => 0 end in
          let n := match m with Some (_, b) => b | None => 0 end in
          mkParse (files st)
                  (Some (withHunks cf (hunks cf ++ [mkHunk line [line] o n])))
                  true
        else if currentHunk st then
          mkParse (files st) (Some (withHunks cf (pushToLastHunk line (hunks cf)))) true
        else
          mkParse (files st)
                  (Some (mkFile (path cf) (headerLines cf ++ [line]) (hunks cf)))
                  false
    end.

Definition parseLines (ls : list string) : list DiffFile :=
  files (pushCurrent (fold_left parseLine ls (mkParse [] None false))).

Definition parseUnifiedDiff (diff : string) : list DiffFile :=
  parseLines (splitLines diff).

(* ================================================================== *)
(** ** DiffFilter: [compileGrep] and [filterDiffFiles] *)

(** A compiled pattern is used only through [grep.test(line)]; the pattern
    carries no [g] or [y] flag, so [test] keeps no state between calls. *)
Definition RegExp : Type := string -> bool.

(** The engine's constructor [new RegExp(source)]: [None] when it raises
    a [SyntaxError].  The engine belongs to the host, so the functions
    below take it as an argument. *)
Definition RegExpConstructor : Type := string -> option RegExp.

(** The characters of the class in the escaping pattern: the backslash
    and [. * + ? ^ $ { } ( ) | [ ]]. *)
Definition backslash : ascii := "092"%char.

Definition isSyntaxChar (c : ascii) : bool :=
  Ascii.eqb c backslash ||
  existsb (Ascii.eqb c) (list_ascii_of_string ".*+?^${}()|[]").

(** The global replace of [compileGrep]: every character of the class gets
    a backslash in front of it. *)
Fixpoint escapeRegExp (s : string) : string :=
  match s with
  | EmptyString => EmptyString
  | String c s' =>
      if isSyntaxChar c then String backslash (String c (escapeRegExp s'))
      else String c (escapeRegExp s')
  end.

Definition compileGrep (newRegExp : RegExpConstructor) (pattern : option string)
  : Result (option RegExp) :=
  match pattern with
  | None => Ok None
  | Some EmptyString => Ok None
  | Some p =>
      match newRegExp p with
      | Some r => Ok (Some r)
      | None =>
          match newRegExp (escapeRegExp p) with
          | Some r => Ok (Some r)
          | None => Throws
          end
      end
  end.

Record LineRange : Type := mkRange { rangeStart : Z; rangeEnd : Z }.

Record FilterOptions : Type := mkFilterOptions {
  paths : option (list string);
  grep : option string;
  grepContext : option Z;
  lineRange : option LineRange
}.

(** The three tests every replay of a hunk makes on a body line. *)
Definition isAdded (line : string) : bool :=
  startsWith line "+" && negb (startsWith line "+++").
Definition isRemoved (line : string) : bool :=
  startsWith line "-" && negb (startsWith line "---").
Definition isContext (line : string) : bool :=
  startsWith line " ".

(** [file.path === path || file.path.startsWith(`${path}/`)] *)
Definition pathMatches (file : DiffFile) (p : string) : bool :=
  String.eqb (path file) p || startsWith (path file) (p ++ "/").

(** The local variables of the loop in [sliceByRange]. *)
Record SliceState : Type := mkSlice {
  sliceOldLine : Z;
  sliceNewLine : Z;
  collected : list string;
  hasAny : bool
}.

(** One turn of the loop of [sliceByRange].  The counters add exactly,
    as those of the host do while they stay below [2 ^ 53]; the statements
    about hunks of any start say so ([safeCounters]). *)
Definition sliceLine (r : LineRange) (st : SliceState) (line : string) : SliceState :=
  if startsWith line "@@" then
    mkSlice (sliceOldLine st) (sliceNewLine st) (collected st ++ [line]) (hasAny st)
  else if isAdded line then
    if (rangeStart r <=? sliceNewLine st) && (sliceNewLine st <=? rangeEnd r)
    then mkSlice (sliceOldLine st) (sliceNewLine st + 1) (collected st ++ [line]) true
    else mkSlice (sliceOldLine st) (sliceNewLine st + 1) (collected st) (hasAny st)
  else if isRemoved line then
    mkSlice (sliceOldLine st + 1) (sliceNewLine st) (collected st) (hasAny st)
  else if isContext line then
    if (rangeStart r <=? sliceNewLine st) && (sliceNewLine st <=? rangeEnd r)
    then mkSlice (sliceOldLine st + 1) (sliceNewLine st + 1) (collected st ++ [line]) true
    else mkSlice (sliceOldLine st + 1) (sliceNewLine st + 1) (collected st) (hasAny st)
  else st.

Definition sliceByRange (lineRange : option LineRange) (hunk : DiffHunk)
  : option DiffHunk :=
  match lineRange with
  | None => Some hunk
  | Some r =>
      let st := fold_left (sliceLine r) (lines hunk)
                          (mkSlice (oldStart hunk) (newStart hunk) [] false) in
      if hasAny st then Some (withLines hunk (collected st)) else None
  end.

(** [hunk.lines.map((line, index) => grep.test(line) ? index : -1)
              .filter((i) => i >= 0)] *)
Fixpoint matchIndices (grep : RegExp) (i : Z) (ls : list string) : list Z :=
  match ls with
  | [] => []
  | l :: r => if grep l then i :: matchIndices grep (i + 1) r
              else matchIndices grep (i + 1) r
  end.

(** The elements added to the set [keep], in the order of the two loops. *)
Definition keepSet (grepContext len : Z) (matchLines : list Z) : list Z :=
  flat_map (fun idx => upTo (Z.max 0 (idx - grepContext))
                            (Z.min (len - 1) (idx + grepContext)))
           matchLines.

(** [keep.has(index)] *)
Definition setHas (keep : list Z) (index : Z) : bool :=
  existsb (Z.eqb index) keep.

(** The grep stage on one hunk.  [grepContext] is an integer here: the
    schema of the tool also lets fractions through, for which the indices
    of the inner loop are no integers; the statements about this stage are
    statements for an integer context. *)
Definition applyGrep (grep : option RegExp) (grepContext : Z) (hunk : DiffHunk)
  : option DiffHunk :=
  match grep with
  | None => Some hunk
  | Some g =>
      let matchLines := matchIndices g 0 (lines hunk) in
      if isEmpty matchLines then None
      else if grepContext <=? 0 then Some hunk
      else
        let keep := keepSet grepContext (Z.of_nat (List.length (lines hunk))) matchLines in
        Some (withLines hunk
                (filterIndexed (fun _ index => setHas keep index || (index =? 0))
                               0 (lines hunk)))
  end.

(** The callback mapped over [file.hunks]. *)
Definition filterHunk (grep : option RegExp) (grepContext : Z)
           (lineRange : option LineRange) (hunk : DiffHunk) : option DiffHunk :=
  match sliceByRange lineRange hunk with
  | None => None
  | Some ranged => applyGrep grep grepContext ranged
  end.

(** The callback mapped over the files. *)
Definition filterFile (grep : option RegExp) (grepContext : Z)
           (lineRange : option LineRange) (file : DiffFile) : DiffFile :=
  withHunks file (filterMap (filterHunk grep grepContext lineRange) (hunks file)).

(** The first statement of [filterDiffFiles]. *)
Definition filterPaths (ps : option (list string)) (fs : list DiffFile) : list DiffFile :=
  match ps with
  | None => fs
  | Some [] => fs
  | Some l => filter (fun file => existsb (pathMatches file) l) fs
  end.

(** [filterDiffFiles] once the pattern is compiled. *)
Definition filterCompiled (grep : option RegExp) (options : FilterOptions)
           (fs : list DiffFile) : list DiffFile :=
  let filtered := filterPaths (paths options) fs in
  let grepContext := match grepContext options with Some c => c | None => 0 end in
  let filteredFiles :=
    filter (fun file => negb (isEmpty (hunks file)) || negb (isEmpty (headerLines file)))
           (map (filterFile grep grepContext (lineRange options)) filtered) in
  match grep with
  | None => filteredFiles
  | Some _ => filter (fun file => negb (isEmpty (hunks file))) filteredFiles
  end.

Definition filterDiffFiles (newRegExp : RegExpConstructor)
           (fs : list DiffFile) (options : FilterOptions) : Result (list DiffFile) :=
  bindResult (compileGrep newRegExp (grep options))
             (fun g => Ok (filterCompiled g options fs)).

(** The pattern language of the host, as far as the fallback needs it.
    Its syntax characters are [^ $ \ . * + ? ( ) [ ] { } |]; every other
    character is a pattern character, which matches itself, and a backslash
    in front of a syntax character is an identity escape, which matches
    that character. *)
Definition syntaxCharacter (c : ascii) : bool :=
  existsb (Ascii.eqb c)
          ["^"%char; "$"%char; "\"%char; "."%char; "*"%char; "+"%char; "?"%char;
           "("%char; ")"%char; "["%char; "]"%char; "{"%char; "}"%char; "|"%char].

(** The text that a pattern made only of pattern characters and identity
    escapes stands for; [None] for every other source. *)
Fixpoint literalSource (s : string) : option string :=
  match s with
  | EmptyString => Some EmptyString
  | String "\"%char EmptyString => None
  | String "\"%char (String d s'') =>
      if syntaxCharacter d then option_map (String d) (literalSource s'') else None
  | String c s' =>
      if syntaxCharacter c then None else option_map (String c) (literalSource s')
  end.

(** A small engine to run the filter on concrete inputs: it accepts the
    sources of [literalSource], which it searches literally, and refuses
    every other pattern. *)
Definition literalRegExp : RegExpConstructor :=
  fun source => option_map (fun lit line => includes line lit) (literalSource source).

(* ================================================================== *)
(** ** AnchorLinker: [hunkLinkTarget] and [buildGithubLink] *)

Inductive Side : Type := R | L.

Record LinkTarget : Type := mkTarget { line : Z; side : Side }.

(** The local variables of the loop in [hunkLinkTarget]. *)
Record TargetState : Type := mkTargetState {
  tOldLine : Z;
  tNewLine : Z;
  firstAdded : option Z;
  firstRemoved : option Z
}.

(** One turn of the loop of [hunkLinkTarget]; the counters add exactly, as
    in [sliceLine]. *)
Definition targetLine (st : TargetState) (l : string) : TargetState :=
  if startsWith l "@@" then st
  else if isAdded l then
    mkTargetState (tOldLine st) (tNewLine st + 1)
                  (match firstAdded st with None => Some (tNewLine st) | some => some end)
                  (firstRemoved st)
  else if isRemoved l then
    mkTargetState (tOldLine st + 1) (tNewLine st) (firstAdded st)
                  (match firstRemoved st with None => Some (tOldLine st) | some => some end)
  else if isContext l then
    mkTargetState (tOldLine st + 1) (tNewLine st + 1) (firstAdded st) (firstRemoved st)
  else st.

Definition hunkLinkTarget (hunk : DiffHunk) : LinkTarget :=
  let st := fold_left targetLine (lines hunk)
                      (mkTargetState (oldStart hunk) (newStart hunk) None None) in
  match firstAdded st with
  | Some n => mkTarget n R
  | None =>
      match firstRemoved st with
      | Some n => mkTarget n L
      | None => mkTarget (newStart hunk) R
      end
  end.

(** [prUrl.replace(/\/$/, "")] *)
Fixpoint stripTrailingSlash (s : string) : string :=
  match s with
  | EmptyString => EmptyString
  | String c EmptyString => if Ascii.eqb c "/"%char then EmptyString else s
  | String c s' => String c (stripTrailingSlash s')
  end.

Definition sideToString (s : Side) : string :=
  match s with R => "R" | L => "L" end.

(** [diffAnchor] is SHA-256 of the path in lowercase hex, computed by the
    host's crypto module; the renderer receives it as [diffAnchor]. *)
Definition buildGithubLink (diffAnchor : string -> string)
           (prUrl filePath : string) (ln : option Z) (sd : Side) : string :=
  let base := stripTrailingSlash prUrl in
  let anchor := "diff-" ++ diffAnchor filePath in
  match ln with
  | Some n =>
      if 0 <? n then base ++ "/changes#" ++ anchor ++ sideToString sd ++ numberToString n
      else base ++ "/changes#" ++ anchor
  | None => base ++ "/changes#" ++ anchor
  end.

(* ================================================================== *)
(** ** DiffRenderer: [formatDiffOutput] *)

Definition NL : string := String LF EmptyString.

(** [file.headerLines.some(...)] of [isNewFileDiff] *)
Definition isNewFileDiff (file : DiffFile) : bool :=
  existsb (fun l => startsWith l "--- /dev/null" || startsWith l "new file mode")
          (headerLines file).

(** One body line in the scan of [computeFileLineRanges]:
    [(minLine, maxLine, newLine)]. *)
Definition rangeScanLine (st : option Z * option Z * Z) (l : string)
  : option Z * option Z * Z :=
  let '(minLine, maxLine, newLine) := st in
  if startsWith l "@@" then st
  else if isAdded l || isContext l then
    (match minLine with None => Some newLine | some => some end,
     Some newLine, newLine + 1)
  else st.

Definition rangeScanHunk (acc : option Z * option Z) (hunk : DiffHunk)
  : option Z * option Z :=
  let '(mn, mx, _) := fold_left rangeScanLine (lines hunk)
                                (fst acc, snd acc, newStart hunk) in
  (mn, mx).

(** [for (let start = minLine; start <= maxLine; start += chunkSize)].
    With [chunkSize >= 1] the loop runs at most [maxLine - minLine + 1]
    times, which is the fuel [computeFileLineRanges] passes; the renderer
    only calls it with such a chunk size. *)
Fixpoint rangeChunks (fuel : nat) (start maxLine chunkSize : Z) : list string :=
  match fuel with
  | O => []
  | S fuel' =>
      if start <=? maxLine then
        (numberToString start ++ "-" ++
         numberToString (Z.min maxLine (start + chunkSize - 1)))
        :: rangeChunks fuel' (start + chunkSize) maxLine chunkSize
      else []
  end.

Definition computeFileLineRanges (file : DiffFile) (chunkSize : Z) : list string :=
  match fold_left rangeScanHunk (hunks file) (None, None) with
  | (Some minLine, Some maxLine) =>
      rangeChunks (Z.to_nat (maxLine - minLine + 1)) minLine maxLine chunkSize
  | _ => []
  end.

(** A plain object used as a map from strings: its own properties in the
    order of their creation. *)
Definition JsObject (V : Type) : Type := list (string * V).

(** [obj[key] = value].  Assigning an array to [__proto__] replaces the
    prototype and creates no own property. *)
Fixpoint objAssign {V : Type} (key : string) (value : V) (o : JsObject V) : JsObject V :=
  match o with
  | [] => [(key, value)]
  | (k, v) :: r => if String.eqb k key then (k, value) :: r
                   else (k, v) :: objAssign key value r
  end.

Definition objSet {V : Type} (key : string) (value : V) (o : JsObject V) : JsObject V :=
  if String.eqb key "__proto__" then o else objAssign key value o.

(** Keys that are canonical array indices are enumerated first, in
    ascending numeric order; the others follow in creation order. *)
Definition isArrayIndex (k : string) : bool :=
  match spanDigits k with
  | (d, EmptyString) =>
      negb (String.eqb d EmptyString) &&
      String.eqb (numberToString (digitsToNumber d)) k &&
      (digitsToNumber d <=? 4294967294)
  | _ => false
  end.

Fixpoint insertByIndex {V : Type} (e : string * V) (l : list (string * V))
  : list (string * V) :=
  match l with
  | [] => [e]
  | e' :: r => if digitsToNumber (fst e) <=? digitsToNumber (fst e')
               then e :: l else e' :: insertByIndex e r
  end.

(** [Object.entries(obj)] *)
Definition objEntries {V : Type} (o : JsObject V) : list (string * V) :=
  (fold_right insertByIndex [] (filter (fun e => isArrayIndex (fst e)) o)
   ++ filter (fun e => negb (isArrayIndex (fst e))) o)%list.

Record RenderOptions : Type := mkRenderOptions {
  prUrl : option string;
  maxLines : Z;
  maxHunks : Z
}.

Record RenderInfo : Type := mkInfo {
  shownFiles : Z;
  shownHunks : Z;
  shownLines : Z;
  truncated : bool;
  suggestedRanges : JsObject (list string)
}.

Record RenderOutput : Type := mkOutput {
  text : string;
  diffText : string;
  info : RenderInfo
}.

(** The variables [formatDiffOutput] accumulates into; the five counters
    are kept in the shape in which they are returned. *)
Record RenderState : Type := mkRender {
  blocks : list string;
  diffBlocks : list string;
  counters : RenderInfo
}.

Definition addBlock (t : string) (st : RenderState) : RenderState :=
  let c := counters st in
  mkRender (blocks st ++ [t]) (diffBlocks st)
           (mkInfo (shownFiles c) (shownHunks c) (shownLines c + lineCount t)
                   (truncated c) (suggestedRanges c)).

Definition addDiffBlock (t : string) (st : RenderState) : RenderState :=
  if (String.length (trim t) =? 0)%nat then st
  else mkRender (blocks st) (diffBlocks st ++ [t]) (counters st).

Definition setTruncated (st : RenderState) : RenderState :=
  let c := counters st in
  mkRender (blocks st) (diffBlocks st)
           (mkInfo (shownFiles c) (shownHunks c) (shownLines c) true (suggestedRanges c)).

Definition incrShownHunks (st : RenderState) : RenderState :=
  let c := counters st in
  mkRender (blocks st) (diffBlocks st)
           (mkInfo (shownFiles c) (shownHunks c + 1) (shownLines c)
                   (truncated c) (suggestedRanges c)).

Definition incrShownFiles (st : RenderState) : RenderState :=
  let c := counters st in
  mkRender (blocks st) (diffBlocks st)
           (mkInfo (shownFiles c + 1) (shownHunks c) (shownLines c)
                   (truncated c) (suggestedRanges c)).

Definition setSuggested (p : string) (ranges : list string) (st : RenderState)
  : RenderState :=
  let c := counters st in
  mkRender (blocks st) (diffBlocks st)
           (mkInfo (shownFiles c) (shownHunks c) (shownLines c) (truncated c)
                   (objSet p ranges (suggestedRanges c))).

(** [shownHunks >= options.maxHunks || shownLines >= options.maxLines] *)
Definition budgetReached (options : RenderOptions) (st : RenderState) : bool :=
  (maxHunks options <=? shownHunks (counters st)) ||
  (maxLines options <=? shownLines (counters st)).

(** [if (options.prUrl)]: a present, non-empty string. *)
Definition givenUrl (options : RenderOptions) : option string :=
  match prUrl options with
  | Some EmptyString => None
  | other => other
  end.

(** [`${prefix}${n} ${content}`] *)
Definition prettyText (prefix : string) (n : Z) (content : string) : string :=
  prefix ++ numberToString n ++ " " ++ content.

(** One body line of the pretty-printing loop: [(oldLine, newLine, prettyLines)]. *)
Definition prettyLine (st : Z * Z * list string) (l : string) : Z * Z * list string :=
  let '(oldLine, newLine, prettyLines) := st in
  if startsWith l "@@" then st
  else if isAdded l then
    (oldLine, newLine + 1,
     (prettyLines ++ [prettyText "+" newLine (sliceFrom 1 l)])%list)
  else if isRemoved l then
    (oldLine + 1, newLine,
     (prettyLines ++ [prettyText "-" oldLine (sliceFrom 1 l)])%list)
  else if isContext l then
    (oldLine + 1, newLine + 1,
     (prettyLines ++ [prettyText " " newLine (sliceFrom 1 l)])%list)
  else
    (oldLine, newLine,
     (prettyLines ++ [prettyText " " newLine l])%list).

Definition prettyLines (hunk : DiffHunk) : list string :=
  snd (fold_left prettyLine (lines hunk) (oldStart hunk, newStart hunk, [])).

(** The text block of a hunk, given the lines still allowed. *)
Definition hunkTruncated (file : DiffFile) (hunk : DiffHunk) (remainingLines : Z) : bool :=
  remainingLines <? Z.of_nat (List.length (headerLines file ++ lines hunk)%list).

Definition linesToRender (file : DiffFile) (hunk : DiffHunk) (remainingLines : Z)
  : list string :=
  let fullLines := (headerLines file ++ lines hunk)%list in
  if hunkTruncated file hunk remainingLines
  then sliceTo (Z.max 0 (remainingLines - 1)) fullLines
  else fullLines.

Definition hunkBlock (file : DiffFile) (hunk : DiffHunk) (remainingLines : Z) : string :=
  let block := "== " ++ path file ++ " (hunk +" ++ numberToString (newStart hunk) ++ ")"
               ++ NL ++ join NL (linesToRender file hunk remainingLines) in
  if hunkTruncated file hunk remainingLines
  then block ++ NL ++ "... (truncated)"
  else block.

(** The per-file flags [fileShown], [diffStarted], [prettyHeaderAdded]. *)
Record FileFlags : Type := mkFlags {
  fileShown : bool;
  diffStarted : bool;
  prettyHeaderAdded : bool
}.

(** The body of [for (const hunk of file.hunks)] after the budget test. *)
Definition renderHunk (diffAnchor : string -> string) (options : RenderOptions)
           (file : DiffFile) (hunk : DiffHunk) (fl : FileFlags) (st : RenderState)
  : FileFlags * RenderState :=
  let remainingLines := maxLines options - shownLines (counters st) in
  let st1 := if hunkTruncated file hunk remainingLines then setTruncated st else st in
  let st2 := incrShownHunks (addBlock (hunkBlock file hunk remainingLines) st1) in
  let st3 := if prettyHeaderAdded fl then st2 else addDiffBlock ("  " ++ path file) st2 in
  let st4 := addDiffBlock (join NL (prettyLines hunk)) st3 in
  let st5 := if diffStarted fl then addDiffBlock EmptyString st4 else st4 in
  let st6 := match givenUrl options with
             | Some url =>
                 let target := hunkLinkTarget hunk in
                 addBlock ("GitHub: " ++ buildGithubLink diffAnchor url (path file)
                                                         (Some (line target)) (side target))
                          st5
             | None => st5
             end in
  (mkFlags true true true, st6).

(** [for (const hunk of file.hunks)], with its [break]. *)
Fixpoint renderHunks (diffAnchor : string -> string) (options : RenderOptions)
         (file : DiffFile) (hs : list DiffHunk) (fl : FileFlags) (st : RenderState)
  : FileFlags * RenderState :=
  match hs with
  | [] => (fl, st)
  | hunk :: rest =>
      if budgetReached options st then (fl, setTruncated st)
      else
        let (fl', st') := renderHunk diffAnchor options file hunk fl st in
        renderHunks diffAnchor options file rest fl' st'
  end.

(** The branch [if (file.hunks.length === 0)]. *)
Definition renderHeaderOnly (diffAnchor : string -> string) (options : RenderOptions)
           (file : DiffFile) (st : RenderState) : RenderState :=
  let st1 := addBlock ("== " ++ path file ++ NL ++ join NL (headerLines file)) st in
  let st2 := addDiffBlock ("  " ++ path file) st1 in
  let st3 := match givenUrl options with
             | Some url =>
                 addBlock ("GitHub: " ++ buildGithubLink diffAnchor url (path file) None R) st2
             | None => st2
             end in
  incrShownFiles st3.

(** [for (const file of files)], with its [break] and [continue]. *)
Fixpoint renderFiles (diffAnchor : string -> string) (options : RenderOptions)
         (fs : list DiffFile) (st : RenderState) : RenderState :=
  match fs with
  | [] => st
  | file :: rest =>
      if budgetReached options st then setTruncated st
      else if isEmpty (hunks file) then
        renderFiles diffAnchor options rest (renderHeaderOnly diffAnchor options file st)
      else
        let (fl, st1) := renderHunks diffAnchor options file (hunks file)
                                     (mkFlags false false false) st in
        let st2 := if truncated (counters st1) && isNewFileDiff file
                   then setSuggested (path file)
                                     (computeFileLineRanges file (maxLines options)) st1
                   else st1 in
        let st3 := if fileShown fl then incrShownFiles st2 else st2 in
        renderFiles diffAnchor options rest st3
  end.

Definition truncationNote : string :=
  "---" ++ NL ++
  "Diff output truncated. The diff has already been shown to the user; do NOT show another diff unless the user explicitly asks.".

Definition rangeHints (o : JsObject (list string)) : string :=
  join NL (map (fun e => fst e ++ ": " ++ join ", " (snd e))
               (filter (fun e => negb (isEmpty (snd e))) (objEntries o))).

(** The note pushed last when the output was truncated. *)
Definition noteWithHints (hints : string) : string :=
  if String.eqb hints EmptyString then truncationNote
  else truncationNote ++ NL ++ "Suggested lineRange values:" ++ NL ++ hints.

Definition initialRender : RenderState :=
  mkRender [] [] (mkInfo 0 0 0 false []).

(** The state when the loop over the files is left. *)
Definition renderLoop (diffAnchor : string -> string) (fs : list DiffFile)
           (options : RenderOptions) : RenderState :=
  renderFiles diffAnchor options fs initialRender.

Definition formatDiffOutput (diffAnchor : string -> string) (fs : list DiffFile)
           (options : RenderOptions) : RenderOutput :=
  if isEmpty fs then
    mkOutput "No diff output (filters removed all hunks)." EmptyString
             (mkInfo 0 0 0 false [])
  else
    let st := renderLoop diffAnchor fs options in
    let c := counters st in
    let allBlocks :=
      if truncated c then
        let hints := rangeHints (suggestedRanges c) in
        (blocks st ++ [noteWithHints hints])%list
      else blocks st in
    mkOutput (join (NL ++ NL) allBlocks) (join NL (diffBlocks st)) c.

(* ================================================================== *)
(** ** Notions used to state the properties *)

(** Number of lines of [ls] that open a file entry. *)
Definition fileMarkers (ls : list string) : nat :=
  List.length (filter (fun l => startsWith l "diff --git ") ls).

(** A hunk carries its [@@] header line as [lines[0]]. *)
Definition headerFirst (h : DiffHunk) : Prop :=
  startsWith (header h) "@@" = true /\ nth_error (lines h) 0 = Some (header h).

(** The replay of a hunk body: every line with its kind and with the values
    the old and new counters have when the line is reached. *)
Inductive LineKind : Type := KHeader | KAdded | KRemoved | KContext | KOther.

Definition lineKind (l : string) : LineKind :=
  if startsWith l "@@" then KHeader
  else if isAdded l then KAdded
  else if isRemoved l then KRemoved
  else if isContext l then KContext
  else KOther.

Fixpoint replay (oldLine newLine : Z) (ls : list string) : list (LineKind * Z * Z) :=
  match ls with
  | [] => []
  | l :: r =>
      (lineKind l, oldLine, newLine) ::
      match lineKind l with
      | KAdded => replay oldLine (newLine + 1) r
      | KRemoved => replay (oldLine + 1) newLine r
      | KContext => replay (oldLine + 1) (newLine + 1) r
      | _ => replay oldLine newLine r
      end
  end.

Definition isKind (k : LineKind) (e : LineKind * Z * Z) : bool :=
  match k, fst (fst e) with
  | KAdded, KAdded | KRemoved, KRemoved | KContext, KContext
  | KHeader, KHeader | KOther, KOther => true
  | _, _ => false
  end.

(** The two counters recorded with a replayed line. *)
Definition newNumber (e : LineKind * Z * Z) : Z := snd e.
Definition oldNumber (e : LineKind * Z * Z) : Z := snd (fst e).

(** The kind of a hunk line read off its first characters: the plain
    reading of a unified diff, in which a body line is added, removed or
    context by its first character alone. *)
Definition plainKind (l : string) : LineKind :=
  match l with
  | String "+"%char _ => KAdded
  | String "-"%char _ => KRemoved
  | String " "%char _ => KContext
  | _ => KOther
  end.

(** The reading that sets the marker-like lines apart: a line that begins
    with [@@] is a hunk header, and a line that begins with [+++] or [---]
    is taken for a file header line and is neither added nor removed. *)
Definition bodyKind (l : string) : LineKind :=
  match l with
  | String "@"%char (String "@"%char _) => KHeader
  | String "+"%char (String "+"%char (String "+"%char _)) => KOther
  | String "+"%char _ => KAdded
  | String "-"%char (String "-"%char (String "-"%char _)) => KOther
  | String "-"%char _ => KRemoved
  | String " "%char _ => KContext
  | _ => KOther
  end.

(** The lines of a hunk with the numbers they have on the old and on the
    new side, for a given reading of the lines: an added line advances the
    new counter, a removed line the old one, a context line both, and any
    other line none. *)
Fixpoint numbered (kind : string -> LineKind) (oldLine newLine : Z) (ls : list string)
  : list (LineKind * Z * Z) :=
  match ls with
  | [] => []
  | l :: r =>
      (kind l, oldLine, newLine) ::
      match kind l with
      | KAdded => numbered kind oldLine (newLine + 1) r
      | KRemoved => numbered kind (oldLine + 1) newLine r
      | KContext => numbered kind (oldLine + 1) (newLine + 1) r
      | _ => numbered kind oldLine newLine r
      end
  end.

(** The link target as the specification words it, for a given reading of
    the lines: first added line on the new side, else first removed line on
    the old side, else the start of the hunk. *)
Definition targetBy (kind : string -> LineKind) (h : DiffHunk) : LinkTarget :=
  let ls := numbered kind (oldStart h) (newStart h) (lines h) in
  match find (isKind KAdded) ls with
  | Some e => mkTarget (newNumber e) R
  | None =>
      match find (isKind KRemoved) ls with
      | Some e => mkTarget (oldNumber e) L
      | None => mkTarget (newStart h) R
      end
  end.

(** The counters of a hunk stay among the integers that the numbers of the
    host represent exactly, so that adding one to a counter is exact. *)
Definition safeCounters (h : DiffHunk) : Prop :=
  0 <= oldStart h /\ 0 <= newStart h /\
  oldStart h + Z.of_nat (List.length (lines h)) <= 2 ^ 53 /\
  newStart h + Z.of_nat (List.length (lines h)) <= 2 ^ 53.

(** Number of LF characters of a string. *)
Fixpoint newlines (s : string) : nat :=
  match s with
  | EmptyString => O
  | String c s' => if Ascii.eqb c LF then S (newlines s') else newlines s'
  end.

(** The entry opened by the [k]-th file marker, either already pushed or
    still the current file. *)
Definition entryAt (k : nat) (p first : string) (st : ParseState) : Prop :=
  (exists f, nth_error (files st) k = Some f /\ path f = p /\
             nth_error (headerLines f) 0 = Some first)
  \/ (List.length (files st) = k /\
      exists f, currentFile st = Some f /\ path f = p /\
                nth_error (headerLines f) 0 = Some first).

(** Entries pushed or opened so far. *)
Definition entryCount (st : ParseState) : nat :=
  (List.length (files st) + match currentFile st with Some _ => 1 | None => 0 end)%nat.

Definition noLF (s : string) : Prop := newlines s = O.

(** Well-formedness of a file entry: it has a header line, every hunk
    starts with its own header line, and no string in it spans two lines. *)
Record parsedFile (f : DiffFile) : Prop := mkParsedFile {
  pf_headers : headerLines f <> [];
  pf_hunks : Forall headerFirst (hunks f);
  pf_path : noLF (path f);
  pf_headerLines : Forall noLF (headerLines f);
  pf_lines : Forall (fun h => Forall noLF (lines h)) (hunks f)
}.

Definition parsedState (st : ParseState) : Prop :=
  Forall parsedFile (files st) /\
  match currentFile st with Some f => parsedFile f | None => True end.

(** Options that set nothing but the path prefixes / the line range. *)
Definition onlyPaths (ps : list string) : FilterOptions :=
  mkFilterOptions (Some ps) None None None.

Definition onlyRange (a b : Z) : FilterOptions :=
  mkFilterOptions None None None (Some (mkRange a b)).

(** The options carry a pattern that [compileGrep] does compile. *)
Definition grepGiven (o : FilterOptions) : Prop :=
  exists p, grep o = Some p /\ p <> EmptyString.

(** A body line other than the added one: it is not taken for a hunk header
    and is not an added line. *)
Definition plainBodyLine (l : string) : Prop :=
  startsWith l "@@" = false /\ isAdded l = false.

(** Number of context lines, the ones that advance the new-file counter
    among lines that are not added. *)
Definition contextLines (ls : list string) : Z :=
  Z.of_nat (List.length (filter isContext ls)).

(** [newLine >= lineRange.start && newLine <= lineRange.end] *)
Definition inRange (r : LineRange) (n : Z) : bool :=
  (rangeStart r <=? n) && (n <=? rangeEnd r).

(** What the language prescribes for a pattern made only of pattern
    characters and identity escapes: it compiles, and the compiled pattern
    matches a line exactly when the line contains the text the pattern
    stands for. *)
Definition literalSemantics (newRegExp : RegExpConstructor) : Prop :=
  forall source text,
    literalSource source = Some text ->
    exists r, newRegExp source = Some r /\ forall l, r l = includes l text.

(** Strictly increasing positions, all at least [lo]. *)
Fixpoint increasingFrom (lo : nat) (ks : list nat) : Prop :=
  match ks with
  | [] => True
  | k :: r => (lo <= k)%nat /\ increasingFrom (S k) r
  end.

(** The positions of [l], counted from [s], that an index test keeps. *)
Definition keptPositions (q : Z -> bool) (s len : nat) : list nat :=
  filter (fun k => q (Z.of_nat k)) (seq s len).

(** The index test of the last statement of [applyGrep]. *)
Definition keepIndex (g : RegExp) (c : Z) (ls : list string) (index : Z) : bool :=
  setHas (keepSet c (Z.of_nat (List.length ls)) (matchIndices g 0 ls)) index
  || (index =? 0).

(* ------------------------------------------------------------------ *)
(** Notions about the rendered text *)

(** The first line of a hunk block. *)
Definition hunkTitle (file : DiffFile) (hunk : DiffHunk) : string :=
  "== " ++ path file ++ " (hunk +" ++ numberToString (newStart hunk) ++ ")".

(** A hunk block that the line budget did not cut: the title, all the
    header lines of the file, then the lines of the hunk. *)
Definition wholeHunkBlock (file : DiffFile) (hunk : DiffHunk) : string :=
  hunkTitle file hunk ++ NL ++ join NL (headerLines file ++ lines hunk)%list.

(** A hunk block cut to the first [k] lines. *)
Definition cutHunkBlock (file : DiffFile) (hunk : DiffHunk) (k : nat) : string :=
  hunkTitle file hunk ++ NL ++
  join NL (firstn k (headerLines file ++ lines hunk)%list) ++ NL ++ "... (truncated)".

(** The block of a file without hunks. *)
Definition headerOnlyBlock (file : DiffFile) : string :=
  "== " ++ path file ++ NL ++ join NL (headerLines file).

(** The link block that follows a block when a base URL is given. *)
Definition linkBlocks (diffAnchor : string -> string) (options : RenderOptions)
           (file : DiffFile) (target : option LinkTarget) : list string :=
  match givenUrl options with
  | Some url =>
      ["GitHub: " ++
       match target with
       | Some t => buildGithubLink diffAnchor url (path file) (Some (line t)) (side t)
       | None => buildGithubLink diffAnchor url (path file) None R
       end]
  | None => []
  end.

(** The blocks of a rendering that no budget limits. *)
Definition fullFileBlocks (diffAnchor : string -> string) (options : RenderOptions)
           (file : DiffFile) : list string :=
  if isEmpty (hunks file)
  then headerOnlyBlock file :: linkBlocks diffAnchor options file None
  else flat_map (fun h => wholeHunkBlock file h ::
                          linkBlocks diffAnchor options file (Some (hunkLinkTarget h)))
                (hunks file).

Definition fullBlocks (diffAnchor : string -> string) (options : RenderOptions)
           (fs : list DiffFile) : list string :=
  flat_map (fullFileBlocks diffAnchor options) fs.

(** Lines of a list of blocks, counted the way [addBlock] counts them. *)
Definition totalLines (bs : list string) : Z :=
  fold_right (fun b acc => lineCount b + acc) 0 bs.

(** Number of lines the rendering of [fs] produces when nothing is cut. *)
Definition fullOutputLines (diffAnchor : string -> string) (options : RenderOptions)
           (fs : list DiffFile) : Z :=
  totalLines (fullBlocks diffAnchor options fs).

(** What a block of the rendered text can be. *)
Definition renderedBlock (options : RenderOptions) (fs : list DiffFile) (b : string)
  : Prop :=
  (exists f, In f fs /\ hunks f = [] /\ b = headerOnlyBlock f) \/
  (exists f h, In f fs /\ In h (hunks f) /\
               (b = wholeHunkBlock f h \/
                exists k, (k < List.length (headerLines f ++ lines h))%nat /\
                          b = cutHunkBlock f h k)) \/
  (exists link, givenUrl options <> None /\ b = "GitHub: " ++ link).

(** The block of a hunk that the loop reaches when [shown] lines have been
    shown: the whole block when the header lines of the file and the lines
    of the hunk are no more than the lines that remain, and otherwise the
    block cut to one line less than remain, closed by the truncation line. *)
Definition budgetedHunkBlock (options : RenderOptions) (shown : Z)
           (file : DiffFile) (hunk : DiffHunk) : string :=
  let remaining := maxLines options - shown in
  if Z.of_nat (List.length (headerLines file ++ lines hunk)%list) <=? remaining
  then wholeHunkBlock file hunk
  else cutHunkBlock file hunk (Z.to_nat (remaining - 1)).

(** The blocks that a rendering can push once [shown] lines have been
    shown: the block of a file without hunks, or the block of a hunk as the
    lines that remain allow it, each followed by its link block when a URL
    is given, and then the blocks that follow with the lines of these
    counted as shown. *)
Inductive renderedFrom (diffAnchor : string -> string) (options : RenderOptions)
          (fs : list DiffFile) : Z -> list string -> Prop :=
| renderedNothing shown : renderedFrom diffAnchor options fs shown []
| renderedHeaderOnly shown f rest :
    In f fs -> hunks f = [] ->
    renderedFrom diffAnchor options fs
      (shown + totalLines (headerOnlyBlock f :: linkBlocks diffAnchor options f None))
      rest ->
    renderedFrom diffAnchor options fs shown
      (headerOnlyBlock f :: linkBlocks diffAnchor options f None ++ rest)%list
| renderedHunk shown f h rest :
    In f fs -> In h (hunks f) -> shown < maxLines options ->
    renderedFrom diffAnchor options fs
      (shown + totalLines (budgetedHunkBlock options shown f h ::
                           linkBlocks diffAnchor options f (Some (hunkLinkTarget h))))
      rest ->
    renderedFrom diffAnchor options fs shown
      (budgetedHunkBlock options shown f h ::
       linkBlocks diffAnchor options f (Some (hunkLinkTarget h)) ++ rest)%list.

(** One more line per block when links are rendered. *)
Definition linkLines (options : RenderOptions) : Z :=
  match givenUrl options with Some _ => 1 | None => 0 end.

(** The diff can be rendered hunk by hunk: parsed, and no file is
    header-only. *)
Definition hunkedFile (f : DiffFile) : Prop := parsedFile f /\ hunks f <> [].

(** Number of hunks of a diff. *)
Definition hunkCount (fs : list DiffFile) : Z :=
  fold_right (fun f acc => Z.of_nat (List.length (hunks f)) + acc) 0 fs.

(* ================================================================== *)
(** ** Further notions about the parser *)

(** All the lines a file entry holds, in the order of the input. *)
Definition fileLines (f : DiffFile) : list string :=
  (headerLines f ++ flat_map lines (hunks f))%list.

Definition diffLines (fs : list DiffFile) : list string :=
  flat_map fileLines fs.

(** The lines held by the parser's variables. *)
Definition stateLines (st : ParseState) : list string :=
  (diffLines (files st) ++
   match currentFile st with Some f => fileLines f | None => [] end)%list.

(** [currentHunk] is set exactly when the current file has a hunk. *)
Definition hunkFlagSound (st : ParseState) : Prop :=
  match currentFile st with
  | Some f => currentHunk st = negb (isEmpty (hunks f))
  | None => True
  end.

(** The parser's state with [fs] in front of the pushed files. *)
Definition prependFiles (fs : list DiffFile) (st : ParseState) : ParseState :=
  mkParse (fs ++ files st) (currentFile st) (currentHunk st).

(** No character of [s] is a space. *)
Definition noSpace (s : string) : bool :=
  forallb (fun c => negb (Ascii.eqb c " "%char)) (list_ascii_of_string s).

(** The start counters of a hunk are the ones read off its header line,
    zero when the header does not have the expected shape. *)
Definition startsFromHeader (h : DiffHunk) : Prop :=
  (oldStart h, newStart h) =
  match hunkHeaderExec (header h) with
  | Some p => p
  | None => (0, 0)
  end.

Definition numberedState (st : ParseState) : Prop :=
  Forall (fun f => Forall startsFromHeader (hunks f)) (files st) /\
  match currentFile st with
  | Some f => Forall startsFromHeader (hunks f)
  | None => True
  end.

(** The entry a marker line opens. *)
Definition openFile (m : string) : DiffFile :=
  mkFile match diffGitExec m with
         | Some m2 => m2
         | None => replaceFirst m "diff --git " ""
         end [m] [].

(** [rest] behind the optional count [,<n>] of a hunk header. *)
Definition withCount (count : option Z) (rest : string) : string :=
  match count with
  | Some n => "," ++ numberToString n ++ rest
  | None => rest
  end.

(** A hunk header line as the diff tools write it:
    [@@ -<a>[,<b>] +<c>[,<d>] @@<tail>]. *)
Definition hunkHeaderText (a : Z) (b : option Z) (c : Z) (d : option Z) (tail : string)
  : string :=
  "@@ -" ++ numberToString a ++
  withCount b (" +" ++ numberToString c ++ withCount d (" @@" ++ tail)).

Definition countOk (count : option Z) : Prop :=
  match count with Some n => 0 <= n | None => True end.

(** The marker line of a file with the given old and new paths. *)
Definition markerLine (old new : string) : string :=
  "diff --git a/" ++ old ++ " b/" ++ new.

(* ================================================================== *)
(** ** Further notions about the filter *)

(** [l1] is [l2] with some elements left out, the order kept. *)
Inductive subseq {A : Type} : list A -> list A -> Prop :=
| subseq_nil : subseq [] []
| subseq_keep x l1 l2 : subseq l1 l2 -> subseq (x :: l1) (x :: l2)
| subseq_skip x l1 l2 : subseq l1 l2 -> subseq l1 (x :: l2).

(** A hunk that comes from [h] by leaving lines out. *)
Definition hunkReduced (h' h : DiffHunk) : Prop :=
  header h' = header h /\ oldStart h' = oldStart h /\ newStart h' = newStart h /\
  subseq (lines h') (lines h).

(** A file that comes from [f] by leaving hunks and lines out. *)
Definition fileReduced (f' f : DiffFile) : Prop :=
  path f' = path f /\ headerLines f' = headerLines f /\
  exists kept, subseq kept (hunks f) /\ Forall2 hunkReduced (hunks f') kept.

(** Options that select nothing. *)
Definition selectsNothing (o : FilterOptions) : Prop :=
  (paths o = None \/ paths o = Some []) /\
  (grep o = None \/ grep o = Some EmptyString) /\
  lineRange o = None.

(** Number of lines that are not taken for a hunk header. *)
Definition contentCount (ls : list string) : Z :=
  Z.of_nat (List.length (filter (fun l => negb (startsWith l "@@")) ls)).

(* ================================================================== *)
(** ** Further notions about links and rendering *)


(** [`${start}-${end}`] *)
Definition rangeText (p : Z * Z) : string :=
  numberToString (fst p) ++ "-" ++ numberToString (snd p).



(** A string of white space, as [\s*] takes it. *)
Definition allWhiteSpace (s : string) : bool :=
  forallb isWhiteSpace (list_ascii_of_string s).

(** The longest prefix of white space, and what follows it. *)
Fixpoint spanWhiteSpace (s : string) : string * string :=
  match s with
  | EmptyString => (EmptyString, EmptyString)
  | String c s' =>
      if isWhiteSpace c then let (w, r) := spanWhiteSpace s' in (String c w, r)
      else (EmptyString, s)
  end.

(** The match [/^(\d+)\s*-\s*(\d+)$/] of the diff tool on its [lineRange]
    parameter, and the range built from the two captures.  Each quantifier
    is followed by a character it cannot take, so the greedy choice is the
    only one. *)
Definition parseLineRange (s : string) : option LineRange :=
  match spanDigits s with
  | (EmptyString, _) => None
  | (d1, s1) =>
      match expect (snd (spanWhiteSpace s1)) "-" with
      | None => None
      | Some s2 =>
          match spanDigits (snd (spanWhiteSpace s2)) with
          | (EmptyString, _) => None
          | (d2, EmptyString) => Some (mkRange (digitsToNumber d1) (digitsToNumber d2))
          | (_, String _ _) => None
          end
      end
  end.

(** What the entries of [suggestedRanges] may be for the diff [fs]. *)
Definition suggestionsSound (options : RenderOptions) (fs : list DiffFile)
           (st : RenderState) : Prop :=
  (truncated (counters st) = false -> suggestedRanges (counters st) = []) /\
  forall k v, In (k, v) (suggestedRanges (counters st)) ->
              exists f, In f fs /\ path f = k /\ isNewFileDiff f = true /\
                        hunks f <> [] /\
                        v = computeFileLineRanges f (maxLines options).

(** [`${a}`, white space, [-], white space, `${b}`]: the texts the match of
    [parseLineRange] takes for the numbers [a] and [b]. *)
Definition spacedRange (a : Z) (w1 w2 : string) (b : Z) : string :=
  numberToString a ++ w1 ++ "-" ++ w2 ++ numberToString b.

(* ================================================================== *)
(** ** The [assisted_review_comment] tool and the restored state *)

Module CommentTool.

Inductive Priority : Type := P0 | P1 | P2 | P3.

Inductive CommentSide : Type := RIGHT | LEFT.

Inductive Action : Type := doList | doAdd | doClear | doUpdate | doDelete.

Record AssistedReviewComment : Type := mkComment {
  id : Z;
  title : string;
  body : string;
  priority : Priority;
  path : option string;
  line : option Z;
  side : option CommentSide
}.

(** The two module variables [comments] and [nextCommentId]; the same pair
    is what [persistCommentsState] appends and what the [details] of a
    result carry as [comments] and [nextId]. *)
Record CommentsState : Type := mkState {
  comments : list AssistedReviewComment;
  nextId : Z
}.

Record AssistedReviewDetails : Type := mkDetails {
  action : Action;
  snapshot : CommentsState;
  error : option string
}.

Record Params : Type := mkParams {
  pAction : Action;
  pId : option Z;
  pTitle : option string;
  pBody : option string;
  pPriority : option Priority;
  pPath : option string;
  pLine : option Z;
  pSide : option CommentSide
}.

Record ToolResult : Type := mkResult {
  text : string;
  details : AssistedReviewDetails
}.

(** What a call leaves behind: its result, the module variables after it,
    and the entry it appended to the session, if any. *)
Record Outcome : Type := mkOutcome {
  result : ToolResult;
  after : CommentsState;
  persisted : option CommentsState
}.

(** [if (s)] for an optional string: present and not empty. *)
Definition given (s : option string) : bool :=
  match s with
  | Some (String _ _) => true
  | _ => false
  end.

Definition priorityText (p : Priority) : string :=
  match p with P0 => "P0" | P1 => "P1" | P2 => "P2" | P3 => "P3" end.

(** One line of the [list] action; the place is added when
    [comment.path && comment.line !== undefined]. *)
Definition listLine (c : AssistedReviewComment) : string :=
  "[" ++ priorityText (priority c) ++ "] #" ++ numberToString (id c) ++ " " ++ title c ++
  match path c, line c with
  | Some (String a p), Some n => " (" ++ String a p ++ ":" ++ numberToString n ++ ")"
  | _, _ => EmptyString
  end.

(** [comments.findIndex((comment) => comment.id === k)] *)
Fixpoint findIndex (k : Z) (cs : list AssistedReviewComment) : option nat :=
  match cs with
  | [] => None
  | c :: r => if id c =? k then Some O
              else match findIndex k r with
                   | Some i => Some (S i)
                   | None => None
                   end
  end.

(** [cs[index] = next] for an index within the array *)
Fixpoint setAt (index : nat) (next : AssistedReviewComment)
         (cs : list AssistedReviewComment) : list AssistedReviewComment :=
  match cs, index with
  | [], _ => []
  | _ :: r, O => next :: r
  | c :: r, S i => c :: setAt i next r
  end.

(** [cs.splice(index, 1)]: what stays in the array *)
Fixpoint removeAt (index : nat) (cs : list AssistedReviewComment)
  : list AssistedReviewComment :=
  match cs, index with
  | [], _ => []
  | _ :: r, O => r
  | c :: r, S i => c :: removeAt i r
  end.

Definition failure (a : Action) (st : CommentsState) (message reason : string) : Outcome :=
  mkOutcome (mkResult message (mkDetails a st (Some reason))) st None.

Definition success (a : Action) (st : CommentsState) (message : string) : Outcome :=
  mkOutcome (mkResult message (mkDetails a st None)) st (Some st).

(** The field updates of the [update] action, in the order of the source:
    the comment so far and the flag [changed]. *)
Definition updateTitle (p : Params) (s : AssistedReviewComment * bool)
  : AssistedReviewComment * bool :=
  match pTitle p with
  | Some t => let c := fst s in
              (mkComment (id c) t (body c) (priority c) (path c) (line c) (side c), true)
  | None => s
  end.

Definition updateBody (p : Params) (s : AssistedReviewComment * bool)
  : AssistedReviewComment * bool :=
  match pBody p with
  | Some b => let c := fst s in
              (mkComment (id c) (title c) b (priority c) (path c) (line c) (side c), true)
  | None => s
  end.

Definition updatePriority (p : Params) (s : AssistedReviewComment * bool)
  : AssistedReviewComment * bool :=
  match pPriority p with
  | Some pr => let c := fst s in
               (mkComment (id c) (title c) (body c) pr (path c) (line c) (side c), true)
  | None => s
  end.

Definition updatePath (p : Params) (s : AssistedReviewComment * bool)
  : AssistedReviewComment * bool :=
  match pPath p with
  | Some pa =>
      let c := fst s in
      if String.eqb (trim pa) EmptyString
      then (mkComment (id c) (title c) (body c) (priority c) None None None, true)
      else (mkComment (id c) (title c) (body c) (priority c) (Some pa) (line c) (side c),
            true)
  | None => s
  end.

Definition updateLine (p : Params) (s : AssistedReviewComment * bool)
  : AssistedReviewComment * bool :=
  match pLine p with
  | Some n =>
      let c := fst s in
      if n <=? 0
      then (mkComment (id c) (title c) (body c) (priority c) (path c) None
                      (if given (path c) then side c else None), true)
      else (mkComment (id c) (title c) (body c) (priority c) (path c) (Some n) (side c),
            true)
  | None => s
  end.

Definition updateSide (p : Params) (s : AssistedReviewComment * bool)
  : AssistedReviewComment * bool :=
  match pSide p with
  | Some sd => let c := fst s in
               (mkComment (id c) (title c) (body c) (priority c) (path c) (line c)
                          (Some sd), true)
  | None => s
  end.

Definition updated (p : Params) (current : AssistedReviewComment)
  : AssistedReviewComment * bool :=
  updateSide p (updateLine p (updatePath p (updatePriority p (updateBody p
    (updateTitle p (current, false)))))).

Definition lineWithoutPath (l : option Z) (pa : option string) : bool :=
  match l with Some _ => negb (given pa) | None => false end.

(** [execute(_toolCallId, params)] on the module variables [st]. *)
Definition execute (p : Params) (st : CommentsState) : Outcome :=
  match pAction p with
  | doList =>
      mkOutcome
        (mkResult (if isEmpty (comments st) then "No comments captured"
                   else join NL (map listLine (comments st)))
                  (mkDetails doList st None))
        st None
  | doAdd =>
      match pTitle p, pBody p, pPriority p with
      | Some (String t0 t), Some (String b0 b), Some pr =>
          if lineWithoutPath (pLine p) (pPath p)
          then failure doAdd st "Error: path is required when line is provided"
                       "path required for line"
          else
            let newComment :=
              mkComment (nextId st) (String t0 t) (String b0 b) pr
                        (pPath p) (pLine p) (pSide p) in
            success doAdd (mkState (comments st ++ [newComment]) (nextId st + 1))
                    ("Added comment #" ++ numberToString (id newComment) ++ ": " ++
                     title newComment)
      | _, _, _ => failure doAdd st "Error: title, body, and priority are required"
                           "missing required fields"
      end
  | doUpdate =>
      match pId p with
      | None => failure doUpdate st "Error: id is required for update" "id required"
      | Some k =>
          match findIndex k (comments st) with
          | None => failure doUpdate st
                            ("Error: comment #" ++ numberToString k ++ " not found")
                            "comment not found"
          | Some index =>
              (* [comments[index]]: the index comes from [findIndex], so it
                 lies within the array and the first branch is never taken *)
              match nth_error (comments st) index with
              | None => failure doUpdate st
                                ("Error: comment #" ++ numberToString k ++ " not found")
                                "comment not found"
              | Some current =>
                  let (next, changed) := updated p current in
                  if negb changed
                  then failure doUpdate st "Error: no fields provided to update"
                               "no changes"
                  else if lineWithoutPath (line next) (path next)
                  then failure doUpdate st
                               "Error: path is required when line is provided"
                               "path required for line"
                  else success doUpdate
                               (mkState (setAt index next (comments st)) (nextId st))
                               ("Updated comment #" ++ numberToString (id next))
              end
          end
      end
  | doDelete =>
      match pId p with
      | None => failure doDelete st "Error: id is required for delete" "id required"
      | Some k =>
          match findIndex k (comments st) with
          | None => failure doDelete st
                            ("Error: comment #" ++ numberToString k ++ " not found")
                            "comment not found"
          | Some index =>
              match nth_error (comments st) index with
              | None => failure doDelete st
                                ("Error: comment #" ++ numberToString k ++ " not found")
                                "comment not found"
              | Some removed =>
                  success doDelete
                          (mkState (removeAt index (comments st)) (nextId st))
                          ("Deleted comment #" ++ numberToString (id removed))
              end
          end
      end
  | doClear =>
      success doClear (mkState [] 1)
              ("Cleared " ++ numberToString (Z.of_nat (List.length (comments st))) ++
               " comments")
  end.

(** [let comments = []; let nextCommentId = 1;] *)
Definition initialState : CommentsState := mkState [] 1.

(** A sequence of calls, each on the variables the one before left. *)
Definition run (ps : list Params) (st : CommentsState) : CommentsState :=
  fold_left (fun s p => after (execute p s)) ps st.

(** The review-mode variables, as the extension persists them. *)
Record ReviewModeState : Type := mkMode {
  active : bool;
  originId : option string;
  previousTools : option (list string);
  prRef : option string
}.

(** Ids grow along the list and lie between 1 and [nextId]. *)
Definition idsOrdered (st : CommentsState) : Prop :=
  StronglySorted Z.lt (map id (comments st)) /\
  Forall (fun c => 1 <= id c < nextId st) (comments st) /\
  1 <= nextId st.

(** The parameters of a [delete] call for the comment [k]. *)
Definition deleteParams (k : Z) : Params :=
  mkParams doDelete (Some k) None None None None None None.

(** What one call may do to the comments: nothing to a comment whose id is
    not the one given, and no id changes. *)
Definition sameButFor (k : option Z) (c c' : AssistedReviewComment) : Prop :=
  id c' = id c /\ (Some (id c) <> k -> c' = c).

(** A comment that has a line has a path. *)
Definition lineHasPath (c : AssistedReviewComment) : Prop :=
  lineWithoutPath (line c) (path c) = false.

(** The ways a call can end. *)
Inductive Effect (p : Params) (st : CommentsState) : Outcome -> Prop :=
| NoChange o :
    after o = st -> persisted o = None ->
    (pAction p = doList \/ error (details (result o)) <> None) ->
    snapshot (details (result o)) = st ->
    Effect p st o
| Added o c :
    pAction p = doAdd ->
    id c = nextId st -> lineHasPath c ->
    after o = mkState (comments st ++ [c]) (nextId st + 1) ->
    persisted o = Some (after o) -> error (details (result o)) = None ->
    snapshot (details (result o)) = after o ->
    Effect p st o
| Updated o k index current next :
    pAction p = doUpdate -> pId p = Some k ->
    findIndex k (comments st) = Some index ->
    nth_error (comments st) index = Some current ->
    id current = k -> id next = k -> lineHasPath next ->
    after o = mkState (setAt index next (comments st)) (nextId st) ->
    persisted o = Some (after o) -> error (details (result o)) = None ->
    snapshot (details (result o)) = after o ->
    Effect p st o
| Deleted o k index :
    pAction p = doDelete -> pId p = Some k ->
    findIndex k (comments st) = Some index ->
    after o = mkState (removeAt index (comments st)) (nextId st) ->
    persisted o = Some (after o) -> error (details (result o)) = None ->
    snapshot (details (result o)) = after o ->
    Effect p st o
| Cleared o :
    pAction p = doClear ->
    after o = initialState ->
    persisted o = Some (after o) -> error (details (result o)) = None ->
    snapshot (details (result o)) = after o ->
    Effect p st o.

End CommentTool.

(* ================================================================== *)
(** ** The comment arrays as objects: [execute] and [reconstructState] *)

(** [reconstructState] assigns to the variable [comments] the array that a
    session entry holds, without copying it, and [execute] changes the
    array of that variable in place.  To follow what is shared, the arrays
    live in a store and the variables and the entries hold addresses.  The
    session is taken to hand back the objects it was given. *)
Module Session.

Import CommentTool.

Definition Store : Type := list (list AssistedReviewComment).

Definition readArray (s : Store) (a : nat) : list AssistedReviewComment := nth a s [].

Fixpoint writeArray (s : Store) (a : nat) (cs : list AssistedReviewComment) : Store :=
  match s, a with
  | [], _ => []
  | _ :: r, O => cs :: r
  | x :: r, S a' => x :: writeArray r a' cs
  end.

(** A new array, with its address. *)
Definition newArray (s : Store) (cs : list AssistedReviewComment) : Store * nat :=
  ((s ++ [cs])%list, List.length s).

(** The [details] of a result, and the object that [persistCommentsState]
    appends: each names its array of comments. *)
Record DetailsObject : Type := mkDetailsObject {
  dAction : Action;
  dComments : nat;
  dNextId : Z;
  dError : option string
}.

Record StateObject : Type := mkStateObject {
  sComments : nat;
  sNextId : Z
}.

(** The entries of a session branch, as [reconstructState] reads them: the
    result of a tool call with its tool name and [details], the two kinds
    of custom entries of this extension with their [data], and any other
    entry. *)
Inductive SessionEntry : Type :=
| ToolResultEntry (toolName : string) (details : option DetailsObject)
| ModeEntry (data : option ReviewModeState)
| CommentsEntry (data : option StateObject)
| OtherEntry.

(** The store with the module variables: [comments], [nextCommentId] and
    the review-mode variables. *)
Record Machine : Type := mkMachine {
  store : Store;
  commentsVar : nat;
  nextCommentId : Z;
  reviewMode : ReviewModeState
}.

(** The comments and the next id as [execute] reads them. *)
Definition contents (m : Machine) : CommentsState :=
  mkState (readArray (store m) (commentsVar m)) (nextCommentId m).

(** What a call does to the array that the variable [comments] names:
    [add] pushes onto it, [update] assigns one of its elements and [delete]
    splices it, all three in place; [clear] makes the variable name a new,
    empty array; [list] and every call that reports an error leave it
    alone. *)
Inductive ArrayEffect : Type := InPlace | Fresh | Untouched.

Definition arrayEffect (p : Params) (o : Outcome) : ArrayEffect :=
  match error (details (result o)) with
  | Some _ => Untouched
  | None =>
      match pAction p with
      | doList => Untouched
      | doClear => Fresh
      | doAdd | doUpdate | doDelete => InPlace
      end
  end.

Record Call : Type := mkCall {
  machine : Machine;
  returned : DetailsObject;
  appendedEntry : option StateObject
}.

(** [execute] on the store: the values are those of [CommentTool.execute];
    [persistCommentsState] and the [details] each get a copy
    ([[...comments]]) of the array of comments. *)
Definition executeStored (p : Params) (m : Machine) : Call :=
  let o := execute p (contents m) in
  let m1 :=
    match arrayEffect p o with
    | InPlace =>
        mkMachine (writeArray (store m) (commentsVar m) (comments (after o)))
                  (commentsVar m) (nextId (after o)) (reviewMode m)
    | Fresh =>
        let (s, a) := newArray (store m) [] in mkMachine s a 1 (reviewMode m)
    | Untouched => m
    end in
  let '(s2, appended) :=
    match persisted o with
    | Some st =>
        let (s, a) := newArray (store m1) (comments st) in
        (s, Some (mkStateObject a (nextId st)))
    | None => (store m1, None)
    end in
  let (s3, a) := newArray s2 (comments (snapshot (details (result o)))) in
  mkCall (mkMachine s3 (commentsVar m1) (nextCommentId m1) (reviewMode m1))
         (mkDetailsObject (action (details (result o))) a
                          (nextId (snapshot (details (result o))))
                          (error (details (result o))))
         appended.

(** One turn of the loop of [reconstructState]: the variable [comments]
    gets the array of the entry itself. *)
Definition restoreEntry (m : Machine) (entry : SessionEntry) : Machine :=
  match entry with
  | ToolResultEntry toolName (Some d) =>
      if String.eqb toolName "assisted_review_comment"
      then mkMachine (store m) (dComments d) (dNextId d) (reviewMode m)
      else m
  | ModeEntry (Some data) => mkMachine (store m) (commentsVar m) (nextCommentId m) data
  | CommentsEntry (Some data) =>
      mkMachine (store m) (sComments data) (sNextId data) (reviewMode m)
  | _ => m
  end.

(** The assignments of [reconstructState]; the widget and the tool list it
    sets afterwards are not part of this state. *)
Definition reconstructState (branch : list SessionEntry) (m : Machine) : Machine :=
  let (s, a) := newArray (store m) [] in
  fold_left restoreEntry branch (mkMachine s a 1 (mkMode false None None None)).

(** [let comments = []; let nextCommentId = 1;] *)
Definition initialMachine : Machine :=
  mkMachine [[]] 0 1 (mkMode false None None None).

(** The variable [comments] names an array of the store. *)
Definition wellFormed (m : Machine) : Prop :=
  (commentsVar m < List.length (store m))%nat.

(** Entries that [reconstructState] does not read the comment state from. *)
Definition noCommentState (entry : SessionEntry) : bool :=
  match entry with
  | ToolResultEntry toolName (Some _) => negb (String.eqb toolName "assisted_review_comment")
  | CommentsEntry (Some _) => false
  | _ => true
  end.

End Session.

(* ================================================================== *)
(** ** The hint shown for a review target *)

Module ReviewTarget.

Inductive AssistedReviewTarget : Type :=
| uncommitted
| baseBranch (branch : string)
| commit (sha : string) (title : option string)
| pr (ref : string)
| custom (instructions : string).

(** [s.slice(0, n)] for a natural [n] *)
Definition sliceHead (n : nat) (s : string) : string := substring 0 n s.

Definition getUserFacingHint (target : AssistedReviewTarget) : string :=
  match target with
  | uncommitted => "current changes"
  | baseBranch branch => "changes against '" ++ branch ++ "'"
  | commit sha title =>
      let shortSha := sliceHead 7 sha in
      match title with
      | Some (String c t) => "commit " ++ shortSha ++ ": " ++ String c t
      | _ => "commit " ++ shortSha
      end
  | pr ref => "PR " ++ ref
  | custom instructions =>
      if (40 <? String.length instructions)%nat
      then sliceHead 37 instructions ++ "..."
      else instructions
  end.

End ReviewTarget.

(* ================================================================== *)
(** ** Colouring the rendered diff: [parsePrettyDiffLine], [renderPrettyDiff] *)

Record PrettyDiffLine : Type := mkPrettyDiffLine {
  prefix : string;
  lineNum : string;
  content : string
}.

(** The class [[+-\s]]: a plus, a minus or a white-space character. *)
Definition isPrefixChar (c : ascii) : bool :=
  Ascii.eqb c "+" || Ascii.eqb c "-" || isWhiteSpace c.

(** [s] without its last character. *)
Fixpoint dropLast (s : string) : string :=
  match s with
  | EmptyString => EmptyString
  | String c EmptyString => EmptyString
  | String c s' => String c (dropLast s')
  end.

(** The match that is left when the white-space and digit runs of the
    second group cannot keep all they took: the white-space run gives back
    its last character to the [\s] that follows and the digit run takes
    nothing; the last group then needs the rest of the line to be free of
    line terminators.  Giving back more only makes that rest longer. *)
Definition prettyBacktrack (c0 : ascii) (w rest : string) : option PrettyDiffLine :=
  match w with
  | EmptyString => None
  | String _ _ =>
      if noLineTerminator rest
      then Some (mkPrettyDiffLine (String c0 EmptyString) (dropLast w) rest)
      else None
  end.

(** [line.match(re)] and its three captures, for the expression [re] made
    of: start of input; group 1, one character of the class [[+-\s]];
    group 2, any white space then any digits, both greedy; one white-space
    character; group 3, any characters but line terminators; end of input.
    The greedy runs first take all they can; the match succeeds there when
    digits were taken and a white-space character that is followed by no
    line terminator comes next.  With fewer digits the next character is a
    digit, which [\s] refuses, so the only other match is the one of
    [prettyBacktrack]. *)
Definition parsePrettyDiffLine (l : string) : option PrettyDiffLine :=
  match l with
  | EmptyString => None
  | String c0 s =>
      if isPrefixChar c0 then
        let (w, s1) := spanWhiteSpace s in
        let (d, s2) := spanDigits s1 in
        match d, s2 with
        | String _ _, String c rest =>
            if isWhiteSpace c && noLineTerminator rest
            then Some (mkPrettyDiffLine (String c0 EmptyString) (w ++ d) rest)
            else prettyBacktrack c0 w s1
        | _, _ => prettyBacktrack c0 w s1
        end
      else None
  end.

(** The callback of [lines.map] in [renderPrettyDiff]; [fg] is [theme.fg]. *)
Definition renderPrettyLine (fg : string -> string -> string) (l : string) : string :=
  match parsePrettyDiffLine l with
  | None => fg "toolDiffContext" l
  | Some parsed =>
      if String.eqb (prefix parsed) "+"
      then fg "toolDiffAdded" ("+" ++ lineNum parsed ++ " " ++ content parsed)
      else if String.eqb (prefix parsed) "-"
      then fg "toolDiffRemoved" ("-" ++ lineNum parsed ++ " " ++ content parsed)
      else fg "toolDiffContext" (" " ++ lineNum parsed ++ " " ++ content parsed)
  end.

Definition renderPrettyDiff (t : string) (fg : string -> string -> string) : string :=
  join NL (map (renderPrettyLine fg) (splitLines t)).


(* ================================================================== *)
(** ** The [assisted_review_diff] tool, once the diff text is at hand *)

Module DiffTool.

(** [filtered.reduce((acc, file) => acc + file.hunks.length, 0)] *)
Definition countHunks (fs : list DiffFile) : Z :=
  fold_left (fun acc file => acc + Z.of_nat (List.length (hunks file))) fs 0.

Record Params : Type := mkParams {
  paths : option (list string);
  grep : option string;
  grepContext : option Z;
  lineRange : option string;
  context : option Z
}.

(** The [details] of a result; [request], the parameters themselves, is
    left out. *)
Record Details : Type := mkDetails {
  files : Z;
  hunks : Z;
  shownFiles : Z;
  shownHunks : Z;
  shownLines : Z;
  truncated : bool;
  suggestedRanges : JsObject (list string);
  maxLines : Z;
  maxHunks : Z;
  diffText : string
}.

Record ToolResult : Type := mkResult {
  text : string;
  details : option Details
}.

(** [params.lineRange?.match(...)] and the range built from the match. *)
Definition lineRangeOf (params : Params) : option LineRange :=
  match lineRange params with
  | Some s => parseLineRange s
  | None => None
  end.

(** [params.grep ? params.grepContext ?? 3 : params.grepContext] *)
Definition grepContextOf (params : Params) : option Z :=
  match grep params with
  | Some (String _ _) =>
      match grepContext params with
      | Some n => Some n
      | None => Some 3
      end
  | _ => grepContext params
  end.

Definition filterOptionsOf (params : Params) : FilterOptions :=
  mkFilterOptions (paths params) (grep params) (grepContextOf params) (lineRangeOf params).

(** [params.context && params.context > 0 ? Math.max(50, params.context * 20) : 150] *)
Definition maxLinesOf (params : Params) : Z :=
  match context params with
  | Some c => if 0 <? c then Z.max 50 (c * 20) else 150
  | None => 150
  end.

(** What [execute] does after the [switch] has produced [diffText] and,
    for a pull request, [prUrl]. *)
Definition renderTool (newRegExp : RegExpConstructor) (diffAnchor : string -> string)
           (diffText : string) (prUrl : option string) (params : Params)
  : Result ToolResult :=
  if String.eqb (trim diffText) EmptyString
  then Ok (mkResult "No diff output" None)
  else
    let files := parseUnifiedDiff diffText in
    bindResult (filterDiffFiles newRegExp files (filterOptionsOf params))
      (fun filtered =>
         let '(mkOutput renderedText renderedDiff (mkInfo nFiles nHunks nLines cut ranges)) :=
           formatDiffOutput diffAnchor filtered
                            (mkRenderOptions prUrl (maxLinesOf params) 8) in
         Ok (mkResult renderedText
               (Some (mkDetails
                        (Z.of_nat (List.length filtered))
                        (countHunks filtered)
                        nFiles nHunks nLines cut ranges
                        (maxLinesOf params) 8
                        renderedDiff)))).

(** [execute] for [source: "diff"], where the text is the parameter [diff]
    and there is no pull request. *)
Definition executeOnDiff (newRegExp : RegExpConstructor) (diffAnchor : string -> string)
           (diff : option string) (params : Params) : Result ToolResult :=
  match diff with
  | Some (String c d) => renderTool newRegExp diffAnchor (String c d) None params
  | _ => Ok (mkResult "Error: diff is required when source=diff" None)
  end.

(** Parameters that filter nothing. *)
Definition unfiltered (params : Params) : Prop :=
  (paths params = None \/ paths params = Some []) /\
  (grep params = None \/ grep params = Some EmptyString) /\
  lineRangeOf params = None.

End DiffTool.

(* ================================================================== *)
(** ** Sharing the comments on a pull request: [postGithubComments] *)

Module Share.

Import CommentTool.

Record PrInfo : Type := mkPrInfo {
  owner : string;
  repo : string;
  number : Z;
  headSha : string;
  url : string
}.

(** [comment.side ?? "RIGHT"] *)
Definition sideText (s : option CommentSide) : string :=
  match s with
  | Some LEFT => "LEFT"
  | Some RIGHT => "RIGHT"
  | None => "RIGHT"
  end.

(** The arguments of the [gh] call for a comment with path [p] and line [n]. *)
Definition postArgs (prInfo : PrInfo) (p : string) (n : Z) (c : AssistedReviewComment)
  : list string :=
  ["api"; "-X"; "POST";
   "repos/" ++ owner prInfo ++ "/" ++ repo prInfo ++ "/pulls/" ++
     numberToString (number prInfo) ++ "/comments";
   "-f"; "body=" ++ "**[" ++ priorityText (priority c) ++ "] " ++ title c ++ "**" ++
         NL ++ NL ++ body c;
   "-f"; "commit_id=" ++ headSha prInfo;
   "-f"; "path=" ++ p;
   "-f"; "line=" ++ numberToString n;
   "-f"; "side=" ++ sideText (side c)].

(** The variables of the loop, with the calls made so far. *)
Record PostState : Type := mkPost {
  posted : Z;
  failed : list AssistedReviewComment;
  calls : list (list string)
}.

(** One turn of [for (const comment of commentsToPost)].  [exec k args] is
    the exit code of the call number [k] of this run, made with [args]. *)
Definition postComment (exec : nat -> list string -> Z) (prInfo : PrInfo)
           (st : PostState) (c : AssistedReviewComment) : PostState :=
  match path c, line c with
  | Some (String a p), Some n =>
      let args := postArgs prInfo (String a p) n c in
      if exec (List.length (calls st)) args =? 0
      then mkPost (posted st + 1) (failed st) (calls st ++ [args])
      else mkPost (posted st) (failed st ++ [c]) (calls st ++ [args])
  | _, _ => mkPost (posted st) (failed st ++ [c]) (calls st)
  end.

Definition postGithubComments (exec : nat -> list string -> Z) (prInfo : PrInfo)
           (commentsToPost : list AssistedReviewComment) : PostState :=
  fold_left (postComment exec prInfo) commentsToPost (mkPost 0 [] []).

(** [comment.path && comment.line !== undefined] *)
Definition anchored (c : AssistedReviewComment) : bool :=
  given (path c) && match line c with Some _ => true | None => false end.

(** The two filters of the share command. *)
Definition inlineComments (cs : list AssistedReviewComment) : list AssistedReviewComment :=
  filter anchored cs.

Definition summaryComments (cs : list AssistedReviewComment) : list AssistedReviewComment :=
  filter (fun c => negb (given (path c)) ||
                   match line c with Some _ => false | None => true end) cs.

End Share.
(* ================================================================== *)
(** ** Facts about the string primitives *)

Lemma startsWith_append (p s : string) : startsWith (p ++ s) p = true.
Proof.
  induction p as [|a p IH]; simpl; [reflexivity|].
  now rewrite Ascii.eqb_refl, IH.
Qed.

Lemma sliceFrom_append (p s : string) : sliceFrom (String.length p) (p ++ s) = s.
Proof. induction p as [|a p IH]; simpl; auto. Qed.

Lemma startsWith_split (s p : string) :
  startsWith s p = true -> s = p ++ sliceFrom (String.length p) s.
Proof.
  revert s; induction p as [|a p IH]; intros s H; simpl in *; [reflexivity|].
  destruct s as [|b s]; [discriminate|].
  apply andb_true_iff in H as [Hab Hs].
  apply Ascii.eqb_eq in Hab; subst b.
  now rewrite <- (IH s Hs).
Qed.

Lemma startsWith_shorter (s p q : string) :
  startsWith s (p ++ q) = true -> startsWith s p = true.
Proof.
  revert s; induction p as [|a p IH]; intros s H; simpl in *; [reflexivity|].
  destruct s as [|b s]; [discriminate|].
  apply andb_true_iff in H as [Hab Hs].
  rewrite Hab; simpl; eauto.
Qed.

Lemma replaceFirst_prefix (s pat rep : string) :
  startsWith s pat = true ->
  replaceFirst s pat rep = rep ++ sliceFrom (String.length pat) s.
Proof. intros H; destruct s; simpl; rewrite H; reflexivity. Qed.

(* ================================================================== *)
(** ** DiffParser *)

Section ParserFacts.



Lemma entryCount_pushCurrent st :
  List.length (files (pushCurrent st)) = entryCount st.
Proof.
  unfold pushCurrent, entryCount; simpl.
  destruct (currentFile st); [rewrite length_app; simpl; lia | lia].
Qed.

Lemma entryCount_parseLine st l :
  entryCount (parseLine st l) =
  (entryCount st + if startsWith l "diff --git " then 1 else 0)%nat.
Proof.
  unfold parseLine.
  destruct (startsWith l "diff --git ") eqn:Hm.
  - unfold entryCount at 1; cbn [files currentFile].
    rewrite entryCount_pushCurrent; lia.
  - destruct (currentFile st) as [cf|] eqn:Hcf; [|lia].
    destruct (startsWith l "@@ "); [|destruct (currentHunk st)];
      unfold entryCount; cbn [files currentFile]; rewrite Hcf; lia.
Qed.

Lemma entryCount_fold ls st :
  entryCount (fold_left parseLine ls st) = (entryCount st + fileMarkers ls)%nat.
Proof.
  revert st; induction ls as [|l ls IH]; intros st; cbn [fold_left].
  - unfold fileMarkers; cbn [filter List.length]; lia.
  - rewrite IH, entryCount_parseLine. unfold fileMarkers; cbn [filter].
    destruct (startsWith l "diff --git "); cbn [List.length]; lia.
Qed.

Lemma entryAt_parseLine k p first st l :
  entryAt k p first st -> entryAt k p first (parseLine st l).
Proof.
  intros [(f & Hn & Hp & Hh) | (Hlen & f & Hc & Hp & Hh)].
  - left. exists f. repeat split; auto.
    unfold parseLine.
    destruct (startsWith l "diff --git ").
    + cbn [files]. unfold pushCurrent; cbn [files].
      destruct (currentFile st); auto.
      rewrite nth_error_app1; auto. apply nth_error_Some; congruence.
    + destruct (currentFile st); auto.
      destruct (startsWith l "@@ "); [|destruct (currentHunk st)]; auto.
  - unfold parseLine.
    destruct (startsWith l "diff --git ").
    + left. exists f. repeat split; auto.
      cbn [files]. unfold pushCurrent; cbn [files]. rewrite Hc.
      rewrite nth_error_app2 by lia. subst k.
      now rewrite Nat.sub_diag.
    + right. rewrite Hc.
      destruct (startsWith l "@@ "); [|destruct (currentHunk st)];
        cbn [files currentFile]; (split; [assumption|]);
        eexists; (split; [reflexivity|]); cbn [path headerLines withHunks];
        (split; [assumption|]); auto.
      destruct (headerLines f); [discriminate | exact Hh].
Qed.

Lemma entryAt_fold k p first ls st :
  entryAt k p first st -> entryAt k p first (fold_left parseLine ls st).
Proof.
  revert st; induction ls as [|l ls IH]; intros st H; simpl; auto.
  apply IH, entryAt_parseLine, H.
Qed.

Lemma entryAt_pushCurrent k p first st :
  entryAt k p first st ->
  exists f, nth_error (files (pushCurrent st)) k = Some f /\ path f = p /\
            nth_error (headerLines f) 0 = Some first.
Proof.
  intros [(f & Hn & Hp & Hh) | (Hlen & f & Hc & Hp & Hh)]; exists f;
    repeat split; auto; unfold pushCurrent; cbn [files].
  - destruct (currentFile st); auto.
    rewrite nth_error_app1; auto. apply nth_error_Some; congruence.
  - rewrite Hc, nth_error_app2 by lia. subst k. now rewrite Nat.sub_diag.
Qed.

(** What the parser does with a marker line, wherever it stands. *)
Lemma parseLines_marker pre l post :
  startsWith l "diff --git " = true ->
  exists f, nth_error (parseLines (pre ++ l :: post)) (fileMarkers pre) = Some f /\
            path f = match diffGitExec l with
                     | Some m2 => m2
                     | None => replaceFirst l "diff --git " ""
                     end /\
            nth_error (headerLines f) 0 = Some l.
Proof.
  intros Hm. unfold parseLines.
  rewrite fold_left_app; simpl.
  apply entryAt_pushCurrent, entryAt_fold.
  right. set (st := fold_left parseLine pre _).
  unfold parseLine; rewrite Hm; cbn [files currentFile].
  split.
  - rewrite entryCount_pushCurrent. unfold st.
    rewrite entryCount_fold. reflexivity.
  - eexists; split; [reflexivity|]. cbn [path headerLines]. auto.
Qed.

End ParserFacts.

(** C4, as amended.  A line that begins with the file marker but does not
    have the shape [diff --git a/<old> b/<new>] still opens a file entry, at
    the position of that marker among the markers of the input; the entry
    keeps the raw line as its first header line, and its path is the line
    without the leading marker text (not the whole line). *)
Theorem C4_unparsable_marker_path :
  forall (diff : string) (pre : list string) (l : string) (post : list string),
    splitLines diff = (pre ++ l :: post)%list ->
    startsWith l "diff --git " = true ->
    diffGitExec l = None ->
    exists f,
      nth_error (parseUnifiedDiff diff) (fileMarkers pre) = Some f /\
      path f = sliceFrom 11 l /\
      "diff --git " ++ path f = l /\
      nth_error (headerLines f) 0 = Some l.
Proof.
  intros diff pre l post Hsplit Hm Hno.
  destruct (parseLines_marker pre l post Hm) as (f & Hn & Hp & Hh).
  rewrite Hno in Hp.
  rewrite replaceFirst_prefix in Hp by assumption. simpl in Hp.
  exists f. unfold parseUnifiedDiff. rewrite Hsplit.
  repeat split; auto.
  rewrite Hp. symmetry. apply (startsWith_split l "diff --git " Hm).
Qed.

Lemma C4_unparsable_marker_path_witness :
  exists f,
    nth_error (parseUnifiedDiff ("diff --git a/x b/y" ++ NL ++ "diff --git foo" ++ NL ++ "index 1"))
              1 = Some f /\
    path f = "foo" /\
    "diff --git " ++ path f = "diff --git foo" /\
    nth_error (headerLines f) 0 = Some "diff --git foo".
Proof.
  exact (C4_unparsable_marker_path
           ("diff --git a/x b/y" ++ NL ++ "diff --git foo" ++ NL ++ "index 1")
           ["diff --git a/x b/y"] "diff --git foo" ["index 1"]
           eq_refl eq_refl eq_refl).
Defined.

(** The claim of C4 as it was worded fails: the path of the entry is not the
    raw line. *)
Lemma C4_counterexample :
  startsWith "diff --git foo" "diff --git " = true /\
  diffGitExec "diff --git foo" = None /\
  parseUnifiedDiff "diff --git foo" = [mkFile "foo" ["diff --git foo"] []] /\
  ~ (exists f, In f (parseUnifiedDiff "diff --git foo") /\ path f = "diff --git foo").
Proof.
  repeat split; try reflexivity.
  intros (f & Hin & Hp). cbv in Hin. destruct Hin as [<- | []]. discriminate Hp.
Qed.

(* ================================================================== *)
(** ** Counting lines *)


Lemma splitLines_nonempty (s : string) : splitLines s <> [].
Proof.
  induction s as [|c s IH]; simpl; [discriminate|].
  destruct (Ascii.eqb c LF); [discriminate|].
  destruct (splitLines s); [contradiction | discriminate].
Qed.

Lemma splitLines_length (s : string) : List.length (splitLines s) = S (newlines s).
Proof.
  induction s as [|c s IH]; simpl; [reflexivity|].
  destruct (Ascii.eqb c LF); simpl; [now rewrite IH|].
  destruct (splitLines s) eqn:E; simpl in *; [discriminate | assumption].
Qed.

Lemma lineCount_newlines (s : string) : lineCount s = Z.of_nat (newlines s) + 1.
Proof. unfold lineCount. rewrite splitLines_length. lia. Qed.

Lemma splitLines_noLF (s : string) : Forall (fun l => newlines l = O) (splitLines s).
Proof.
  induction s as [|c s IH]; simpl; [repeat constructor|].
  destruct (Ascii.eqb c LF) eqn:E; [constructor; auto|].
  destruct (splitLines s) as [|l ls]; [repeat constructor; simpl; now rewrite E|].
  inversion IH; subst. constructor; auto. simpl. now rewrite E.
Qed.

Lemma newlines_append (a b : string) : newlines (a ++ b) = (newlines a + newlines b)%nat.
Proof.
  induction a as [|c a IH]; simpl; [reflexivity|].
  destruct (Ascii.eqb c LF); simpl; now rewrite IH.
Qed.

Lemma newlines_sliceFrom (n : nat) (s : string) :
  newlines s = O -> newlines (sliceFrom n s) = O.
Proof.
  revert s; induction n as [|n IH]; intros s H; simpl; auto.
  destruct s as [|c s]; auto. simpl in H.
  destruct (Ascii.eqb c LF); [discriminate | auto].
Qed.

Lemma newlines_join (ls : list string) :
  Forall (fun l => newlines l = O) ls ->
  newlines (join NL ls) = Nat.pred (List.length ls).
Proof.
  unfold join. induction 1 as [|l ls Hl Hls IH]; [reflexivity|].
  destruct ls as [|l' ls']; [exact Hl|].
  change (concat NL (l :: l' :: ls')) with (l ++ NL ++ concat NL (l' :: ls')).
  rewrite !newlines_append, Hl, IH. reflexivity.
Qed.

Lemma diffGitNewPath_noLF (s m : string) :
  newlines s = O -> diffGitNewPath s = Some m -> newlines m = O.
Proof.
  revert m; induction s as [|c s IH]; intros m Hs Hm.
  - simpl in Hm. discriminate.
  - cbn [diffGitNewPath] in Hm.
    destruct (startsWith (String c s) " b/" &&
              negb (String.eqb (sliceFrom 3 (String c s)) EmptyString)).
    + assert (E : m = sliceFrom 3 (String c s)) by congruence.
      rewrite E. now apply newlines_sliceFrom.
    + apply IH; auto. simpl in Hs. destruct (Ascii.eqb c LF); [discriminate | auto].
Qed.

Lemma diffGitExec_noLF (l m : string) :
  newlines l = O -> diffGitExec l = Some m -> newlines m = O.
Proof.
  unfold diffGitExec. intros Hl Hm.
  destruct (startsWith l "diff --git a/"); [|discriminate].
  destruct (noLineTerminator (sliceFrom 13 l)); [|discriminate].
  pose proof (newlines_sliceFrom 13 l Hl) as Hr.
  destruct (sliceFrom 13 l) as [|c r] eqn:E; [discriminate|].
  apply (diffGitNewPath_noLF r); auto.
  simpl in Hr. destruct (Ascii.eqb c LF); [discriminate | auto].
Qed.

(* ================================================================== *)
(** ** Shape of everything the parser produces *)


Section ParserShape.

Lemma pushToLastHunk_headerFirst l hs :
  Forall headerFirst hs -> Forall headerFirst (pushToLastHunk l hs).
Proof.
  induction 1 as [|h hs Hh Hhs IH]; [constructor|].
  cbn [pushToLastHunk]. destruct hs as [|h' hs'].
  - constructor; [|constructor]. destruct Hh as [H1 H2]. split; cbn; auto.
    destruct (lines h); [discriminate | exact H2].
  - constructor; auto.
Qed.

Lemma pushToLastHunk_noLF l hs :
  noLF l ->
  Forall (fun h => Forall noLF (lines h)) hs ->
  Forall (fun h => Forall noLF (lines h)) (pushToLastHunk l hs).
Proof.
  intros Hl. induction 1 as [|h hs Hh Hhs IH]; [constructor|].
  cbn [pushToLastHunk]. destruct hs as [|h' hs'].
  - constructor; [|constructor]. cbn. apply Forall_app; split; auto.
  - constructor; auto.
Qed.


Lemma parsedState_pushCurrent st : parsedState st -> parsedState (pushCurrent st).
Proof.
  intros [Hf Hc]. split; cbn; auto.
  destruct (currentFile st); auto. apply Forall_app; split; auto.
Qed.

Lemma parsedState_parseLine st l :
  noLF l -> parsedState st -> parsedState (parseLine st l).
Proof.
  intros Hl Hst. unfold parseLine.
  destruct (startsWith l "diff --git ") eqn:Hm.
  - split; cbn [files currentFile]; [apply (parsedState_pushCurrent st Hst)|].
    constructor; cbn; try (repeat constructor; auto; discriminate).
    destruct (diffGitExec l) as [m|] eqn:E.
    + apply (diffGitExec_noLF l m Hl E).
    + rewrite replaceFirst_prefix by assumption. cbn [append].
      now apply newlines_sliceFrom.
  - destruct Hst as [Hf Hc].
    destruct (currentFile st) as [cf|] eqn:Hcf;
      [|split; [assumption | now rewrite Hcf]].
    destruct Hc as [H1 H2 H3 H4 H5].
    destruct (startsWith l "@@ ") eqn:Hh; [|destruct (currentHunk st)];
      split; cbn [files currentFile]; auto; constructor; cbn; auto.
    + apply Forall_app; split; auto. repeat constructor; cbn.
      apply (startsWith_shorter l "@@" " " Hh).
    + apply Forall_app; split; auto. repeat constructor; auto.
    + now apply pushToLastHunk_headerFirst.
    + now apply pushToLastHunk_noLF.
    + destruct (headerLines cf); discriminate.
    + apply Forall_app; split; auto.
Qed.

Lemma parsedState_fold ls st :
  Forall noLF ls -> parsedState st -> parsedState (fold_left parseLine ls st).
Proof.
  intros Hls; revert st; induction Hls as [|l ls Hl Hls IH]; intros st Hst; cbn; auto.
  apply IH, parsedState_parseLine; auto.
Qed.

Lemma parseUnifiedDiff_parsed (diff : string) :
  Forall parsedFile (parseUnifiedDiff diff).
Proof.
  unfold parseUnifiedDiff, parseLines.
  apply parsedState_pushCurrent, parsedState_fold.
  - apply splitLines_noLF.
  - split; cbn; auto.
Qed.

End ParserShape.

(* ================================================================== *)
(** ** DiffFilter: structure of the result *)

Section FilterFacts.

Variable newRegExp : RegExpConstructor.

Lemma withHunks_same f : withHunks f (hunks f) = f.
Proof. now destruct f. Qed.

Lemma withLines_same h : withLines h (lines h) = h.
Proof. now destruct h. Qed.

Lemma filterMap_Some {A : Type} (l : list A) : filterMap (fun x => Some x) l = l.
Proof. induction l; simpl; congruence. Qed.

Lemma filterMap_ext {A B : Type} (f g : A -> option B) (l : list A) :
  (forall x, In x l -> f x = g x) -> filterMap f l = filterMap g l.
Proof.
  induction l as [|x l IH]; intros H; simpl; [reflexivity|].
  rewrite (H x (or_introl eq_refl)), IH; auto.
  intros y Hy. apply H. now right.
Qed.

Lemma In_filterMap {A B : Type} (f : A -> option B) (l : list A) (y : B) :
  In y (filterMap f l) <-> exists x, In x l /\ f x = Some y.
Proof.
  induction l as [|x l IH]; simpl.
  - split; [contradiction | intros (x & [] & _)].
  - destruct (f x) as [z|] eqn:E; simpl; rewrite IH; split.
    + intros [<- | (x' & Hin & Hx')]; eauto.
    + intros (x' & [<- | Hin] & Hx'); [left; congruence | eauto].
    + intros (x' & Hin & Hx'); eauto.
    + intros (x' & [<- | Hin] & Hx'); [congruence | eauto].
Qed.

Lemma filter_all {A : Type} (p : A -> bool) (l : list A) :
  Forall (fun x => p x = true) l -> filter p l = l.
Proof. induction 1 as [|x l Hx Hl IH]; simpl; [|rewrite Hx, IH]; reflexivity. Qed.

Lemma map_all {A : Type} (f : A -> A) (l : list A) :
  Forall (fun x => f x = x) l -> map f l = l.
Proof. induction 1 as [|x l Hx Hl IH]; simpl; [|rewrite Hx, IH]; reflexivity. Qed.

Lemma filterHunk_plain c h : filterHunk None c None h = Some h.
Proof. reflexivity. Qed.

Lemma filterFile_plain c f : filterFile None c None f = f.
Proof.
  unfold filterFile.
  rewrite (filterMap_ext _ (fun x => Some x)) by (intros; apply filterHunk_plain).
  now rewrite filterMap_Some, withHunks_same.
Qed.

(** Without a pattern the compiler returns [null] and cannot raise. *)
Lemma filterDiffFiles_no_grep fs o :
  grep o = None ->
  filterDiffFiles newRegExp fs o = Ok (filterCompiled None o fs).
Proof. intros H. unfold filterDiffFiles, compileGrep. now rewrite H. Qed.

(** Whatever the engine answers, a result is the compiled filter run with
    some pattern, and that pattern is present exactly when the option is a
    non-empty string. *)
Lemma filterDiffFiles_Ok fs o out :
  filterDiffFiles newRegExp fs o = Ok out ->
  exists g, out = filterCompiled g o fs /\
            (g = None <-> ~ grepGiven o).
Proof.
  unfold filterDiffFiles, compileGrep, grepGiven.
  destruct (grep o) as [[|c p]|] eqn:E; cbn [bindResult].
  - intros [= <-]. exists None. split; auto. split; auto.
    intros _ (p & Hp & Hne). congruence.
  - destruct (newRegExp (String c p)) as [r|].
    + intros [= <-]. exists (Some r). split; auto. split; [discriminate|].
      intros H. exfalso. apply H. exists (String c p). split; auto. discriminate.
    + destruct (newRegExp (escapeRegExp (String c p))) as [r|]; [|discriminate].
      intros [= <-]. exists (Some r). split; auto. split; [discriminate|].
      intros H. exfalso. apply H. exists (String c p). split; auto. discriminate.
  - intros [= <-]. exists None. split; auto. split; auto.
    intros _ (p & Hp & Hne). congruence.
Qed.

Lemma In_filterPaths ps fs f : In f (filterPaths ps fs) -> In f fs.
Proof.
  unfold filterPaths. destruct ps as [[|p ps]|]; auto.
  intros H. now apply filter_In in H.
Qed.

(** Every file of the result is the image of an input file. *)
Lemma In_filterCompiled g o fs f' :
  In f' (filterCompiled g o fs) ->
  exists f, In f fs /\
            f' = filterFile g (match grepContext o with Some c => c | None => 0 end)
                            (lineRange o) f /\
            (g <> None -> hunks f' <> []).
Proof.
  unfold filterCompiled. intros H.
  assert (H' : In f' (filter (fun file => negb (isEmpty (hunks file)) ||
                                          negb (isEmpty (headerLines file)))
                 (map (filterFile g (match grepContext o with Some c => c | None => 0 end)
                                  (lineRange o))
                      (filterPaths (paths o) fs))) /\
               (g <> None -> hunks f' <> [])).
  { destruct g as [r|].
    - apply filter_In in H as [H Hne]. split; auto.
      intros _ E. rewrite E in Hne. discriminate.
    - split; [assumption | congruence]. }
  destruct H' as [H1 H2].
  apply filter_In in H1 as [H1 _]. apply in_map_iff in H1 as (f & <- & Hf).
  exists f. split; [eapply In_filterPaths; eauto | auto].
Qed.

End FilterFacts.

(** C6.  With [paths = ["src/a"]] and nothing else, the filter keeps of a
    parsed diff exactly the files whose path is [src/a] or begins with
    [src/a/], each unchanged and in order: a file [src/a.ts] is left out, a
    file [src/a/b.ts] is kept. *)
Theorem C6_path_filter_exact :
  forall (newRegExp : RegExpConstructor) (diff : string),
    let parsed := parseUnifiedDiff diff in
    let out := filter (fun f => String.eqb (path f) "src/a" ||
                                startsWith (path f) "src/a/") parsed in
    filterDiffFiles newRegExp parsed (onlyPaths ["src/a"]) = Ok out /\
    (forall f, In f out <->
               In f parsed /\ (path f = "src/a" \/ startsWith (path f) "src/a/" = true)) /\
    (forall f, path f = "src/a.ts" -> ~ In f out) /\
    (forall f, In f parsed -> path f = "src/a/b.ts" -> In f out).
Proof.
  intros newRegExp diff parsed out.
  assert (Hiff : forall f, In f out <->
            In f parsed /\ (path f = "src/a" \/ startsWith (path f) "src/a/" = true)).
  { intros f. unfold out. rewrite filter_In, orb_true_iff, String.eqb_eq. tauto. }
  split; [|split; [exact Hiff | split]].
  - rewrite filterDiffFiles_no_grep by reflexivity. f_equal.
    unfold filterCompiled, onlyPaths; cbn [paths grep grepContext lineRange filterPaths].
    rewrite map_all by (apply Forall_forall; intros; apply filterFile_plain).
    rewrite filter_all.
    + unfold out. apply filter_ext. intros f. unfold pathMatches.
      cbn [existsb]. now rewrite orb_false_r.
    + apply Forall_forall. intros f Hf. apply filter_In in Hf as [Hf _].
      pose proof (parseUnifiedDiff_parsed diff) as Hp.
      rewrite Forall_forall in Hp. destruct (Hp f Hf) as [Hh _ _ _ _].
      destruct (headerLines f); [contradiction|]. apply orb_true_r.
  - intros f Hp Hin. apply Hiff in Hin as [_ [H | H]]; rewrite Hp in H; discriminate.
  - intros f Hin Hp. apply Hiff. split; auto. right. now rewrite Hp.
Qed.

(** C3, as amended.  When the options carry a grep pattern that is not the
    empty string, or carry no line range, every file of the result that has
    no hunk is a file of the input that had none.  (With a line range and no
    pattern, or the empty pattern, the files whose hunks were all sliced
    away stay in the result, without hunks.) *)
Theorem C3_hunkless_files_were_hunkless :
  forall (newRegExp : RegExpConstructor) (d : list DiffFile) (o : FilterOptions)
         (out : list DiffFile),
    filterDiffFiles newRegExp d o = Ok out ->
    grepGiven o \/ lineRange o = None ->
    forall f', In f' out -> hunks f' = [] ->
               exists f, In f d /\ hunks f = [] /\ f' = f.
Proof.
  intros newRegExp d o out Hout Hopt f' Hin Hnil.
  destruct (filterDiffFiles_Ok newRegExp d o out Hout) as (g & -> & Hg).
  destruct (In_filterCompiled g o d f' Hin) as (f & Hf & Heq & Hne).
  destruct g as [r|].
  - exfalso. apply Hne; [discriminate | assumption].
  - destruct Hopt as [Hgiven | Hrange].
    + exfalso. destruct Hg as [Hg _]. now apply Hg.
    + rewrite Hrange, filterFile_plain in Heq. subst f'. eauto.
Qed.

Lemma C3_hunkless_files_were_hunkless_witness :
  exists f, In f [mkFile "old" ["diff --git a/old b/new"; "rename to new"] []] /\
            hunks f = [] /\
            mkFile "old" ["diff --git a/old b/new"; "rename to new"] [] = f.
Proof.
  exact (C3_hunkless_files_were_hunkless literalRegExp
           [mkFile "old" ["diff --git a/old b/new"; "rename to new"] []]
           (onlyPaths ["old"])
           [mkFile "old" ["diff --git a/old b/new"; "rename to new"] []]
           eq_refl (or_intror eq_refl)
           (mkFile "old" ["diff --git a/old b/new"; "rename to new"] [])
           (or_introl eq_refl) eq_refl).
Defined.

(** The claim of C3 as it was worded fails: a line range away from the only
    hunk of a file leaves that file in the result with no hunk. *)
Lemma C3_counterexample :
  let f := mkFile "a.txt" ["diff --git a/a.txt b/a.txt"]
                  [mkHunk "@@ -1 +1,2 @@" ["@@ -1 +1,2 @@"; " one"; "+two"] 1 1] in
  parseUnifiedDiff ("diff --git a/a.txt b/a.txt" ++ NL ++ "@@ -1 +1,2 @@" ++ NL ++
                    " one" ++ NL ++ "+two") = [f] /\
  filterDiffFiles literalRegExp [f] (onlyRange 100 200) = Ok [withHunks f []] /\
  hunks f <> [].
Proof. repeat split; try reflexivity. discriminate. Qed.

(* ================================================================== *)
(** ** The header line survives both hunk stages *)

Section HeaderKept.

Lemma sliceLine_collected r st l :
  exists more, collected (sliceLine r st l) = (collected st ++ more)%list.
Proof.
  unfold sliceLine.
  destruct (startsWith l "@@"); [exists [l]; reflexivity|].
  destruct (isAdded l);
    [destruct ((rangeStart r <=? sliceNewLine st) && (sliceNewLine st <=? rangeEnd r));
     [exists [l] | exists []]; cbn; now rewrite ?app_nil_r|].
  destruct (isRemoved l); [exists []; cbn; now rewrite app_nil_r|].
  destruct (isContext l); [|exists []; now rewrite app_nil_r].
  destruct ((rangeStart r <=? sliceNewLine st) && (sliceNewLine st <=? rangeEnd r));
    [exists [l] | exists []]; cbn; now rewrite ?app_nil_r.
Qed.

Lemma sliceFold_collected r ls st :
  exists more, collected (fold_left (sliceLine r) ls st) = (collected st ++ more)%list.
Proof.
  revert st; induction ls as [|l ls IH]; intros st; cbn [fold_left].
  - exists []. now rewrite app_nil_r.
  - destruct (IH (sliceLine r st l)) as (m1 & ->).
    destruct (sliceLine_collected r st l) as (m2 & ->).
    exists (m2 ++ m1)%list. now rewrite app_assoc.
Qed.

Lemma sliceByRange_fields lr h h' :
  sliceByRange lr h = Some h' ->
  header h' = header h /\ oldStart h' = oldStart h /\ newStart h' = newStart h.
Proof.
  unfold sliceByRange. destruct lr as [r|]; [|intros [= <-]; auto].
  destruct (hasAny _); [intros [= <-]; auto | discriminate].
Qed.

Lemma sliceByRange_headerFirst lr h h' :
  headerFirst h -> sliceByRange lr h = Some h' -> headerFirst h'.
Proof.
  intros [Hat Hnth]. unfold sliceByRange.
  destruct lr as [r|]; [|intros [= <-]; split; auto].
  destruct (lines h) as [|l0 ls] eqn:El; [discriminate|].
  injection Hnth as ->. cbn [fold_left].
  set (st0 := sliceLine r _ (header h)).
  assert (E0 : collected st0 = [header h])
    by (unfold st0, sliceLine; now rewrite Hat).
  destruct (sliceFold_collected r ls st0) as (more & Hc).
  destruct (hasAny _); [|discriminate].
  intros [= <-]. split; cbn; auto. now rewrite Hc, E0.
Qed.

Lemma filterIndexed_head {A : Type} (p : A -> Z -> bool) i x l :
  p x i = true ->
  nth_error (filterIndexed p i (x :: l)) 0 = Some x.
Proof. intros H. cbn [filterIndexed]. now rewrite H. Qed.

Lemma applyGrep_fields g c h h' :
  applyGrep g c h = Some h' ->
  header h' = header h /\ oldStart h' = oldStart h /\ newStart h' = newStart h.
Proof.
  unfold applyGrep. destruct g as [r|]; [|intros [= <-]; auto].
  destruct (isEmpty _); [discriminate|].
  destruct (c <=? 0); intros [= <-]; auto.
Qed.

Lemma applyGrep_headerFirst g c h h' :
  headerFirst h -> applyGrep g c h = Some h' -> headerFirst h'.
Proof.
  intros [Hat Hnth]. unfold applyGrep.
  destruct g as [r|]; [|intros [= <-]; split; auto].
  destruct (isEmpty _); [discriminate|].
  destruct (c <=? 0); intros [= <-]; split; auto.
  cbn [header lines withLines].
  destruct (lines h) as [|l0 ls] eqn:El; [discriminate|].
  injection Hnth as ->.
  apply filterIndexed_head. apply orb_true_r.
Qed.

Lemma filterHunk_headerFirst g c lr h h' :
  filterHunk g c lr h = Some h' ->
  header h' = header h /\ oldStart h' = oldStart h /\ newStart h' = newStart h /\
  (headerFirst h -> headerFirst h').
Proof.
  unfold filterHunk. destruct (sliceByRange lr h) as [h1|] eqn:E1; [|discriminate].
  intros E2.
  destruct (sliceByRange_fields _ _ _ E1) as (A1 & A2 & A3).
  destruct (applyGrep_fields _ _ _ _ E2) as (B1 & B2 & B3).
  split; [congruence|]. split; [congruence|]. split; [congruence|].
  intros Hfirst.
  eapply applyGrep_headerFirst; [|exact E2].
  eapply sliceByRange_headerFirst; eauto.
Qed.

End HeaderKept.

(** C9.  Every hunk the parser produces has its [@@] header line as
    [lines[0]]; and every hunk of a filter result comes from a hunk of the
    same file of the input, with the same header and start counters, and
    has its header line as [lines[0]] whenever that input hunk had. *)
Theorem C9_header_line_first :
  (forall (diff : string) (f : DiffFile) (h : DiffHunk),
      In f (parseUnifiedDiff diff) -> In h (hunks f) ->
      headerFirst h) /\
  (forall (newRegExp : RegExpConstructor) (d : list DiffFile) (o : FilterOptions)
          (out : list DiffFile) (f' : DiffFile) (h' : DiffHunk),
      filterDiffFiles newRegExp d o = Ok out ->
      In f' out -> In h' (hunks f') ->
      exists f h, In f d /\ In h (hunks f) /\
                  path f' = path f /\ headerLines f' = headerLines f /\
                  header h' = header h /\
                  oldStart h' = oldStart h /\ newStart h' = newStart h /\
                  (headerFirst h -> headerFirst h')).
Proof.
  split.
  - intros diff f h Hf Hh.
    pose proof (parseUnifiedDiff_parsed diff) as Hp. rewrite Forall_forall in Hp.
    destruct (Hp f Hf) as [_ H _ _ _]. rewrite Forall_forall in H. auto.
  - intros newRegExp d o out f' h' Hout Hf' Hh'.
    destruct (filterDiffFiles_Ok newRegExp d o out Hout) as (g & -> & _).
    destruct (In_filterCompiled g o d f' Hf') as (f & Hf & -> & _).
    cbn [filterFile hunks withHunks] in Hh'. unfold filterFile in Hh'. cbn in Hh'.
    apply In_filterMap in Hh' as (h & Hh & E).
    apply filterHunk_headerFirst in E as (E1 & E2 & E3 & E4).
    exists f, h. cbn [path headerLines withHunks]. tauto.
Qed.

Lemma C9_header_line_first_witness :
  let h := mkHunk "@@ -1 +1,2 @@" ["@@ -1 +1,2 @@"; " one"; "+two"] 1 1 in
  let f := mkFile "a.txt" ["diff --git a/a.txt b/a.txt"] [h] in
  let h' := mkHunk "@@ -1 +1,2 @@" ["@@ -1 +1,2 @@"; "+two"] 1 1 in
  headerFirst h /\
  exists f0 h0, In f0 [f] /\ In h0 (hunks f0) /\
                path (withHunks f [h']) = path f0 /\
                headerLines (withHunks f [h']) = headerLines f0 /\
                header h' = header h0 /\
                oldStart h' = oldStart h0 /\ newStart h' = newStart h0 /\
                (headerFirst h0 -> headerFirst h').
Proof.
  intros h f h'. split.
  - exact (proj1 C9_header_line_first
             ("diff --git a/a.txt b/a.txt" ++ NL ++ "@@ -1 +1,2 @@" ++ NL ++
              " one" ++ NL ++ "+two")
             f h (or_introl eq_refl) (or_introl eq_refl)).
  - exact (proj2 C9_header_line_first literalRegExp [f] (onlyRange 2 2)
             [withHunks f [h']] (withHunks f [h']) h'
             eq_refl (or_introl eq_refl) (or_introl eq_refl)).
Defined.

(* ================================================================== *)
(** ** AnchorLinker *)

Section LinkTarget.

Lemma targetLine_kind o n fa fr l :
  targetLine (mkTargetState o n fa fr) l =
  match lineKind l with
  | KAdded => mkTargetState o (n + 1)
                            (match fa with None => Some n | Some x => Some x end) fr
  | KRemoved => mkTargetState (o + 1) n fa
                              (match fr with None => Some o | Some x => Some x end)
  | KContext => mkTargetState (o + 1) (n + 1) fa fr
  | _ => mkTargetState o n fa fr
  end.
Proof.
  unfold targetLine, lineKind.
  destruct (startsWith l "@@"); [reflexivity|].
  destruct (isAdded l); [reflexivity|].
  destruct (isRemoved l); [reflexivity|].
  destruct (isContext l); reflexivity.
Qed.

Lemma isKind_self k o n : isKind k (k, o, n) = true.
Proof. now destruct k. Qed.

Lemma targetFold ls o n fa fr :
  let st := fold_left targetLine ls (mkTargetState o n fa fr) in
  firstAdded st =
    match fa with
    | Some x => Some x
    | None => option_map newNumber (find (isKind KAdded) (replay o n ls))
    end /\
  firstRemoved st =
    match fr with
    | Some x => Some x
    | None => option_map oldNumber (find (isKind KRemoved) (replay o n ls))
    end.
Proof.
  revert o n fa fr; induction ls as [|l ls IH]; intros o n fa fr; cbn [fold_left replay].
  - cbn. destruct fa, fr; auto.
  - rewrite targetLine_kind. cbn [find].
    destruct (lineKind l); cbn [isKind fst];
      match goal with
      | |- context [fold_left targetLine ls (mkTargetState ?a ?b ?c ?d)] =>
          destruct (IH a b c d) as [H1 H2]
      end;
      cbn zeta in H1, H2; rewrite H1, H2; destruct fa, fr; auto.
Qed.

End LinkTarget.

(** The tests of the code read the lines as [bodyKind] does. *)
Lemma lineKind_bodyKind l : lineKind l = bodyKind l.
Proof.
  destruct l as [|c1 l]; [reflexivity|].
  destruct c1 as [[] [] [] [] [] [] [] []]; try reflexivity;
    (destruct l as [|c2 l]; [reflexivity|]);
    destruct c2 as [[] [] [] [] [] [] [] []]; try reflexivity;
    (destruct l as [|c3 l]; [reflexivity|]);
    destruct c3 as [[] [] [] [] [] [] [] []]; reflexivity.
Qed.

Lemma replay_numbered o n ls : replay o n ls = numbered bodyKind o n ls.
Proof.
  revert o n; induction ls as [|l ls IH]; intros o n; cbn [replay numbered];
    [reflexivity|].
  rewrite <- lineKind_bodyKind. destruct (lineKind l); now rewrite IH.
Qed.

Lemma hunkLinkTarget_targetBy h : hunkLinkTarget h = targetBy bodyKind h.
Proof.
  unfold hunkLinkTarget, targetBy. rewrite <- replay_numbered.
  destruct (targetFold (lines h) (oldStart h) (newStart h) None None) as [H1 H2].
  cbn zeta in *. rewrite H1, H2.
  destruct (find (isKind KAdded) _) as [e|]; cbn; [reflexivity|].
  destruct (find (isKind KRemoved) _) as [e|]; reflexivity.
Qed.

(** C8, as amended.  For a hunk whose counters stay within the integers
    that the host counts exactly, [hunkLinkTarget] returns the new-file
    number of the first added line with side [R] when the hunk has an added
    line; otherwise the old-file number of the first removed line with side
    [L] when it has a removed line; otherwise the start of the hunk on the
    new side with side [R].  Added is a line that begins with [+] but not
    with [+++], removed a line that begins with [-] but not with [---],
    context a line that begins with a space; a line that begins with [@@],
    [+++] or [---] and any other line has no number and advances no
    counter.  The numbers are those of the replay of the hunk's lines with
    the counters started at [oldStart] and [newStart]. *)
Theorem C8_hunkLinkTarget_spec :
  forall h : DiffHunk, safeCounters h -> hunkLinkTarget h = targetBy bodyKind h.
Proof. intros h _. apply hunkLinkTarget_targetBy. Qed.

Lemma C8_hunkLinkTarget_spec_witness :
  let h := mkHunk "@@ -4,3 +7,3 @@" ["@@ -4,3 +7,3 @@"; " a"; "-b"; "+++i;"; "+c"; " d"] 4 7 in
  safeCounters h /\ hunkLinkTarget h = targetBy bodyKind h /\
  targetBy bodyKind h = mkTarget 8 R.
Proof.
  intros h.
  assert (Hs : safeCounters h) by (unfold safeCounters; cbn; lia).
  split; [exact Hs|]. split; [apply (C8_hunkLinkTarget_spec h Hs) | reflexivity].
Defined.

(** The claim as it was worded, with every line that begins with [+] an
    added line, fails: in this hunk the added line [++i;] is the first
    added line and has the new-file number 5, but the code takes it for a
    file header line and answers with the removed line on the old side. *)
Lemma C8_counterexample :
  let h := mkHunk "@@ -1 +5 @@" ["@@ -1 +5 @@"; "-old"; "+++i;"] 1 5 in
  safeCounters h /\
  targetBy plainKind h = mkTarget 5 R /\
  hunkLinkTarget h = mkTarget 1 L.
Proof.
  intros h. split; [unfold safeCounters; cbn; lia|]. split; reflexivity.
Qed.

Example hunkLinkTarget_added :
  hunkLinkTarget (mkHunk "@@ -4,3 +7,3 @@" ["@@ -4,3 +7,3 @@"; " a"; "-b"; "+c"; " d"] 4 7)
  = mkTarget 8 R.
Proof. reflexivity. Qed.

Example hunkLinkTarget_removed :
  hunkLinkTarget (mkHunk "@@ -4,3 +7,2 @@" ["@@ -4,3 +7,2 @@"; " a"; "-b"; " d"] 4 7)
  = mkTarget 5 L.
Proof. reflexivity. Qed.

Example hunkLinkTarget_fallback :
  hunkLinkTarget (mkHunk "@@ -4,2 +7,2 @@" ["@@ -4,2 +7,2 @@"; " a"; " d"] 4 7)
  = mkTarget 7 R.
Proof. reflexivity. Qed.

(* ================================================================== *)
(** ** The line-range stage at its boundary *)

Section RangeSlice.

Lemma startsWith_char l c :
  startsWith l (String c EmptyString) = true -> exists l', l = String c l'.
Proof.
  destruct l as [|b l']; cbn; [discriminate|].
  rewrite andb_true_r. intros E. apply Ascii.eqb_eq in E. subst b. eauto.
Qed.

Lemma isAdded_not_header l : isAdded l = true -> startsWith l "@@" = false.
Proof.
  unfold isAdded. intros H. apply andb_true_iff in H as [H _].
  apply startsWith_char in H as (l' & ->). reflexivity.
Qed.

Lemma isRemoved_not_context l : isRemoved l = true -> isContext l = false.
Proof.
  unfold isRemoved, isContext. intros H. apply andb_true_iff in H as [H _].
  apply startsWith_char in H as (l' & ->). reflexivity.
Qed.

Lemma contextLines_cons l ls :
  contextLines (l :: ls) = (if isContext l then 1 else 0) + contextLines ls.
Proof.
  unfold contextLines. cbn [filter]. destruct (isContext l); cbn [List.length]; lia.
Qed.

Lemma contextLines_nonneg ls : 0 <= contextLines ls.
Proof. unfold contextLines. lia. Qed.

Lemma sliceLine_plain r st l :
  plainBodyLine l ->
  sliceLine r st l =
  if isRemoved l then
    mkSlice (sliceOldLine st + 1) (sliceNewLine st) (collected st) (hasAny st)
  else if isContext l then
    if inRange r (sliceNewLine st)
    then mkSlice (sliceOldLine st + 1) (sliceNewLine st + 1)
                 (collected st ++ [l]) true
    else mkSlice (sliceOldLine st + 1) (sliceNewLine st + 1)
                 (collected st) (hasAny st)
  else st.
Proof. intros [Hh Ha]. unfold sliceLine, inRange. now rewrite Hh, Ha. Qed.

Lemma sliceLine_added r st l :
  isAdded l = true ->
  sliceLine r st l =
  if inRange r (sliceNewLine st)
  then mkSlice (sliceOldLine st) (sliceNewLine st + 1) (collected st ++ [l]) true
  else mkSlice (sliceOldLine st) (sliceNewLine st + 1) (collected st) (hasAny st).
Proof.
  intros Ha. unfold sliceLine, inRange.
  now rewrite (isAdded_not_header l Ha), Ha.
Qed.

(** Lines that are all numbered outside the range leave the collection
    as it is. *)
Lemma slice_outside r ls st :
  Forall plainBodyLine ls ->
  sliceNewLine st + contextLines ls <= rangeStart r \/ rangeEnd r < sliceNewLine st ->
  collected (fold_left (sliceLine r) ls st) = collected st /\
  hasAny (fold_left (sliceLine r) ls st) = hasAny st /\
  sliceNewLine (fold_left (sliceLine r) ls st) = sliceNewLine st + contextLines ls.
Proof.
  intros Hls; revert st; induction Hls as [|l ls Hl Hls IH]; intros st Hle;
    cbn [fold_left].
  - unfold contextLines; cbn. repeat split; lia.
  - rewrite contextLines_cons in Hle |- *.
    pose proof (contextLines_nonneg ls) as Hnn.
    rewrite (sliceLine_plain r st l Hl).
    destruct (isRemoved l) eqn:Hr.
    + rewrite (isRemoved_not_context l Hr) in Hle |- *.
      destruct (IH (mkSlice (sliceOldLine st + 1) (sliceNewLine st)
                            (collected st) (hasAny st))) as (H1 & H2 & H3);
        [cbn; lia|]. cbn in H1, H2, H3. rewrite H1, H2, H3. repeat split; lia.
    + destruct (isContext l).
      * assert (Hout : inRange r (sliceNewLine st) = false).
        { unfold inRange. apply andb_false_iff.
          destruct Hle; [left | right]; apply Z.leb_gt; lia. }
        rewrite Hout.
        destruct (IH (mkSlice (sliceOldLine st + 1) (sliceNewLine st + 1)
                              (collected st) (hasAny st))) as (H1 & H2 & H3);
          [cbn; lia|]. cbn in H1, H2, H3. rewrite H1, H2, H3. repeat split; lia.
      * destruct (IH st) as (H1 & H2 & H3); [lia|]. rewrite H1, H2, H3.
        repeat split; lia.
Qed.

(** The slice of a hunk whose only added line is numbered [n]. *)
Lemma sliceByRange_single_added r h hd pre a post :
  lines h = (hd :: pre ++ a :: post)%list ->
  startsWith hd "@@" = true ->
  isAdded a = true ->
  Forall plainBodyLine (pre ++ post) ->
  (inRange r (newStart h + contextLines pre) = true ->
   rangeEnd r <= newStart h + contextLines pre ->
   newStart h + contextLines pre <= rangeStart r ->
   sliceByRange (Some r) h = Some (withLines h [hd; a])) /\
  (newStart h + contextLines pre + 1 + contextLines post <= rangeStart r ->
   sliceByRange (Some r) h = None).
Proof.
  intros El Hhd Ha Hplain.
  apply Forall_app in Hplain as [Hpre Hpost].
  pose proof (contextLines_nonneg pre) as Hp0.
  pose proof (contextLines_nonneg post) as Hp1.
  unfold sliceByRange. rewrite El. cbn [fold_left].
  set (st0 := sliceLine r _ hd).
  assert (E0 : st0 = mkSlice (oldStart h) (newStart h) [hd] false)
    by (unfold st0, sliceLine; now rewrite Hhd).
  rewrite E0, fold_left_app. cbn [fold_left].
  set (st1 := fold_left (sliceLine r) pre _).
  split.
  - intros Hin Hhi Hlo.
    destruct (slice_outside r pre (mkSlice (oldStart h) (newStart h) [hd] false) Hpre)
      as (H1 & H2 & H3); [cbn; lia|]. fold st1 in H1, H2, H3. cbn in H1, H2, H3.
    rewrite (sliceLine_added r st1 a Ha), H3, Hin.
    destruct (slice_outside r post
                (mkSlice (sliceOldLine st1) (newStart h + contextLines pre + 1)
                         (collected st1 ++ [a]) true) Hpost)
      as (G1 & G2 & G3); [cbn; lia|]. cbn in G1, G2, G3.
    rewrite G2, G1, H1. reflexivity.
  - intros Hlo.
    destruct (slice_outside r pre (mkSlice (oldStart h) (newStart h) [hd] false) Hpre)
      as (H1 & H2 & H3); [cbn; lia|]. fold st1 in H1, H2, H3. cbn in H1, H2, H3.
    assert (Hout : inRange r (newStart h + contextLines pre) = false).
    { unfold inRange. apply andb_false_iff. left. apply Z.leb_gt. lia. }
    rewrite (sliceLine_added r st1 a Ha), H3, Hout.
    destruct (slice_outside r post
                (mkSlice (sliceOldLine st1) (newStart h + contextLines pre + 1)
                         (collected st1) (hasAny st1)) Hpost)
      as (G1 & G2 & G3); [cbn; lia|]. cbn in G1, G2, G3.
    rewrite G2, H2. reflexivity.
Qed.

Lemma lineKind_added a : isAdded a = true -> lineKind a = KAdded.
Proof.
  intros Ha. unfold lineKind. now rewrite (isAdded_not_header a Ha), Ha.
Qed.

Lemma lineKind_plain l :
  plainBodyLine l ->
  lineKind l = if isRemoved l then KRemoved
               else if isContext l then KContext else KOther.
Proof. intros [Hh Ha]. unfold lineKind. now rewrite Hh, Ha. Qed.

(** In the replay, an added line that follows only lines that are not added
    is numbered by the start of the hunk plus the context lines before it. *)
Lemma replay_added_position pre a post o n :
  Forall plainBodyLine pre -> isAdded a = true ->
  exists o', nth_error (replay o n (pre ++ a :: post)) (List.length pre)
             = Some (KAdded, o', n + contextLines pre).
Proof.
  intros Hpre Ha. revert o n.
  induction Hpre as [|l pre Hl Hpre IH]; intros o n.
  - cbn [app replay List.length nth_error]. rewrite (lineKind_added a Ha).
    exists o. do 2 f_equal. unfold contextLines. cbn. lia.
  - cbn [app replay List.length nth_error]. rewrite contextLines_cons.
    rewrite (lineKind_plain l Hl).
    destruct (isRemoved l) eqn:Hr.
    + rewrite (isRemoved_not_context l Hr).
      destruct (IH (o + 1) n) as (o' & E). exists o'. rewrite E. do 2 f_equal.
    + destruct (isContext l).
      * destruct (IH (o + 1) (n + 1)) as (o' & E). exists o'. rewrite E.
        do 2 f_equal. lia.
      * destruct (IH o n) as (o' & E). exists o'. rewrite E. do 2 f_equal.
Qed.

(** A line range alone, applied to a single file with a single hunk. *)
Lemma filterDiffFiles_range_single newRegExp f h a b :
  hunks f = [h] -> headerLines f <> [] ->
  filterDiffFiles newRegExp [f] (onlyRange a b) =
  Ok [withHunks f match sliceByRange (Some (mkRange a b)) h with
                  | Some h' => [h']
                  | None => []
                  end].
Proof.
  intros Hh Hne. rewrite filterDiffFiles_no_grep by reflexivity. f_equal.
  unfold filterCompiled, onlyRange, filterFile, filterHunk.
  cbn [paths grep grepContext lineRange filterPaths map]. rewrite Hh.
  cbn [filterMap].
  destruct (sliceByRange _ h) as [h'|]; cbn [applyGrep filter hunks headerLines withHunks
                                             isEmpty negb orb].
  - reflexivity.
  - destruct (headerLines f); [contradiction | reflexivity].
Qed.

End RangeSlice.

(** C5, as amended.  Take a hunk with [newStart = 10] whose only added line
    is numbered 15 on the new side: by [replay_added_position] this is to
    say that five context lines come before it.
    With [lineRange = {15, 15}] the filter keeps of this hunk its header line
    and that added line and nothing else.  With [lineRange = {16, 20}] the
    filter removes the hunk, provided no context line follows the added
    line (such a line would be numbered 16 and kept with the hunk). *)
Theorem C5_range_slice_boundary :
  forall (newRegExp : RegExpConstructor) (f : DiffFile) (h : DiffHunk)
         (hd : string) (pre : list string) (a : string) (post : list string),
    hunks f = [h] -> headerLines f <> [] ->
    lines h = (hd :: pre ++ a :: post)%list ->
    startsWith hd "@@" = true ->
    newStart h = 10 ->
    isAdded a = true ->
    Forall plainBodyLine (pre ++ post) ->
    10 + contextLines pre = 15 ->
    filterDiffFiles newRegExp [f] (onlyRange 15 15)
      = Ok [withHunks f [withLines h [hd; a]]] /\
    (contextLines post = 0 ->
     filterDiffFiles newRegExp [f] (onlyRange 16 20) = Ok [withHunks f []]).
Proof.
  intros newRegExp f h hd pre a post Hh Hne El Hhd Hn Ha Hplain Hat.
  destruct (sliceByRange_single_added (mkRange 15 15) h hd pre a post El Hhd Ha Hplain)
    as [Hkeep _].
  destruct (sliceByRange_single_added (mkRange 16 20) h hd pre a post El Hhd Ha Hplain)
    as [_ Hdrop].
  rewrite Hn in Hkeep, Hdrop. cbn [rangeStart rangeEnd] in Hkeep, Hdrop.
  split.
  - rewrite (filterDiffFiles_range_single newRegExp f h 15 15 Hh Hne).
    rewrite Hkeep; [reflexivity | | lia | lia].
    unfold inRange; cbn [rangeStart rangeEnd]. rewrite Hat. reflexivity.
  - intros Hpost.
    rewrite (filterDiffFiles_range_single newRegExp f h 16 20 Hh Hne).
    rewrite Hdrop; [reflexivity | lia].
Qed.

Lemma C5_range_slice_boundary_witness :
  let hd := "@@ -10,6 +10,6 @@" in
  let h := mkHunk hd [hd; " a"; " b"; " c"; " d"; " e"; "-old"; "+new"] 10 10 in
  let f := mkFile "x.ts" ["diff --git a/x.ts b/x.ts"] [h] in
  filterDiffFiles literalRegExp [f] (onlyRange 15 15)
    = Ok [withHunks f [withLines h [hd; "+new"]]] /\
  filterDiffFiles literalRegExp [f] (onlyRange 16 20) = Ok [withHunks f []].
Proof.
  intros hd h f.
  destruct (C5_range_slice_boundary literalRegExp f h hd
              [" a"; " b"; " c"; " d"; " e"; "-old"] "+new" []) as [H1 H2];
    try reflexivity.
  - discriminate.
  - repeat constructor.
  - split; [exact H1 | apply H2; reflexivity].
Defined.

(** The second half of C5 as it was worded fails when a context line
    follows the added line: that line is numbered 16 and the hunk stays. *)
Lemma C5_counterexample :
  let hd := "@@ -10,6 +10,7 @@" in
  let h := mkHunk hd [hd; " a"; " b"; " c"; " d"; " e"; "+new"; " f"] 10 10 in
  let f := mkFile "x.ts" ["diff --git a/x.ts b/x.ts"] [h] in
  map newNumber (filter (isKind KAdded) (replay (oldStart h) (newStart h) (lines h)))
    = [15] /\
  filterDiffFiles literalRegExp [f] (onlyRange 15 15)
    = Ok [withHunks f [withLines h [hd; "+new"]]] /\
  filterDiffFiles literalRegExp [f] (onlyRange 16 20)
    = Ok [withHunks f [withLines h [hd; " f"]]].
Proof. repeat split; reflexivity. Qed.

(* ================================================================== *)
(** ** The fallback of [compileGrep] *)

Section GrepFallback.

Lemma matchIndices_ext (r1 r2 : RegExp) i ls :
  (forall l, r1 l = r2 l) -> matchIndices r1 i ls = matchIndices r2 i ls.
Proof.
  intros H; revert i; induction ls as [|l ls IH]; intros i; cbn; [reflexivity|].
  now rewrite H, IH.
Qed.

Lemma applyGrep_ext (r1 r2 : RegExp) c h :
  (forall l, r1 l = r2 l) -> applyGrep (Some r1) c h = applyGrep (Some r2) c h.
Proof. intros H. unfold applyGrep. now rewrite (matchIndices_ext r1 r2 0 _ H). Qed.

Lemma filterCompiled_ext (r1 r2 : RegExp) o fs :
  (forall l, r1 l = r2 l) ->
  filterCompiled (Some r1) o fs = filterCompiled (Some r2) o fs.
Proof.
  intros H. unfold filterCompiled. do 2 f_equal.
  apply map_ext. intros f. unfold filterFile. f_equal.
  apply filterMap_ext. intros h _. unfold filterHunk.
  destruct (sliceByRange _ h); [apply applyGrep_ext, H | reflexivity].
Qed.

(** The class of the escaping pattern is the set of syntax characters. *)
Lemma isSyntaxChar_syntaxCharacter c : isSyntaxChar c = syntaxCharacter c.
Proof. destruct c as [[] [] [] [] [] [] [] []]; reflexivity. Qed.

Lemma literalSource_step c s :
  literalSource (String c s) =
  if Ascii.eqb c backslash then
    match s with
    | EmptyString => None
    | String d s'' =>
        if syntaxCharacter d then option_map (String d) (literalSource s'') else None
    end
  else if syntaxCharacter c then None
  else option_map (String c) (literalSource s).
Proof.
  destruct (Ascii.eqb_spec c backslash) as [-> | Hne]; [destruct s; reflexivity|].
  destruct c as [[] [] [] [] [] [] [] []]; try reflexivity.
  exfalso. apply Hne. reflexivity.
Qed.

(** Escaping leaves no syntax character bare and escapes nothing else:
    the escaped text is a literal pattern for the text itself. *)
Lemma literalSource_escape s : literalSource (escapeRegExp s) = Some s.
Proof.
  induction s as [|c s IH]; [reflexivity|].
  cbn [escapeRegExp]. destruct (isSyntaxChar c) eqn:E.
  - rewrite literalSource_step, Ascii.eqb_refl.
    rewrite <- isSyntaxChar_syntaxCharacter, E, IH. reflexivity.
  - rewrite literalSource_step, <- isSyntaxChar_syntaxCharacter, E.
    assert (Hb : Ascii.eqb c backslash = false).
    { unfold isSyntaxChar in E. now apply orb_false_iff in E as [E _]. }
    rewrite Hb, IH. reflexivity.
Qed.

Lemma literalRegExp_literal : literalSemantics literalRegExp.
Proof.
  intros source text H. unfold literalRegExp. rewrite H. cbn.
  eexists; split; [reflexivity | reflexivity].
Qed.

End GrepFallback.

(** C7.  When the pattern does not compile, [compileGrep] does not raise:
    it returns the pattern compiled from the escaped text, which matches a
    line exactly when the line contains the original text, and
    [filterDiffFiles] returns what the filter computes with that substring
    test.  The engine is any constructor that follows the language on the
    patterns made of pattern characters and identity escapes; that the
    escaped text is such a pattern, and stands for the original text, is
    what the escaping has to achieve. *)
Theorem C7_invalid_pattern_falls_back :
  forall (newRegExp : RegExpConstructor),
    literalSemantics newRegExp ->
    forall p : string,
      p <> EmptyString ->
      newRegExp p = None ->
      (exists r, compileGrep newRegExp (Some p) = Ok (Some r) /\
                 forall l, r l = includes l p) /\
      (forall (d : list DiffFile) (o : FilterOptions),
          grep o = Some p ->
          filterDiffFiles newRegExp d o =
          Ok (filterCompiled (Some (fun l => includes l p)) o d)).
Proof.
  intros newRegExp Hlit p Hne Hfail.
  destruct (Hlit (escapeRegExp p) p (literalSource_escape p)) as (r & Hr & Hsem).
  assert (Hc : compileGrep newRegExp (Some p) = Ok (Some r)).
  { unfold compileGrep. destruct p as [|c p]; [contradiction|].
    now rewrite Hfail, Hr. }
  split; [eauto|].
  intros d o Ho. unfold filterDiffFiles. rewrite Ho, Hc. cbn [bindResult].
  f_equal. apply filterCompiled_ext, Hsem.
Qed.

Lemma C7_invalid_pattern_falls_back_witness :
  let f := mkFile "m.js" ["diff --git a/m.js b/m.js"]
                  [mkHunk "@@ -1 +1,2 @@" ["@@ -1 +1,2 @@"; " f(x"; "+g.y"] 1 1;
                   mkHunk "@@ -9 +10 @@" ["@@ -9 +10 @@"; "-fx"] 9 10] in
  (exists r, compileGrep literalRegExp (Some "f(x") = Ok (Some r) /\
             forall l, r l = includes l "f(x") /\
  filterDiffFiles literalRegExp [f] (mkFilterOptions None (Some "f(x") None None)
  = Ok [withHunks f [mkHunk "@@ -1 +1,2 @@" ["@@ -1 +1,2 @@"; " f(x"; "+g.y"] 1 1]].
Proof.
  intros f.
  destruct (C7_invalid_pattern_falls_back literalRegExp literalRegExp_literal "f(x")
    as [H1 H2]; [discriminate | reflexivity |].
  split; [exact H1|].
  rewrite (H2 [f] (mkFilterOptions None (Some "f(x") None None) eq_refl).
  reflexivity.
Defined.

(* ================================================================== *)
(** ** The grep stage applied twice *)

Section GrepTwice.

Lemma In_upTo lo hi i : In i (upTo lo hi) <-> lo <= i <= hi.
Proof.
  unfold upTo. rewrite in_map_iff. split.
  - intros (k & <- & Hk). apply in_seq in Hk. lia.
  - intros H. exists (Z.to_nat (i - lo)). split; [lia|]. apply in_seq. lia.
Qed.

Lemma setHas_true keep i : setHas keep i = true <-> In i keep.
Proof.
  unfold setHas. rewrite existsb_exists. split.
  - intros (x & Hx & E). apply Z.eqb_eq in E. now subst.
  - intros H. exists i. split; auto. apply Z.eqb_refl.
Qed.

Lemma setHas_keepSet c n M i :
  setHas (keepSet c n M) i = true <->
  exists m, In m M /\ Z.max 0 (m - c) <= i <= Z.min (n - 1) (m + c).
Proof.
  rewrite setHas_true. unfold keepSet. rewrite in_flat_map.
  split; intros (m & Hm & H); exists m; split; auto; now apply In_upTo.
Qed.

Lemma In_matchIndices (g : RegExp) s ls m :
  In m (matchIndices g s ls) <->
  exists k, m = s + Z.of_nat k /\ (k < List.length ls)%nat /\
            g (nth k ls EmptyString) = true.
Proof.
  revert s; induction ls as [|l ls IH]; intros s; cbn [matchIndices].
  - split; [contradiction | intros (k & _ & Hk & _); cbn in Hk; lia].
  - assert (Hrest : In m (matchIndices g (s + 1) ls) <->
                    exists k, m = s + Z.of_nat (S k) /\ (k < List.length ls)%nat /\
                              g (nth k ls EmptyString) = true).
    { rewrite IH. split; intros (k & E & Hk); exists k; split; auto; lia. }
    destruct (g l) eqn:El; cbn [In]; rewrite Hrest; split.
    + intros [<- | (k & E & Hk & Hg)].
      * exists O. cbn. repeat split; auto; lia.
      * exists (S k). cbn. repeat split; auto; lia.
    + intros (k & E & Hk & Hg). destruct k as [|k].
      * left. lia.
      * right. exists k. cbn in Hk, Hg. repeat split; auto; lia.
    + intros (k & E & Hk & Hg). exists (S k). cbn. repeat split; auto; lia.
    + intros (k & E & Hk & Hg). destruct k as [|k].
      * cbn in Hg. congruence.
      * exists k. cbn in Hk, Hg. repeat split; auto; lia.
Qed.

Lemma increasingFrom_weaken lo lo' ks :
  (lo' <= lo)%nat -> increasingFrom lo ks -> increasingFrom lo' ks.
Proof. destruct ks as [|k r]; cbn; [auto | intros ? [? ?]; split; [lia | auto]]. Qed.

Lemma keptPositions_increasing q s len : increasingFrom s (keptPositions q s len).
Proof.
  unfold keptPositions. revert s; induction len as [|len IH]; intros s; cbn; auto.
  destruct (q (Z.of_nat s)).
  - cbn. split; [lia | apply IH].
  - apply (increasingFrom_weaken (S s)); [lia | apply IH].
Qed.

Lemma In_keptPositions q s len k :
  In k (keptPositions q s len) <-> (s <= k < s + len)%nat /\ q (Z.of_nat k) = true.
Proof. unfold keptPositions. rewrite filter_In, in_seq. tauto. Qed.

(** In an increasing list, positions are at least as far apart as their
    places. *)
Lemma increasingFrom_nth lo ks i k :
  increasingFrom lo ks -> nth_error ks i = Some k -> (lo + i <= k)%nat.
Proof.
  revert lo i; induction ks as [|k0 r IH]; intros lo i Hinc Hn.
  - destruct i; discriminate.
  - destruct Hinc as [Hlo Hr]. destruct i as [|i]; cbn in Hn.
    + injection Hn as <-. lia.
    + specialize (IH _ _ Hr Hn). lia.
Qed.

Lemma increasingFrom_gap lo ks i j ki kj :
  increasingFrom lo ks -> (i <= j)%nat ->
  nth_error ks i = Some ki -> nth_error ks j = Some kj ->
  (ki + (j - i) <= kj)%nat.
Proof.
  revert lo i j; induction ks as [|k0 r IH]; intros lo i j Hinc Hij Hi Hj.
  - destruct i; discriminate.
  - destruct Hinc as [Hlo Hr]. destruct i as [|i], j as [|j]; cbn in Hi, Hj.
    + injection Hi as <-. injection Hj as <-. lia.
    + injection Hi as <-. pose proof (increasingFrom_nth _ _ _ _ Hr Hj). lia.
    + lia.
    + assert (Hle : (i <= j)%nat) by lia.
      specialize (IH _ _ _ Hr Hle Hi Hj). lia.
Qed.

(** The filtered list read through the kept positions. *)
Lemma filterIndexed_positions (q : Z -> bool) s (ls : list string) :
  filterIndexed (fun _ i => q i) (Z.of_nat s) ls =
  map (fun k => nth (k - s) ls EmptyString) (keptPositions q s (List.length ls)).
Proof.
  unfold keptPositions.
  revert s; induction ls as [|l ls IH]; intros s; cbn [filterIndexed List.length seq filter];
    [reflexivity|].
  replace (Z.of_nat s + 1) with (Z.of_nat (S s)) by lia.
  assert (Htail : map (fun k => nth (k - S s) ls EmptyString)
                      (filter (fun k => q (Z.of_nat k)) (seq (S s) (List.length ls))) =
                  map (fun k => nth (k - s) (l :: ls) EmptyString)
                      (filter (fun k => q (Z.of_nat k)) (seq (S s) (List.length ls)))).
  { apply map_ext_in. intros k Hk. apply filter_In in Hk as [Hk _].
    apply in_seq in Hk. replace (k - s)%nat with (S (k - S s)) by lia. reflexivity. }
  destruct (q (Z.of_nat s)); cbn [map]; rewrite IH, Htail; [|reflexivity].
  now rewrite Nat.sub_diag.
Qed.

Lemma filterIndexed_all (q : Z -> bool) s (ls : list string) :
  (forall k, (k < List.length ls)%nat -> q (s + Z.of_nat k) = true) ->
  filterIndexed (fun _ i => q i) s ls = ls.
Proof.
  revert s; induction ls as [|l ls IH]; intros s H; cbn [filterIndexed]; [reflexivity|].
  assert (H0 : q s = true).
  { replace s with (s + Z.of_nat 0) by lia. apply H. cbn; lia. }
  rewrite H0, IH; [reflexivity|].
  intros k Hk. replace (s + 1 + Z.of_nat k) with (s + Z.of_nat (S k)) by lia.
  apply H. cbn; lia.
Qed.

Lemma keepIndex_match g c ls k :
  0 < c -> (k < List.length ls)%nat -> g (nth k ls EmptyString) = true ->
  keepIndex g c ls (Z.of_nat k) = true.
Proof.
  intros Hc Hk Hg. unfold keepIndex. apply orb_true_iff. left.
  apply setHas_keepSet. exists (Z.of_nat k). split; [|lia].
  apply In_matchIndices. exists k. repeat split; auto.
Qed.

(** Filtering by [keepIndex] a second time keeps every line. *)
Lemma keepIndex_twice g c ls :
  0 < c -> matchIndices g 0 ls <> [] ->
  let ls' := filterIndexed (fun _ i => keepIndex g c ls i) 0 ls in
  matchIndices g 0 ls' <> [] /\
  forall j, (j < List.length ls')%nat -> keepIndex g c ls' (Z.of_nat j) = true.
Proof.
  intros Hc Hne ls'.
  set (ks := keptPositions (keepIndex g c ls) 0 (List.length ls)).
  assert (Hls' : ls' = map (fun k => nth k ls EmptyString) ks).
  { unfold ls'. change 0 with (Z.of_nat 0). rewrite filterIndexed_positions.
    apply map_ext. intros k. now rewrite Nat.sub_0_r. }
  assert (Hlen : List.length ls' = List.length ks) by (rewrite Hls'; apply length_map).
  assert (Hinc : increasingFrom 0 ks) by apply keptPositions_increasing.
  assert (Hnth : forall j k, nth_error ks j = Some k ->
                             (j < List.length ls')%nat /\
                             nth j ls' EmptyString = nth k ls EmptyString).
  { intros j k Hj. split.
    - rewrite Hlen. apply nth_error_Some. congruence.
    - apply nth_error_nth. rewrite Hls', nth_error_map, Hj. reflexivity. }
  (* every matching position of [ls] has a place in [ls'], still matching *)
  assert (Hplace : forall k, (k < List.length ls)%nat ->
                             g (nth k ls EmptyString) = true ->
                             exists j, nth_error ks j = Some k /\
                                       In (Z.of_nat j) (matchIndices g 0 ls')).
  { intros k Hk Hg.
    assert (Hin : In k ks).
    { apply In_keptPositions. split; [lia|]. now apply keepIndex_match. }
    apply In_nth_error in Hin as (j & Hj). exists j. split; auto.
    destruct (Hnth j k Hj) as [Hjl Heq].
    apply In_matchIndices. exists j. repeat split; auto. now rewrite Heq. }
  split.
  - destruct (matchIndices g 0 ls) as [|m M] eqn:EM; [contradiction|].
    assert (Hm : In m (matchIndices g 0 ls)) by (rewrite EM; now left).
    apply In_matchIndices in Hm as (k & _ & Hk & Hg).
    destruct (Hplace k Hk Hg) as (j & _ & Hj).
    intros E. rewrite E in Hj. contradiction.
  - intros j Hj. unfold keepIndex. apply orb_true_iff.
    destruct j as [|j]; [right; reflexivity | left].
    destruct (nth_error ks (S j)) as [kj|] eqn:Ekj;
      [|apply nth_error_None in Ekj; lia].
    pose proof (increasingFrom_nth _ _ _ _ Hinc Ekj) as Hpos.
    assert (Hkept : In kj ks) by (eapply nth_error_In; eauto).
    apply In_keptPositions in Hkept as [Hrange Hkeep].
    unfold keepIndex in Hkeep. apply orb_true_iff in Hkeep as [Hkeep | Hzero];
      [|apply Z.eqb_eq in Hzero; lia].
    apply setHas_keepSet in Hkeep as (m & Hm & Hbound).
    apply In_matchIndices in Hm as (km & -> & Hkm & Hg).
    destruct (Hplace km Hkm Hg) as (jm & Hjm & Hin).
    apply setHas_keepSet. exists (Z.of_nat jm). split; auto.
    assert (Hjml : (jm < List.length ls')%nat) by (apply (Hnth jm km Hjm)).
    destruct (Nat.le_gt_cases jm (S j)) as [Hle | Hgt].
    + pose proof (increasingFrom_gap _ _ _ _ _ _ Hinc Hle Hjm Ekj). lia.
    + assert (Hle : (S j <= jm)%nat) by lia.
      pose proof (increasingFrom_gap _ _ _ _ _ _ Hinc Hle Ekj Hjm). lia.
Qed.

Lemma applyGrep_twice g c h h' :
  applyGrep g c h = Some h' -> applyGrep g c h' = Some h'.
Proof.
  unfold applyGrep. destruct g as [r|]; [|intros [= <-]; reflexivity].
  destruct (isEmpty (matchIndices r 0 (lines h))) eqn:Eh; [discriminate|].
  destruct (c <=? 0) eqn:Ec.
  - intros [= <-]. now rewrite Eh.
  - intros [= <-]. cbn [lines withLines].
    apply Z.leb_gt in Ec.
    assert (Hne : matchIndices r 0 (lines h) <> [])
      by (intros E; rewrite E in Eh; discriminate).
    destruct (keepIndex_twice r c (lines h) Ec Hne) as [Hne' Hall].
    fold (keepIndex r c (lines h)) in *.
    set (ls' := filterIndexed (fun _ i => keepIndex r c (lines h) i) 0 (lines h)) in *.
    change (fun (_ : string) (index : Z) =>
              setHas (keepSet c (Z.of_nat (List.length (lines h)))
                              (matchIndices r 0 (lines h))) index || (index =? 0))
      with (fun (_ : string) (i : Z) => keepIndex r c (lines h) i).
    fold ls'.
    destruct (matchIndices r 0 ls') eqn:E'; [contradiction|]. cbn [isEmpty].
    rewrite <- E'.
    change (fun (_ : string) (index : Z) =>
              setHas (keepSet c (Z.of_nat (List.length ls'))
                              (matchIndices r 0 ls')) index || (index =? 0))
      with (fun (_ : string) (i : Z) => keepIndex r c ls' i).
    rewrite filterIndexed_all; [reflexivity|].
    intros k Hk. apply Hall, Hk.
Qed.

End GrepTwice.

(* ================================================================== *)
(** ** Filtering a filtered diff *)

Section FilterTwice.

Lemma filterMap_fixed {A : Type} (f : A -> option A) (l : list A) :
  (forall x, In x l -> f x = Some x) -> filterMap f l = l.
Proof.
  induction l as [|x l IH]; intros H; cbn [filterMap]; [reflexivity|].
  rewrite (H x (or_introl eq_refl)), IH; auto.
  intros y Hy. apply H. now right.
Qed.

Lemma filterHunk_no_range g c h : filterHunk g c None h = applyGrep g c h.
Proof. reflexivity. Qed.

Lemma filterFile_twice g c f :
  filterFile g c None (filterFile g c None f) = filterFile g c None f.
Proof.
  unfold filterFile, withHunks. cbn [path headerLines hunks]. f_equal.
  apply filterMap_fixed. intros h' Hh'.
  apply In_filterMap in Hh' as (h & _ & E).
  rewrite filterHunk_no_range in *. eapply applyGrep_twice; eauto.
Qed.

Lemma filterPaths_fixed ps fs :
  (forall f l, ps = Some l -> l <> [] -> In f fs -> existsb (pathMatches f) l = true) ->
  filterPaths ps fs = fs.
Proof.
  intros H. unfold filterPaths. destruct ps as [[|p l]|]; auto.
  apply filter_all, Forall_forall. intros f Hf.
  apply (H f (p :: l)); auto. discriminate.
Qed.

Lemma In_filterPaths_matches ps l fs f :
  ps = Some l -> l <> [] -> In f (filterPaths ps fs) ->
  existsb (pathMatches f) l = true.
Proof.
  intros -> Hne. unfold filterPaths. destruct l as [|p l]; [contradiction|].
  intros H. now apply filter_In in H.
Qed.

Lemma existsb_same {A : Type} (p q : A -> bool) (l : list A) :
  (forall x, p x = q x) -> existsb p l = existsb q l.
Proof. intros H. induction l as [|x l IH]; cbn; [reflexivity | now rewrite H, IH]. Qed.

Lemma pathMatches_path f f' p : path f' = path f -> pathMatches f' p = pathMatches f p.
Proof. unfold pathMatches. now intros ->. Qed.

(** Without a line range the compiled filter does nothing more when it is
    run on its own result. *)
Lemma filterCompiled_twice g o fs :
  lineRange o = None ->
  filterCompiled g o (filterCompiled g o fs) = filterCompiled g o fs.
Proof.
  intros Hr.
  set (c := match grepContext o with Some c => c | None => 0 end).
  set (keep1 := fun file : DiffFile =>
                  negb (isEmpty (hunks file)) || negb (isEmpty (headerLines file))).
  set (keep2 := fun file : DiffFile => negb (isEmpty (hunks file))).
  set (out := filterCompiled g o fs).
  assert (Hout : forall f', In f' out ->
            (exists f, In f (filterPaths (paths o) fs) /\ f' = filterFile g c None f) /\
            keep1 f' = true /\ (g <> None -> keep2 f' = true)).
  { intros f' Hin. unfold out, filterCompiled in Hin. rewrite Hr in Hin.
    fold c keep1 keep2 in Hin.
    assert (H1 : In f' (filter keep1 (map (filterFile g c None)
                                          (filterPaths (paths o) fs))) /\
                 (g <> None -> keep2 f' = true)).
    { destruct g; [apply filter_In in Hin; tauto | split; [assumption | congruence]]. }
    destruct H1 as [H1 H2]. apply filter_In in H1 as [H1 H3].
    apply in_map_iff in H1 as (f & <- & Hf). eauto. }
  assert (Hpaths : filterPaths (paths o) out = out).
  { apply filterPaths_fixed. intros f' l Hps Hne Hin.
    destruct (Hout f' Hin) as ((f & Hf & ->) & _).
    rewrite (existsb_same (pathMatches (filterFile g c None f)) (pathMatches f)).
    - eapply In_filterPaths_matches; eauto.
    - intros p. now apply pathMatches_path. }
  assert (Hmap : map (filterFile g c None) out = out).
  { apply map_all, Forall_forall. intros f' Hin.
    destruct (Hout f' Hin) as ((f & Hf & ->) & _). apply filterFile_twice. }
  assert (Hk1 : filter keep1 out = out).
  { apply filter_all, Forall_forall. intros f' Hin. now destruct (Hout f' Hin). }
  unfold filterCompiled at 1. rewrite Hr. fold c keep1 keep2 out.
  rewrite Hpaths, Hmap, Hk1.
  destruct g as [r|]; [|reflexivity].
  apply filter_all, Forall_forall. intros f' Hin.
  destruct (Hout f' Hin) as (_ & _ & H). apply H. discriminate.
Qed.

End FilterTwice.

(** C2, as amended.  For every diff and every filter options value that
    carries no lineRange (any paths and grep, and any grepContext that is
    an integer), filtering the filtered result again with the same options
    gives the same result; and the second call raises exactly when the
    first one does. *)
Theorem C2_filter_idempotent_without_range :
  forall (newRegExp : RegExpConstructor) (d : list DiffFile) (o : FilterOptions),
    lineRange o = None ->
    bindResult (filterDiffFiles newRegExp d o)
               (fun d' => filterDiffFiles newRegExp d' o)
    = filterDiffFiles newRegExp d o.
Proof.
  intros newRegExp d o Hr. unfold filterDiffFiles.
  destruct (compileGrep newRegExp (grep o)) as [g|]; cbn [bindResult]; [|reflexivity].
  now rewrite filterCompiled_twice.
Qed.

Lemma C2_filter_idempotent_without_range_witness :
  let hd := "@@ -1,6 +1,7 @@" in
  let f := mkFile "src/a/b.ts" ["diff --git a/src/a/b.ts b/src/a/b.ts"]
                  [mkHunk hd [hd; " a"; " b"; " c"; "+needle"; " d"; " e"; " f"] 1 1] in
  let o := mkFilterOptions (Some ["src/a"]) (Some "needle") (Some 1) None in
  filterDiffFiles literalRegExp [f] o
    = Ok [withHunks f [mkHunk hd [hd; " c"; "+needle"; " d"] 1 1]] /\
  bindResult (filterDiffFiles literalRegExp [f] o)
             (fun d' => filterDiffFiles literalRegExp d' o)
  = filterDiffFiles literalRegExp [f] o.
Proof.
  intros hd f o. split; [reflexivity|].
  exact (C2_filter_idempotent_without_range literalRegExp [f] o eq_refl).
Defined.

(** The claim of C2 as it was worded fails with a line range: the slice
    keeps [newStart], so the lines kept by the first call are numbered
    anew from it by the second call and fall out of the range. *)
Lemma C2_counterexample :
  let hd := "@@ -10,5 +10,6 @@" in
  let h := mkHunk hd [hd; " a"; " b"; " c"; " d"; " e"; "+new"] 10 10 in
  let f := mkFile "x.ts" ["diff --git a/x.ts b/x.ts"] [h] in
  let once := [withHunks f [withLines h [hd; "+new"]]] in
  filterDiffFiles literalRegExp [f] (onlyRange 15 15) = Ok once /\
  filterDiffFiles literalRegExp once (onlyRange 15 15) = Ok [withHunks f []] /\
  bindResult (filterDiffFiles literalRegExp [f] (onlyRange 15 15))
             (fun d' => filterDiffFiles literalRegExp d' (onlyRange 15 15))
  <> filterDiffFiles literalRegExp [f] (onlyRange 15 15).
Proof.
  repeat split; try reflexivity. cbv. discriminate.
Qed.

(* ================================================================== *)
(** ** DiffRenderer: counting the lines of the blocks *)

Section BlockLines.

Lemma string_app_assoc (a b c : string) : (a ++ b) ++ c = a ++ b ++ c.
Proof. induction a as [|x a IH]; cbn; [reflexivity | now rewrite IH]. Qed.

Lemma newlines_uint d : newlines (NilEmpty.string_of_uint d) = O.
Proof. induction d; cbn; auto. Qed.

Lemma newlines_numberToString n : newlines (numberToString n) = O.
Proof.
  unfold numberToString, NilZero.string_of_int, NilZero.string_of_uint.
  destruct (Z.to_int n) as [d|d]; destruct d; cbn; auto using newlines_uint.
Qed.

Lemma lineCount_append a b : lineCount (a ++ b) = lineCount a + lineCount b - 1.
Proof. rewrite !lineCount_newlines, newlines_append. lia. Qed.

Lemma lineCount_pos s : 1 <= lineCount s.
Proof. rewrite lineCount_newlines. lia. Qed.

Lemma totalLines_cons b bs : totalLines (b :: bs) = lineCount b + totalLines bs.
Proof. reflexivity. Qed.

Lemma totalLines_app bs cs : totalLines (bs ++ cs) = totalLines bs + totalLines cs.
Proof. unfold totalLines. induction bs as [|b bs IH]; cbn; [reflexivity | lia]. Qed.

Lemma newlines_hunkTitle f h : noLF (path f) -> newlines (hunkTitle f h) = O.
Proof.
  intros Hp. unfold hunkTitle. rewrite !newlines_append, Hp, newlines_numberToString.
  reflexivity.
Qed.

Lemma Forall_firstn {A : Type} (P : A -> Prop) n (l : list A) :
  Forall P l -> Forall P (firstn n l).
Proof.
  intros H; revert n; induction H as [|x l Hx Hl IH]; intros [|n]; cbn; auto.
Qed.

(** A whole block has one line for the title and one for each line of the
    file header and of the hunk. *)
Lemma lineCount_wholeHunkBlock f h :
  parsedFile f -> Forall noLF (lines h) ->
  lineCount (wholeHunkBlock f h) =
  1 + Z.of_nat (List.length (headerLines f)) + Z.of_nat (List.length (lines h)).
Proof.
  intros [Hne _ Hp Hhl _] Hl. unfold wholeHunkBlock.
  rewrite lineCount_newlines, !newlines_append, newlines_hunkTitle by assumption.
  rewrite newlines_join by (apply Forall_app; split; assumption).
  rewrite length_app. change (newlines NL) with 1%nat.
  destruct (headerLines f); [contradiction|]. cbn [List.length]. lia.
Qed.

Lemma lineCount_cutHunkBlock f h k :
  parsedFile f -> Forall noLF (lines h) ->
  (k <= List.length (headerLines f ++ lines h))%nat ->
  lineCount (cutHunkBlock f h k) = 2 + Z.max 1 (Z.of_nat k).
Proof.
  intros [Hne _ Hp Hhl _] Hl Hk. unfold cutHunkBlock.
  rewrite lineCount_newlines, !newlines_append, newlines_hunkTitle by assumption.
  rewrite newlines_join by (apply Forall_firstn, Forall_app; split; assumption).
  rewrite length_firstn, Nat.min_l by assumption.
  change (newlines NL) with 1%nat. change (newlines "... (truncated)") with 0%nat.
  lia.
Qed.

Lemma hunkBlock_whole f h rem :
  hunkTruncated f h rem = false -> hunkBlock f h rem = wholeHunkBlock f h.
Proof.
  intros H. unfold hunkBlock, linesToRender, wholeHunkBlock, hunkTitle. rewrite H.
  now rewrite !string_app_assoc.
Qed.

Lemma hunkBlock_cut f h rem :
  hunkTruncated f h rem = true ->
  hunkBlock f h rem = cutHunkBlock f h (Z.to_nat (Z.max 0 (rem - 1))).
Proof.
  intros H. unfold hunkBlock, linesToRender, cutHunkBlock, hunkTitle, sliceTo. rewrite H.
  now rewrite !string_app_assoc.
Qed.

End BlockLines.

(* ================================================================== *)
(** ** DiffRenderer: what each step does to the state *)

Section RenderSteps.

Variable diffAnchor : string -> string.
Variable options : RenderOptions.

Lemma addDiffBlock_blocks t st : blocks (addDiffBlock t st) = blocks st.
Proof. unfold addDiffBlock. now destruct (_ =? _)%nat. Qed.

Lemma addDiffBlock_counters t st : counters (addDiffBlock t st) = counters st.
Proof. unfold addDiffBlock. now destruct (_ =? _)%nat. Qed.

Lemma linkBlocks_lines f t :
  totalLines (linkBlocks diffAnchor options f t) =
  match linkBlocks diffAnchor options f t with
  | [] => 0
  | b :: _ => lineCount b
  end.
Proof.
  unfold linkBlocks. destruct (givenUrl options); cbn; [lia | reflexivity].
Qed.

(** The hunk step: its text block, then the link block if any. *)
Lemma renderHunk_state f h fl st :
  let rem := maxLines options - shownLines (counters st) in
  let st' := snd (renderHunk diffAnchor options f h fl st) in
  blocks st' = (blocks st ++ hunkBlock f h rem ::
                linkBlocks diffAnchor options f (Some (hunkLinkTarget h)))%list /\
  shownLines (counters st') =
    shownLines (counters st) + lineCount (hunkBlock f h rem) +
    totalLines (linkBlocks diffAnchor options f (Some (hunkLinkTarget h))) /\
  truncated (counters st') = truncated (counters st) || hunkTruncated f h rem /\
  shownHunks (counters st') = shownHunks (counters st) + 1.
Proof.
  intros rem st'. unfold st', renderHunk, linkBlocks. fold rem.
  cbn [snd].
  set (st1 := if hunkTruncated f h rem then setTruncated st else st).
  assert (H1 : blocks st1 = blocks st /\
               shownLines (counters st1) = shownLines (counters st) /\
               shownHunks (counters st1) = shownHunks (counters st) /\
               truncated (counters st1) = truncated (counters st) || hunkTruncated f h rem).
  { unfold st1. destruct (hunkTruncated f h rem); cbn;
      rewrite ?orb_true_r, ?orb_false_r; auto. }
  destruct H1 as (B1 & L1 & N1 & T1).
  set (st2 := incrShownHunks (addBlock (hunkBlock f h rem) st1)).
  set (st3 := if prettyHeaderAdded fl then st2 else addDiffBlock ("  " ++ path f) st2).
  set (st4 := addDiffBlock (join NL (prettyLines h)) st3).
  set (st5 := if diffStarted fl then addDiffBlock EmptyString st4 else st4).
  assert (H5 : blocks st5 = blocks st2 /\ counters st5 = counters st2).
  { unfold st5, st4, st3.
    destruct (diffStarted fl), (prettyHeaderAdded fl);
      rewrite ?addDiffBlock_blocks, ?addDiffBlock_counters; auto. }
  destruct H5 as (B5 & C5).
  destruct (givenUrl options) as [url|]; cbn [blocks counters addBlock shownLines
                                              truncated shownHunks totalLines fold_right];
    rewrite ?B5, ?C5; unfold st2; cbn; rewrite ?B1, ?L1, ?N1, ?T1;
    rewrite <- ?app_assoc; cbn; repeat split; lia.
Qed.

Lemma renderHeaderOnly_state f st :
  let st' := renderHeaderOnly diffAnchor options f st in
  blocks st' = (blocks st ++ headerOnlyBlock f ::
                linkBlocks diffAnchor options f None)%list /\
  shownLines (counters st') =
    shownLines (counters st) + lineCount (headerOnlyBlock f) +
    totalLines (linkBlocks diffAnchor options f None) /\
  truncated (counters st') = truncated (counters st).
Proof.
  intros st'. unfold st', renderHeaderOnly, linkBlocks, headerOnlyBlock.
  set (st1 := addBlock _ st).
  destruct (givenUrl options) as [url|]; cbn;
    rewrite ?addDiffBlock_blocks, ?addDiffBlock_counters; cbn;
    rewrite <- ?app_assoc; cbn; repeat split; lia.
Qed.

(** Induction over the loop of the hunks. *)
Lemma renderHunks_invariant (Inv : RenderState -> Prop) f hs :
  (forall st, Inv st -> Inv (setTruncated st)) ->
  (forall h fl st, In h hs -> Inv st -> budgetReached options st = false ->
                   Inv (snd (renderHunk diffAnchor options f h fl st))) ->
  forall fl st, Inv st -> Inv (snd (renderHunks diffAnchor options f hs fl st)).
Proof.
  intros Htr. induction hs as [|h hs IH]; intros Hstep fl st Hst; cbn [renderHunks];
    [assumption|].
  destruct (budgetReached options st) eqn:Eb; [cbn; auto|].
  destruct (renderHunk diffAnchor options f h fl st) as [fl' st'] eqn:Est.
  apply IH.
  - intros h' fl0 st0 Hin. apply Hstep. now right.
  - change st' with (snd (fl', st')). rewrite <- Est. apply Hstep; auto. now left.
Qed.

(** Induction over the loop of the files. *)
Lemma renderFiles_invariant (Inv : RenderState -> Prop) fs :
  (forall st, Inv st -> Inv (setTruncated st)) ->
  (forall st, Inv st -> Inv (incrShownFiles st)) ->
  (forall p r st, Inv st -> Inv (setSuggested p r st)) ->
  (forall f st, In f fs -> hunks f = [] -> Inv st -> budgetReached options st = false ->
                Inv (renderHeaderOnly diffAnchor options f st)) ->
  (forall f h fl st, In f fs -> In h (hunks f) -> Inv st ->
                     budgetReached options st = false ->
                     Inv (snd (renderHunk diffAnchor options f h fl st))) ->
  forall st, Inv st -> Inv (renderFiles diffAnchor options fs st).
Proof.
  intros Htr Hfiles Hsug. induction fs as [|f fs IH]; intros Hho Hstep st Hst;
    cbn [renderFiles]; [assumption|].
  destruct (budgetReached options st) eqn:Eb; [auto|].
  assert (IH' : forall st0, Inv st0 -> Inv (renderFiles diffAnchor options fs st0)).
  { apply IH.
    - intros f0 st0 Hin. apply Hho. now right.
    - intros f0 h fl st0 Hin. apply Hstep. now right. }
  destruct (isEmpty (hunks f)) eqn:Ee.
  - apply IH', Hho; auto; [now left | now destruct (hunks f)].
  - destruct (renderHunks diffAnchor options f (hunks f) (mkFlags false false false) st)
      as [fl st1] eqn:E1.
    assert (H1 : Inv st1).
    { change st1 with (snd (fl, st1)). rewrite <- E1.
      apply renderHunks_invariant; auto.
      intros h fl0 st0 Hin. apply Hstep; auto. now left. }
    apply IH'.
    destruct (fileShown fl); [apply Hfiles|];
      destruct (truncated (counters st1) && isNewFileDiff f); auto.
Qed.

End RenderSteps.

(* ================================================================== *)
(** ** DiffRenderer: the blocks and the line counter *)

Section RenderBlocks.

Variable diffAnchor : string -> string.
Variable options : RenderOptions.

(** [shownLines] is the number of lines of the blocks pushed so far. *)
Lemma renderFiles_counts fs st :
  shownLines (counters st) = totalLines (blocks st) ->
  shownLines (counters (renderFiles diffAnchor options fs st)) =
  totalLines (blocks (renderFiles diffAnchor options fs st)).
Proof.
  apply (renderFiles_invariant diffAnchor options
           (fun s => shownLines (counters s) = totalLines (blocks s))); auto.
  - intros f s _ _ Hs _.
    destruct (renderHeaderOnly_state diffAnchor options f s) as (B & L & _).
    rewrite B, L, Hs, totalLines_app, totalLines_cons. lia.
  - intros f h fl s _ _ Hs _.
    destruct (renderHunk_state diffAnchor options f h fl s) as (B & L & _).
    rewrite B, L, Hs, totalLines_app, totalLines_cons. lia.
Qed.

Lemma budget_remaining st :
  budgetReached options st = false ->
  0 < maxLines options - shownLines (counters st).
Proof.
  unfold budgetReached. intros H. apply orb_false_iff in H as [_ H].
  apply Z.leb_gt in H. lia.
Qed.

Lemma hunkBlock_shape f h rem :
  0 < rem ->
  hunkBlock f h rem = wholeHunkBlock f h \/
  exists k, (k < List.length (headerLines f ++ lines h))%nat /\
            hunkBlock f h rem = cutHunkBlock f h k.
Proof.
  intros Hrem. destruct (hunkTruncated f h rem) eqn:E.
  - right. exists (Z.to_nat (Z.max 0 (rem - 1))). split; [|now apply hunkBlock_cut].
    unfold hunkTruncated in E. apply Z.ltb_lt in E. lia.
  - left. now apply hunkBlock_whole.
Qed.

(** Every block pushed by the loop is a header-only block, a hunk block
    (whole or cut) or a link block. *)
Lemma renderFiles_blocks fs st :
  Forall (renderedBlock options fs) (blocks st) ->
  Forall (renderedBlock options fs) (blocks (renderFiles diffAnchor options fs st)).
Proof.
  apply (renderFiles_invariant diffAnchor options
           (fun s => Forall (renderedBlock options fs) (blocks s))); auto.
  - intros f s Hf He Hs _.
    destruct (renderHeaderOnly_state diffAnchor options f s) as (B & _).
    rewrite B. apply Forall_app. split; auto.
    constructor; [left; eauto|].
    unfold linkBlocks. destruct (givenUrl options) eqn:Eu; constructor; auto.
    right; right. eexists; split; [congruence | reflexivity].
  - intros f h fl s Hf Hh Hs Hb.
    destruct (renderHunk_state diffAnchor options f h fl s) as (B & _).
    rewrite B. apply Forall_app. split; auto.
    constructor;
      [right; left; exists f, h; auto using hunkBlock_shape, budget_remaining|].
    unfold linkBlocks. destruct (givenUrl options) eqn:Eu; constructor; auto.
    right; right. eexists; split; [congruence | reflexivity].
Qed.

(** Once set, [truncated] stays set. *)
Lemma renderHunks_truncated f hs fl st :
  truncated (counters st) = true ->
  truncated (counters (snd (renderHunks diffAnchor options f hs fl st))) = true.
Proof.
  apply (renderHunks_invariant diffAnchor options
           (fun s => truncated (counters s) = true)); auto.
  intros h fl0 s _ Hs _.
  destruct (renderHunk_state diffAnchor options f h fl0 s) as (_ & _ & T & _).
  now rewrite T, Hs.
Qed.

Lemma renderFiles_truncated fs st :
  truncated (counters st) = true ->
  truncated (counters (renderFiles diffAnchor options fs st)) = true.
Proof.
  apply (renderFiles_invariant diffAnchor options
           (fun s => truncated (counters s) = true)); auto.
  - intros f s _ _ Hs _.
    destruct (renderHeaderOnly_state diffAnchor options f s) as (_ & _ & T).
    now rewrite T.
  - intros f h fl s _ _ Hs _.
    destruct (renderHunk_state diffAnchor options f h fl s) as (_ & _ & T & _).
    now rewrite T, Hs.
Qed.

(** A loop that ends without [truncated] has pushed every block whole. *)
Lemma renderHunks_complete f hs fl st :
  truncated (counters (snd (renderHunks diffAnchor options f hs fl st))) = false ->
  blocks (snd (renderHunks diffAnchor options f hs fl st)) =
  (blocks st ++
   flat_map (fun h => wholeHunkBlock f h ::
                      linkBlocks diffAnchor options f (Some (hunkLinkTarget h))) hs)%list.
Proof.
  revert fl st; induction hs as [|h hs IH]; intros fl st; cbn [renderHunks flat_map].
  - intros _. now rewrite app_nil_r.
  - destruct (budgetReached options st); [cbn; discriminate|].
    destruct (renderHunk diffAnchor options f h fl st) as [fl' st'] eqn:Est.
    intros Hfin. rewrite (IH fl' st' Hfin).
    destruct (renderHunk_state diffAnchor options f h fl st) as (B & _ & T & _).
    rewrite Est in B, T. cbn [snd] in B, T.
    assert (Hst' : truncated (counters st') = false).
    { destruct (truncated (counters st')) eqn:E; auto.
      rewrite (renderHunks_truncated f hs fl' st' E) in Hfin. discriminate. }
    rewrite Hst' in T. symmetry in T. apply orb_false_iff in T as [_ Hcut].
    rewrite B, (hunkBlock_whole _ _ _ Hcut), <- app_assoc. reflexivity.
Qed.

Lemma renderFiles_complete fs st :
  truncated (counters (renderFiles diffAnchor options fs st)) = false ->
  blocks (renderFiles diffAnchor options fs st) =
  (blocks st ++ fullBlocks diffAnchor options fs)%list.
Proof.
  revert st; induction fs as [|f fs IH]; intros st; cbn [renderFiles fullBlocks flat_map].
  - intros _. now rewrite app_nil_r.
  - destruct (budgetReached options st); [cbn; discriminate|].
    unfold fullFileBlocks at 1. fold (fullBlocks diffAnchor options fs).
    destruct (isEmpty (hunks f)).
    + intros Hfin. rewrite (IH _ Hfin).
      destruct (renderHeaderOnly_state diffAnchor options f st) as (B & _).
      rewrite B, <- app_assoc. reflexivity.
    + destruct (renderHunks diffAnchor options f (hunks f) (mkFlags false false false) st)
        as [fl st1] eqn:E1.
      set (st2 := if truncated (counters st1) && isNewFileDiff f
                  then setSuggested (path f)
                                    (computeFileLineRanges f (maxLines options)) st1
                  else st1).
      set (st3 := if fileShown fl then incrShownFiles st2 else st2).
      assert (H3 : blocks st3 = blocks st1 /\
                   truncated (counters st3) = truncated (counters st1)).
      { unfold st3, st2.
        destruct (fileShown fl), (truncated (counters st1) && isNewFileDiff f); auto. }
      destruct H3 as (B3 & T3).
      intros Hfin. rewrite (IH _ Hfin), B3.
      assert (Hst1 : truncated (counters st1) = false).
      { rewrite <- T3. destruct (truncated (counters st3)) eqn:E; auto.
        rewrite (renderFiles_truncated fs st3 E) in Hfin. discriminate. }
      pose proof (renderHunks_complete f (hunks f) (mkFlags false false false) st) as Hc.
      rewrite E1 in Hc. cbn [snd] in Hc. rewrite (Hc Hst1), <- app_assoc. reflexivity.
Qed.

End RenderBlocks.

(* ================================================================== *)
(** ** DiffRenderer: budgets that do not bind *)

Section RenderUnbounded.

Variable diffAnchor : string -> string.
Variable options : RenderOptions.

Lemma newlines_join_ge (ls : list string) :
  (Nat.pred (List.length ls) <= newlines (join NL ls))%nat.
Proof.
  unfold join. induction ls as [|l ls IH]; [cbn; lia|].
  destruct ls as [|l' ls']; [cbn; lia|].
  change (concat NL (l :: l' :: ls')) with (l ++ NL ++ concat NL (l' :: ls')).
  rewrite !newlines_append. change (newlines NL) with 1%nat.
  cbn [List.length Nat.pred] in IH |- *. lia.
Qed.

Lemma lineCount_wholeHunkBlock_ge f h :
  Z.of_nat (List.length (headerLines f ++ lines h)) + 1
  <= lineCount (wholeHunkBlock f h).
Proof.
  unfold wholeHunkBlock. rewrite lineCount_newlines, !newlines_append.
  change (newlines NL) with 1%nat.
  pose proof (newlines_join_ge (headerLines f ++ lines h)). lia.
Qed.

Lemma totalLines_nonneg bs : 0 <= totalLines bs.
Proof.
  induction bs as [|b bs IH]; [cbn; lia|].
  rewrite totalLines_cons. pose proof (lineCount_pos b). lia.
Qed.

Lemma renderHeaderOnly_hunks f st :
  shownHunks (counters (renderHeaderOnly diffAnchor options f st))
  = shownHunks (counters st).
Proof.
  unfold renderHeaderOnly. destruct (givenUrl options); cbn;
    rewrite ?addDiffBlock_counters; reflexivity.
Qed.

Lemma hunkCount_cons f fs :
  hunkCount (f :: fs) = Z.of_nat (List.length (hunks f)) + hunkCount fs.
Proof. reflexivity. Qed.

Lemma hunkCount_nonneg fs : 0 <= hunkCount fs.
Proof. induction fs as [|f fs IH]; [cbn; lia | rewrite hunkCount_cons; lia]. Qed.

Lemma fullOutputLines_cons f fs :
  fullOutputLines diffAnchor options (f :: fs) =
  totalLines (fullFileBlocks diffAnchor options f) +
  fullOutputLines diffAnchor options fs.
Proof. unfold fullOutputLines, fullBlocks. cbn [flat_map]. apply totalLines_app. Qed.

Lemma renderHunks_unbounded f hs fl st :
  truncated (counters st) = false ->
  shownLines (counters st) +
  totalLines (flat_map (fun h => wholeHunkBlock f h ::
                                 linkBlocks diffAnchor options f
                                            (Some (hunkLinkTarget h))) hs)
  <= maxLines options ->
  shownHunks (counters st) + Z.of_nat (List.length hs) <= maxHunks options ->
  truncated (counters (snd (renderHunks diffAnchor options f hs fl st))) = false /\
  shownHunks (counters (snd (renderHunks diffAnchor options f hs fl st)))
  = shownHunks (counters st) + Z.of_nat (List.length hs) /\
  shownLines (counters (snd (renderHunks diffAnchor options f hs fl st)))
  = shownLines (counters st) +
    totalLines (flat_map (fun h => wholeHunkBlock f h ::
                                   linkBlocks diffAnchor options f
                                              (Some (hunkLinkTarget h))) hs).
Proof.
  revert fl st; induction hs as [|h hs IH]; intros fl st Ht Hl Hh;
    cbn [renderHunks flat_map List.length] in *.
  - cbn [snd totalLines fold_right]. repeat split; [assumption | lia | lia].
  - rewrite totalLines_app, totalLines_cons in Hl |- *.
    pose proof (lineCount_wholeHunkBlock_ge f h) as Hge.
    pose proof (totalLines_nonneg
                  (linkBlocks diffAnchor options f (Some (hunkLinkTarget h)))) as Hk.
    pose proof (totalLines_nonneg
                  (flat_map (fun h0 => wholeHunkBlock f h0 ::
                                       linkBlocks diffAnchor options f
                                                  (Some (hunkLinkTarget h0))) hs)) as Hr.
    assert (Hb : budgetReached options st = false).
    { unfold budgetReached. apply orb_false_iff. split; apply Z.leb_gt; lia. }
    rewrite Hb.
    destruct (renderHunk_state diffAnchor options f h fl st) as (_ & L & T & N).
    destruct (renderHunk diffAnchor options f h fl st) as [fl' st'].
    cbn [snd] in L, T, N.
    assert (Hcut : hunkTruncated f h (maxLines options - shownLines (counters st)) = false).
    { unfold hunkTruncated. apply Z.ltb_ge. lia. }
    rewrite Hcut, Ht in T. rewrite (hunkBlock_whole _ _ _ Hcut) in L.
    destruct (IH fl' st') as (T' & N' & L'); [assumption | lia | lia |].
    rewrite T', N', L'. repeat split; lia.
Qed.

(** With budgets that the whole rendering fits in, nothing is cut and the
    line counter ends at [fullOutputLines]. *)
Lemma renderFiles_unbounded fs st :
  truncated (counters st) = false ->
  shownLines (counters st) + fullOutputLines diffAnchor options fs <= maxLines options ->
  shownHunks (counters st) + hunkCount fs < maxHunks options ->
  truncated (counters (renderFiles diffAnchor options fs st)) = false /\
  shownLines (counters (renderFiles diffAnchor options fs st)) =
  shownLines (counters st) + fullOutputLines diffAnchor options fs.
Proof.
  revert st; induction fs as [|f fs IH]; intros st Ht Hl Hh; cbn [renderFiles].
  - unfold fullOutputLines. cbn. split; [assumption | lia].
  - rewrite fullOutputLines_cons in Hl |- *. rewrite hunkCount_cons in Hh.
    pose proof (hunkCount_nonneg fs) as Hn.
    assert (Hr : 0 <= fullOutputLines diffAnchor options fs) by apply totalLines_nonneg.
    unfold fullFileBlocks in Hl |- *.
    destruct (isEmpty (hunks f)) eqn:Ee.
    + rewrite totalLines_cons in Hl |- *.
      pose proof (lineCount_pos (headerOnlyBlock f)) as Hp.
      pose proof (totalLines_nonneg (linkBlocks diffAnchor options f None)) as Hk.
      assert (Hb : budgetReached options st = false).
      { unfold budgetReached. apply orb_false_iff. split; apply Z.leb_gt; lia. }
      rewrite Hb.
      destruct (renderHeaderOnly_state diffAnchor options f st) as (_ & L & T).
      destruct (IH (renderHeaderOnly diffAnchor options f st)) as (T' & L').
      * now rewrite T.
      * rewrite L. lia.
      * rewrite renderHeaderOnly_hunks. lia.
      * rewrite T', L', L. split; [reflexivity | lia].
    + set (fileBlocks := flat_map (fun h => wholeHunkBlock f h ::
                                            linkBlocks diffAnchor options f
                                                       (Some (hunkLinkTarget h)))
                                  (hunks f)) in *.
      assert (Hfirst : 1 <= totalLines fileBlocks).
      { unfold fileBlocks. destruct (hunks f) as [|h0 hs0]; [discriminate|].
        cbn [flat_map]. rewrite totalLines_app, totalLines_cons.
        pose proof (lineCount_pos (wholeHunkBlock f h0)).
        pose proof (totalLines_nonneg
                      (linkBlocks diffAnchor options f (Some (hunkLinkTarget h0)))).
        pose proof (totalLines_nonneg
                      (flat_map (fun h => wholeHunkBlock f h ::
                                          linkBlocks diffAnchor options f
                                                     (Some (hunkLinkTarget h))) hs0)).
        lia. }
      assert (Hb : budgetReached options st = false).
      { unfold budgetReached. apply orb_false_iff. split; apply Z.leb_gt; lia. }
      rewrite Hb.
      destruct (renderHunks_unbounded f (hunks f) (mkFlags false false false) st Ht)
        as (T1 & N1 & L1); [fold fileBlocks; lia | lia |].
      fold fileBlocks in L1.
      destruct (renderHunks diffAnchor options f (hunks f) (mkFlags false false false) st)
        as [fl st1].
      cbn [snd] in T1, N1, L1. rewrite T1. cbn [andb].
      set (st3 := if fileShown fl then incrShownFiles st1 else st1).
      assert (H3 : truncated (counters st3) = false /\
                   shownLines (counters st3) = shownLines (counters st1) /\
                   shownHunks (counters st3) = shownHunks (counters st1)).
      { unfold st3. destruct (fileShown fl); cbn; auto. }
      destruct H3 as (T3 & L3 & N3).
      destruct (IH st3) as (T' & L'); [assumption | lia | lia |].
      rewrite T', L'. split; [reflexivity | lia].
Qed.

(** [fullOutputLines] is what [formatDiffOutput] reports when the budgets
    leave room for everything. *)
Lemma formatDiffOutput_unbounded fs :
  fs <> [] ->
  fullOutputLines diffAnchor options fs <= maxLines options ->
  hunkCount fs < maxHunks options ->
  truncated (info (formatDiffOutput diffAnchor fs options)) = false /\
  shownLines (info (formatDiffOutput diffAnchor fs options))
  = fullOutputLines diffAnchor options fs.
Proof.
  intros Hne Hl Hh. unfold formatDiffOutput. destruct fs as [|f fs]; [contradiction|].
  cbn [isEmpty info]. unfold renderLoop.
  destruct (renderFiles_unbounded (f :: fs) initialRender) as (T & L);
    [reflexivity | cbn [initialRender counters shownLines]; lia
     | cbn [initialRender counters shownHunks]; lia |].
  rewrite T, L. cbn [initialRender counters shownLines]. split; [reflexivity | lia].
Qed.

End RenderUnbounded.

(* ================================================================== *)
(** ** DiffRenderer: how far the line counter can go *)

Section RenderBound.

Variable diffAnchor : string -> string.
Variable options : RenderOptions.

Hypothesis anchor_noLF : forall p, noLF (diffAnchor p).
Hypothesis url_noLF : forall u, prUrl options = Some u -> noLF u.

Lemma newlines_stripTrailingSlash s : noLF s -> noLF (stripTrailingSlash s).
Proof.
  unfold noLF. induction s as [|c s IH]; [auto|].
  destruct s as [|c' s'].
  - cbn [stripTrailingSlash]. destruct (Ascii.eqb c "/"); [reflexivity | auto].
  - change (stripTrailingSlash (String c (String c' s')))
      with (String c (stripTrailingSlash (String c' s'))).
    cbn [newlines] in IH |- *. destruct (Ascii.eqb c LF); [discriminate | exact IH].
Qed.

Lemma newlines_link url p ln sd :
  noLF url -> newlines ("GitHub: " ++ buildGithubLink diffAnchor url p ln sd) = O.
Proof.
  intros Hu. pose proof (newlines_stripTrailingSlash url Hu) as Hs.
  pose proof (anchor_noLF p) as Ha. unfold noLF in *.
  unfold buildGithubLink.
  destruct ln as [n|]; [destruct (0 <? n)|];
    rewrite !newlines_append, Hs, Ha, ?newlines_numberToString;
    destruct sd; reflexivity.
Qed.

Lemma linkBlocks_total f t :
  totalLines (linkBlocks diffAnchor options f t) = linkLines options.
Proof.
  unfold linkBlocks, linkLines.
  destruct (givenUrl options) as [url|] eqn:E; [|reflexivity].
  assert (Hu : noLF url).
  { apply url_noLF. unfold givenUrl in E.
    destruct (prUrl options) as [[|c s]|]; congruence. }
  rewrite totalLines_cons, lineCount_newlines.
  destruct t as [t|]; rewrite newlines_link by assumption; reflexivity.
Qed.

(** A hunk block takes at most two lines more than the lines left. *)
Lemma lineCount_hunkBlock f h rem :
  parsedFile f -> Forall noLF (lines h) -> 0 < rem ->
  lineCount (hunkBlock f h rem) <= rem + 2.
Proof.
  intros Hf Hh Hrem. destruct (hunkTruncated f h rem) eqn:E.
  - rewrite (hunkBlock_cut _ _ _ E). unfold hunkTruncated in E. apply Z.ltb_lt in E.
    rewrite lineCount_cutHunkBlock by (auto; lia). lia.
  - rewrite (hunkBlock_whole _ _ _ E). unfold hunkTruncated in E. apply Z.ltb_ge in E.
    rewrite lineCount_wholeHunkBlock by auto. rewrite length_app in E. lia.
Qed.

Lemma renderFiles_bound fs st :
  Forall hunkedFile fs ->
  shownLines (counters st) <= maxLines options + 2 + linkLines options ->
  shownLines (counters (renderFiles diffAnchor options fs st))
  <= maxLines options + 2 + linkLines options.
Proof.
  intros Hfs.
  apply (renderFiles_invariant diffAnchor options
           (fun s => shownLines (counters s)
                     <= maxLines options + 2 + linkLines options)); auto.
  - intros f s Hf He _ _. rewrite Forall_forall in Hfs.
    destruct (Hfs f Hf) as [_ Hne]. contradiction.
  - intros f h fl s Hf Hh _ Hb. rewrite Forall_forall in Hfs.
    destruct (Hfs f Hf) as [Hp _].
    assert (Hl : Forall noLF (lines h)).
    { pose proof (pf_lines f Hp) as H. rewrite Forall_forall in H. auto. }
    destruct (renderHunk_state diffAnchor options f h fl s) as (_ & L & _).
    rewrite L, linkBlocks_total.
    pose proof (lineCount_hunkBlock f h _ Hp Hl (budget_remaining options s Hb)). lia.
Qed.

End RenderBound.

(** C1, as amended.  Render with [maxLines = 10] a parsed diff in which every
    file has at least one hunk and whose rendering without a budget has 20
    lines.  Then [shownLines] is at most 12, or at most 13 when a base URL
    is given (a cut block still has its title line and the truncation line,
    and a link line may follow it); [truncated] is set; and rendering the
    same input again returns the same text, diffText and info, the renderer
    being a function of its arguments alone. *)
Theorem C1_truncation_bound :
  forall (diffAnchor : string -> string) (fs : list DiffFile)
         (url : option string) (hunkBudget : Z),
    let options := mkRenderOptions url 10 hunkBudget in
    Forall hunkedFile fs ->
    (forall p, noLF (diffAnchor p)) ->
    (forall u, url = Some u -> noLF u) ->
    fullOutputLines diffAnchor options fs = 20 ->
    let out := formatDiffOutput diffAnchor fs options in
    shownLines (info out) <= 12 + linkLines options /\
    truncated (info out) = true /\
    formatDiffOutput diffAnchor fs options = out.
Proof.
  intros diffAnchor fs url hunkBudget options Hfs Ha Hu Hfull out.
  assert (Hout : info out = counters (renderLoop diffAnchor fs options)).
  { unfold out, formatDiffOutput. destruct fs as [|f fs]; [discriminate Hfull|].
    reflexivity. }
  assert (Hbound : shownLines (info out) <= 12 + linkLines options).
  { rewrite Hout. unfold renderLoop.
    pose proof (renderFiles_bound diffAnchor options Ha Hu fs initialRender Hfs) as H.
    cbn [maxLines options] in H.
    assert (H0 : 0 <= linkLines options)
      by (unfold linkLines; destruct (givenUrl options); lia).
    change (10 + 2 + linkLines options) with (12 + linkLines options) in H.
    apply H. change (shownLines (counters initialRender)) with 0. lia. }
  split; [exact Hbound|]. split; [|reflexivity].
  destruct (truncated (info out)) eqn:Et; [reflexivity | exfalso].
  rewrite Hout in Et, Hbound. unfold renderLoop in Et, Hbound.
  pose proof (renderFiles_counts diffAnchor options fs initialRender eq_refl) as Hc.
  rewrite (renderFiles_complete diffAnchor options fs initialRender Et) in Hc.
  cbn [blocks initialRender app] in Hc. fold (fullOutputLines diffAnchor options fs) in Hc.
  assert (H1 : linkLines options <= 1)
    by (unfold linkLines; destruct (givenUrl options); lia).
  lia.
Qed.

Lemma C1_truncation_bound_witness :
  let f := mkFile "p" ["diff --git a/p b/p"]
             [mkHunk "@@ -1,6 +1,6 @@"
                     ["@@ -1,6 +1,6 @@"; " a"; " b"; "-c"; "+C"; " d"; " e"] 1 1;
              mkHunk "@@ -20,7 +20,8 @@"
                     ["@@ -20,7 +20,8 @@"; " k"; " l"; " m"; "+n"; " o"; " q"; " r"; " s"]
                     20 20] in
  let options := mkRenderOptions None 10 8 in
  let out := formatDiffOutput (fun _ => EmptyString) [f] options in
  shownLines (info out) <= 12 + linkLines options /\
  truncated (info out) = true /\
  formatDiffOutput (fun _ => EmptyString) [f] options = out.
Proof.
  intros f options out.
  apply (C1_truncation_bound (fun _ => EmptyString) [f] None 8).
  - repeat constructor; discriminate.
  - intros p. reflexivity.
  - intros u Hu. discriminate Hu.
  - reflexivity.
Defined.

(** The claim of C1 as it was worded fails in two ways.  With hunks, the
    last block is cut but the counter passes the budget: here it ends at 12.
    And a file without hunks (here a binary patch) is rendered whole: the
    counter ends at 20 and [truncated] stays unset. *)
Lemma C1_counterexample :
  let options := mkRenderOptions None 10 8 in
  let hunked :=
    parseUnifiedDiff
      ("diff --git a/p b/p" ++ NL ++
       "@@ -1,6 +1,6 @@" ++ NL ++ " a" ++ NL ++ " b" ++ NL ++ "-c" ++ NL ++ "+C" ++ NL ++
       " d" ++ NL ++ " e" ++ NL ++
       "@@ -20,7 +20,8 @@" ++ NL ++ " k" ++ NL ++ " l" ++ NL ++ " m" ++ NL ++ "+n" ++ NL ++
       " o" ++ NL ++ " q" ++ NL ++ " r" ++ NL ++ " s") in
  let binary :=
    parseUnifiedDiff
      ("diff --git a/img.png b/img.png" ++ NL ++ "index 1a2b..3c4d 100644" ++ NL ++
       "GIT binary patch" ++ NL ++ "literal 640" ++ NL ++
       "z01" ++ NL ++ "z02" ++ NL ++ "z03" ++ NL ++ "z04" ++ NL ++ "z05" ++ NL ++
       "z06" ++ NL ++ "z07" ++ NL ++ "z08" ++ NL ++ "z09" ++ NL ++ "z10" ++ NL ++
       "z11" ++ NL ++ "z12" ++ NL ++ "z13" ++ NL ++ "z14" ++ NL ++ "z15") in
  (fullOutputLines (fun _ => EmptyString) options hunked = 20 /\
   info (formatDiffOutput (fun _ => EmptyString) hunked options)
   = mkInfo 1 2 12 true []) /\
  (fullOutputLines (fun _ => EmptyString) options binary = 20 /\
   info (formatDiffOutput (fun _ => EmptyString) binary options)
   = mkInfo 1 0 20 false []).
Proof. repeat split; reflexivity. Qed.

Section RenderTrace.

Variable diffAnchor : string -> string.
Variable options : RenderOptions.
Variable fs : list DiffFile.

Lemma renderedFrom_app shown bs cs :
  renderedFrom diffAnchor options fs shown bs ->
  renderedFrom diffAnchor options fs (shown + totalLines bs) cs ->
  renderedFrom diffAnchor options fs shown (bs ++ cs).
Proof.
  induction 1 as [shown | shown f rest Hf Hh Hrest IH | shown f h rest Hf Hh Hs Hrest IH];
    intros Hcs.
  - cbn [app]. replace shown with (shown + totalLines []) by (cbn; lia). exact Hcs.
  - rewrite <- app_comm_cons, <- app_assoc. apply renderedHeaderOnly; auto.
    apply IH. rewrite app_comm_cons, totalLines_app in Hcs.
    now rewrite Z.add_assoc in Hcs.
  - rewrite <- app_comm_cons, <- app_assoc. apply renderedHunk; auto.
    apply IH. rewrite app_comm_cons, totalLines_app in Hcs.
    now rewrite Z.add_assoc in Hcs.
Qed.

Lemma hunkBlock_budgeted f h shown :
  shown < maxLines options ->
  hunkBlock f h (maxLines options - shown) = budgetedHunkBlock options shown f h.
Proof.
  intros Hs. unfold budgetedHunkBlock. cbn zeta.
  destruct (hunkTruncated f h (maxLines options - shown)) eqn:E.
  - rewrite (hunkBlock_cut f h _ E). unfold hunkTruncated in E. apply Z.ltb_lt in E.
    destruct (Z.leb_spec (Z.of_nat (List.length (headerLines f ++ lines h)))
                         (maxLines options - shown)); [lia|].
    f_equal. lia.
  - rewrite (hunkBlock_whole f h _ E). unfold hunkTruncated in E. apply Z.ltb_ge in E.
    destruct (Z.leb_spec (Z.of_nat (List.length (headerLines f ++ lines h)))
                         (maxLines options - shown)); [reflexivity | lia].
Qed.

(** The loop pushes its blocks as [renderedFrom] describes them. *)
Lemma renderFiles_trace st :
  renderedFrom diffAnchor options fs 0 (blocks st) /\
  shownLines (counters st) = totalLines (blocks st) ->
  renderedFrom diffAnchor options fs 0 (blocks (renderFiles diffAnchor options fs st)) /\
  shownLines (counters (renderFiles diffAnchor options fs st))
  = totalLines (blocks (renderFiles diffAnchor options fs st)).
Proof.
  apply (renderFiles_invariant diffAnchor options
           (fun s => renderedFrom diffAnchor options fs 0 (blocks s) /\
                     shownLines (counters s) = totalLines (blocks s))); auto.
  - intros f s Hf He [Ht Hs] _.
    destruct (renderHeaderOnly_state diffAnchor options f s) as (B & Ln & _).
    rewrite B, Ln, Hs, totalLines_app, totalLines_cons. split; [|lia].
    apply renderedFrom_app; [assumption|].
    rewrite <- (app_nil_r (linkBlocks diffAnchor options f None)).
    apply renderedHeaderOnly; auto. constructor.
  - intros f h fl s Hf Hh [Ht Hs] Hb.
    destruct (renderHunk_state diffAnchor options f h fl s) as (B & Ln & _).
    rewrite B, Ln, Hs, totalLines_app, totalLines_cons. split; [|lia].
    apply renderedFrom_app; [assumption|].
    pose proof (budget_remaining options s Hb) as Hrem.
    rewrite Hs in *. rewrite hunkBlock_budgeted by lia.
    rewrite <- (app_nil_r (linkBlocks diffAnchor options f (Some (hunkLinkTarget h)))).
    apply renderedHunk; auto; [lia | constructor].
Qed.

End RenderTrace.

(** C10, as amended.  The blocks of the rendered text are, in order, the
    block of a file without hunks or the block of a hunk of a file of the
    input, each followed by its link line when a URL is given.  The block
    of a hunk is the title line followed by all the header lines of its
    file and then the lines of the hunk when these lines are no more than
    the lines that remain of the budget at that point; otherwise it is the
    title, the first lines of that sequence, one fewer than remain (so a cut
    block may hold only part of the header lines), and the truncation line.
    [shownLines] is the number of lines of these blocks, so the header lines
    repeated in every hunk block are counted each time. *)
Theorem C10_hunk_blocks_repeat_header_lines :
  forall (diffAnchor : string -> string) (fs : list DiffFile) (options : RenderOptions),
    let st := renderLoop diffAnchor fs options in
    let out := formatDiffOutput diffAnchor fs options in
    renderedFrom diffAnchor options fs 0 (blocks st) /\
    shownLines (counters st) = totalLines (blocks st) /\
    (fs <> [] ->
     info out = counters st /\
     text out = join (NL ++ NL)
                     (blocks st ++
                      if truncated (counters st)
                      then [noteWithHints (rangeHints (suggestedRanges (counters st)))]
                      else [])) /\
    (forall f h, parsedFile f -> In h (hunks f) ->
                 lineCount (wholeHunkBlock f h) =
                 1 + Z.of_nat (List.length (headerLines f))
                   + Z.of_nat (List.length (lines h))).
Proof.
  intros diffAnchor fs options st out.
  destruct (renderFiles_trace diffAnchor options fs initialRender) as [Ht Hc];
    [split; [constructor | reflexivity]|].
  split; [exact Ht|]. split; [exact Hc|].
  split.
  - intros Hne. unfold out, formatDiffOutput. fold st.
    destruct fs as [|f fs']; [contradiction|]. cbn [isEmpty info text].
    split; [reflexivity|].
    destruct (truncated (counters st)); [reflexivity | now rewrite app_nil_r].
  - intros f h Hf Hh. apply lineCount_wholeHunkBlock; auto.
    pose proof (pf_lines f Hf) as H. rewrite Forall_forall in H. auto.
Qed.

(** The claim of C10 as it was worded fails for a block that the budget
    cuts inside the header lines: with three lines allowed, the block of the
    only hunk holds the first two of the four header lines. *)
Lemma C10_counterexample :
  let fs := parseUnifiedDiff
              ("diff --git a/p b/p" ++ NL ++ "index 1..2 100644" ++ NL ++
               "--- a/p" ++ NL ++ "+++ b/p" ++ NL ++
               "@@ -1,2 +1,2 @@" ++ NL ++ " a" ++ NL ++ "+b") in
  let options := mkRenderOptions None 3 8 in
  let out := formatDiffOutput (fun _ => EmptyString) fs options in
  map headerLines fs
    = [["diff --git a/p b/p"; "index 1..2 100644"; "--- a/p"; "+++ b/p"]] /\
  blocks (renderLoop (fun _ => EmptyString) fs options)
    = ["== p (hunk +1)" ++ NL ++ "diff --git a/p b/p" ++ NL ++ "index 1..2 100644" ++ NL ++
       "... (truncated)"] /\
  shownHunks (info out) = 1 /\
  includes (text out) "--- a/p" = false /\
  includes (text out) "+++ b/p" = false.
Proof. repeat split; reflexivity. Qed.

(* ================================================================== *)
(** ** The filter keeps a parsed diff well formed *)

Section FilterShape.

Lemma Forall_filterIndexed {A : Type} (P : A -> Prop) (p : A -> Z -> bool) i (l : list A) :
  Forall P l -> Forall P (filterIndexed p i l).
Proof.
  intros H; revert i; induction H as [|x l Hx Hl IH]; intros i; cbn [filterIndexed];
    [constructor|].
  destruct (p x i); auto.
Qed.

Lemma sliceLine_Forall (P : string -> Prop) r st l :
  P l -> Forall P (collected st) -> Forall P (collected (sliceLine r st l)).
Proof.
  intros Hl Hst. unfold sliceLine.
  repeat match goal with
         | |- context [if ?b then _ else _] => destruct b
         end; cbn [collected]; auto; apply Forall_app; auto.
Qed.

Lemma sliceFold_Forall (P : string -> Prop) r ls st :
  Forall P ls -> Forall P (collected st) ->
  Forall P (collected (fold_left (sliceLine r) ls st)).
Proof.
  intros Hls; revert st; induction Hls as [|l ls Hl Hls IH]; intros st Hst;
    cbn [fold_left]; auto using sliceLine_Forall.
Qed.

Lemma filterHunk_lines (P : string -> Prop) g c lr h h' :
  Forall P (lines h) -> filterHunk g c lr h = Some h' -> Forall P (lines h').
Proof.
  intros Hh. unfold filterHunk, sliceByRange, applyGrep.
  assert (Hs : forall h1,
             match lr with
             | Some r =>
                 if hasAny (fold_left (sliceLine r) (lines h)
                                      (mkSlice (oldStart h) (newStart h) [] false))
                 then Some (withLines h
                              (collected (fold_left (sliceLine r) (lines h)
                                            (mkSlice (oldStart h) (newStart h) [] false))))
                 else None
             | None => Some h
             end = Some h1 -> Forall P (lines h1)).
  { intros h1. destruct lr as [r|]; [|intros [= <-]; assumption].
    destruct (hasAny _); [|discriminate]. intros [= <-]. cbn [lines withLines].
    apply sliceFold_Forall; auto. }
  destruct (match lr with Some _ => _ | None => _ end) as [h1|]; [|discriminate].
  specialize (Hs h1 eq_refl).
  destruct g as [r|]; [|intros [= <-]; assumption].
  destruct (isEmpty _); [discriminate|].
  destruct (c <=? 0); intros [= <-]; auto.
  cbn [lines withLines]. now apply Forall_filterIndexed.
Qed.

Lemma filterFile_parsed g c lr f : parsedFile f -> parsedFile (filterFile g c lr f).
Proof.
  intros [H1 H2 H3 H4 H5]. rewrite Forall_forall in H2, H5.
  constructor; cbn [filterFile withHunks path headerLines hunks]; auto.
  - apply Forall_forall. intros h' Hh'. apply In_filterMap in Hh' as (h & Hh & E).
    apply filterHunk_headerFirst in E as (_ & _ & _ & E). auto.
  - apply Forall_forall. intros h' Hh'. apply In_filterMap in Hh' as (h & Hh & E).
    eapply filterHunk_lines; eauto.
Qed.

(** What the parser guarantees of a diff still holds of the filtered diff,
    so the facts about rendering a parsed diff apply to it as well. *)
Lemma filterDiffFiles_parsed newRegExp fs o out :
  Forall parsedFile fs -> filterDiffFiles newRegExp fs o = Ok out ->
  Forall parsedFile out.
Proof.
  intros Hfs Hout. rewrite Forall_forall in Hfs |- *.
  destruct (filterDiffFiles_Ok newRegExp fs o out Hout) as (g & -> & _).
  intros f' Hin. destruct (In_filterCompiled g o fs f' Hin) as (f & Hf & -> & _).
  apply filterFile_parsed. auto.
Qed.

End FilterShape.

(* ================================================================== *)
(** ** The fuel of the range loop *)

(** With a chunk size of at least one, the fuel passed by
    [computeFileLineRanges] is never what stops the loop: any larger fuel
    gives the same ranges. *)
Lemma rangeChunks_fuel (chunkSize : Z) :
  1 <= chunkSize ->
  forall fuel fuel' start maxLine,
    (Z.to_nat (maxLine - start + 1) <= fuel)%nat ->
    (Z.to_nat (maxLine - start + 1) <= fuel')%nat ->
    rangeChunks fuel start maxLine chunkSize = rangeChunks fuel' start maxLine chunkSize.
Proof.
  intros Hc. induction fuel as [|fuel IH]; intros fuel' start maxLine H1 H2.
  - destruct fuel' as [|fuel']; [reflexivity|]. cbn [rangeChunks].
    destruct (start <=? maxLine) eqn:E; [|reflexivity].
    apply Z.leb_le in E. lia.
  - destruct fuel' as [|fuel']; cbn [rangeChunks];
      destruct (start <=? maxLine) eqn:E; try reflexivity; apply Z.leb_le in E.
    + lia.
    + f_equal. apply IH; lia.
Qed.

(* ================================================================== *)
(** ** Scenarios *)

Example scenario_end_to_end :
  let out := formatDiffOutput (fun _ => EmptyString)
               (parseUnifiedDiff
                  ("diff --git a/a.txt b/a.txt" ++ NL ++ "@@ -1,2 +1,3 @@" ++ NL ++
                   " ctx" ++ NL ++ "+added" ++ NL ++ " ctx2"))
               (mkRenderOptions None 150 8) in
  shownFiles (info out) = 1 /\ shownHunks (info out) = 1 /\
  truncated (info out) = false /\
  diffText out = "  a.txt" ++ NL ++ " 1 ctx" ++ NL ++ "+2 added" ++ NL ++ " 3 ctx2".
Proof. repeat split; reflexivity. Qed.

Example scenario_empty_filter :
  let parsed := parseUnifiedDiff
                  ("diff --git a/a.txt b/a.txt" ++ NL ++ "@@ -1,2 +1,3 @@" ++ NL ++
                   " ctx" ++ NL ++ "+added" ++ NL ++ " ctx2") in
  filterDiffFiles literalRegExp parsed
                  (mkFilterOptions None (Some "zzz_no_match") None None) = Ok [] /\
  text (formatDiffOutput (fun _ => EmptyString) [] (mkRenderOptions None 150 8))
  = "No diff output (filters removed all hunks).".
Proof. split; reflexivity. Qed.

Example scenario_grep_context_clamp :
  let hd := "@@ -1,4 +1,4 @@" in
  applyGrep (Some (fun l => includes l "hit")) 5
            (mkHunk hd [hd; "+hit"; " a"; " b"; " c"; " d"; " e"; " f"; " g"] 1 1)
  = Some (mkHunk hd [hd; "+hit"; " a"; " b"; " c"; " d"; " e"] 1 1).
Proof. reflexivity. Qed.

Example scenario_link :
  buildGithubLink (fun _ => "0a1b") "https://host/o/r/pull/7/" "src/x.ts" (Some 42) R
  = "https://host/o/r/pull/7/changes#diff-0a1bR42" /\
  buildGithubLink (fun _ => "0a1b") "https://host/o/r/pull/7" "src/x.ts" None R
  = "https://host/o/r/pull/7/changes#diff-0a1b".
Proof. split; reflexivity. Qed.

(* ================================================================== *)
(** ** DiffParser: counting, composing and reading back *)

Section ParserMore.

Lemma join_splitLines (s : string) : join NL (splitLines s) = s.
Proof.
  unfold join. induction s as [|c s IH]; [reflexivity|].
  cbn [splitLines]. destruct (Ascii.eqb c LF) eqn:E.
  - apply Ascii.eqb_eq in E. subst c.
    destruct (splitLines s) as [|l ls] eqn:Es; [now destruct (splitLines_nonempty s)|].
    change (concat NL (EmptyString :: l :: ls)) with (NL ++ concat NL (l :: ls)).
    now rewrite IH.
  - destruct (splitLines s) as [|l ls] eqn:Es; [now destruct (splitLines_nonempty s)|].
    destruct ls as [|l' ls'].
    + cbn [concat] in IH |- *. now rewrite IH.
    + change (concat NL (String c l :: l' :: ls'))
        with (String c (l ++ NL ++ concat NL (l' :: ls'))).
      change (concat NL (l :: l' :: ls')) with (l ++ NL ++ concat NL (l' :: ls')) in IH.
      now rewrite IH.
Qed.

Lemma splitLines_append_NL (s t : string) :
  splitLines (s ++ NL ++ t) = (splitLines s ++ splitLines t)%list.
Proof.
  induction s as [|c s IH]; [reflexivity|].
  cbn [append splitLines]. fold (append s (NL ++ t)). rewrite IH.
  destruct (Ascii.eqb c LF); [reflexivity|].
  destruct (splitLines s) as [|l ls] eqn:Es; [now destruct (splitLines_nonempty s)|].
  reflexivity.
Qed.

Lemma splitLines_prefix (p s : string) :
  newlines p = O ->
  exists l rest, splitLines s = l :: rest /\ splitLines (p ++ s) = (p ++ l) :: rest.
Proof.
  intros Hp. destruct (splitLines s) as [|l rest] eqn:Es;
    [now destruct (splitLines_nonempty s)|].
  exists l, rest. split; [reflexivity|].
  induction p as [|c p IH]; [exact Es|].
  cbn [newlines] in Hp. cbn [append splitLines].
  destruct (Ascii.eqb c LF); [discriminate|].
  now rewrite (IH Hp).
Qed.

(** A text that begins with the marker has a first line that does. *)
Lemma splitLines_marker_first (t : string) :
  startsWith t "diff --git " = true ->
  exists l rest, splitLines t = l :: rest /\ startsWith l "diff --git " = true.
Proof.
  intros H. rewrite (startsWith_split t _ H).
  destruct (splitLines_prefix "diff --git "
              (sliceFrom (String.length "diff --git ") t) eq_refl)
    as (l & rest & _ & E).
  exists ("diff --git " ++ l), rest. split; [exact E | apply startsWith_append].
Qed.

Lemma parseLines_length ls : List.length (parseLines ls) = fileMarkers ls.
Proof.
  unfold parseLines. rewrite entryCount_pushCurrent, entryCount_fold. reflexivity.
Qed.

Lemma fileMarkers_app a b : fileMarkers (a ++ b) = (fileMarkers a + fileMarkers b)%nat.
Proof. unfold fileMarkers. now rewrite filter_app, length_app. Qed.

(** The pushed files take no part in what a line does. *)
Lemma parseLine_prepend fs st l :
  parseLine (prependFiles fs st) l = prependFiles fs (parseLine st l).
Proof.
  destruct st as [F c h].
  unfold parseLine, prependFiles, pushCurrent. cbn [files currentFile currentHunk].
  destruct (startsWith l "diff --git ").
  - destruct c; cbn [files currentFile currentHunk]; now rewrite ?app_assoc.
  - destruct c as [cf|]; [|reflexivity].
    destruct (startsWith l "@@ "); [reflexivity|].
    destruct h; reflexivity.
Qed.

Lemma parseFold_prepend fs ls st :
  fold_left parseLine ls (prependFiles fs st) = prependFiles fs (fold_left parseLine ls st).
Proof.
  revert st; induction ls as [|l ls IH]; intros st; cbn [fold_left]; [reflexivity|].
  now rewrite parseLine_prepend, IH.
Qed.

Lemma parseLine_marker st m :
  startsWith m "diff --git " = true ->
  parseLine st m
  = prependFiles (files (pushCurrent st)) (mkParse [] (Some (openFile m)) false).
Proof.
  intros Hm. unfold parseLine, prependFiles, openFile. rewrite Hm.
  cbn [files currentFile currentHunk]. now rewrite app_nil_r.
Qed.

Lemma parseLines_app_marker a m b :
  startsWith m "diff --git " = true ->
  parseLines (a ++ m :: b) = (parseLines a ++ parseLines (m :: b))%list.
Proof.
  intros Hm. unfold parseLines. rewrite fold_left_app. cbn [fold_left].
  rewrite !(parseLine_marker _ m Hm), !parseFold_prepend.
  change (files (pushCurrent (mkParse [] None false))) with (@nil DiffFile).
  set (stb := fold_left parseLine b _).
  unfold pushCurrent at 1 3 4, prependFiles. cbn [files currentFile currentHunk app].
  destruct (currentFile stb); now rewrite ?app_assoc.
Qed.

Lemma parseLines_no_marker a : fileMarkers a = O -> parseLines a = [].
Proof.
  intros H. pose proof (parseLines_length a) as Hl. rewrite H in Hl.
  destruct (parseLines a); [reflexivity | discriminate].
Qed.

Lemma pushToLastHunk_lines l hs :
  hs <> [] -> flat_map lines (pushToLastHunk l hs) = (flat_map lines hs ++ [l])%list.
Proof.
  induction hs as [|h hs IH]; [contradiction|]. intros _.
  destruct hs as [|h' hs'].
  - cbn. now rewrite !app_nil_r.
  - change (pushToLastHunk l (h :: h' :: hs')) with (h :: pushToLastHunk l (h' :: hs')).
    cbn [flat_map] in IH |- *. rewrite IH by discriminate. now rewrite app_assoc.
Qed.

Lemma pushToLastHunk_nonempty l hs : hs <> [] -> pushToLastHunk l hs <> [].
Proof. destruct hs as [|h [|h' hs']]; [contradiction | discriminate | discriminate]. Qed.

Lemma diffLines_app a b : diffLines (a ++ b) = (diffLines a ++ diffLines b)%list.
Proof. unfold diffLines. apply flat_map_app. Qed.

Lemma stateLines_pushCurrent st : diffLines (files (pushCurrent st)) = stateLines st.
Proof.
  unfold pushCurrent, stateLines. cbn [files].
  destruct (currentFile st); [|now rewrite app_nil_r].
  rewrite diffLines_app. cbn. now rewrite app_nil_r.
Qed.

(** Once a file is open, every line is stored behind the lines stored so
    far. *)
Lemma stateLines_parseLine st l :
  currentFile st <> None -> hunkFlagSound st ->
  stateLines (parseLine st l) = (stateLines st ++ [l])%list /\
  currentFile (parseLine st l) <> None /\ hunkFlagSound (parseLine st l).
Proof.
  intros Hc Hs. destruct (startsWith l "diff --git ") eqn:Hm.
  - rewrite (parseLine_marker st l Hm).
    split; [|split; [discriminate | reflexivity]].
    unfold stateLines, prependFiles. cbn [files currentFile].
    rewrite app_nil_r, stateLines_pushCurrent. reflexivity.
  - unfold parseLine. rewrite Hm.
    destruct st as [F [cf|] h]; [|contradiction].
    unfold hunkFlagSound in Hs. cbn [currentFile currentHunk files] in Hs |- *.
    destruct (startsWith l "@@ ").
    + split; [|split; [discriminate|]].
      * unfold stateLines, fileLines.
        cbn [files currentFile headerLines hunks withHunks].
        rewrite flat_map_app. cbn [flat_map lines]. now rewrite app_nil_r, !app_assoc.
      * unfold hunkFlagSound. cbn [currentFile currentHunk hunks withHunks].
        now destruct (hunks cf).
    + destruct h.
      * assert (Hne : hunks cf <> []) by (destruct (hunks cf); discriminate).
        split; [|split; [discriminate|]].
        -- unfold stateLines, fileLines.
           cbn [files currentFile headerLines hunks withHunks].
           now rewrite (pushToLastHunk_lines l _ Hne), !app_assoc.
        -- unfold hunkFlagSound. cbn [currentFile currentHunk hunks withHunks].
           pose proof (pushToLastHunk_nonempty l _ Hne) as Hn.
           now destruct (pushToLastHunk l (hunks cf)).
      * assert (He : hunks cf = []) by (destruct (hunks cf); [reflexivity | discriminate]).
        split; [|split; [discriminate|]].
        -- unfold stateLines, fileLines.
           cbn [files currentFile headerLines hunks]. rewrite He.
           cbn [flat_map]. now rewrite !app_nil_r, !app_assoc.
        -- unfold hunkFlagSound. cbn [currentFile currentHunk hunks]. now rewrite He.
Qed.

Lemma stateLines_fold ls st :
  currentFile st <> None -> hunkFlagSound st ->
  stateLines (fold_left parseLine ls st) = (stateLines st ++ ls)%list.
Proof.
  revert st; induction ls as [|l ls IH]; intros st Hc Hs; cbn [fold_left].
  - now rewrite app_nil_r.
  - destruct (stateLines_parseLine st l Hc Hs) as (E & Hc' & Hs').
    rewrite (IH _ Hc' Hs'), E, <- app_assoc. reflexivity.
Qed.

Lemma diffLines_parseLines_marker m b :
  startsWith m "diff --git " = true -> diffLines (parseLines (m :: b)) = m :: b.
Proof.
  intros Hm. unfold parseLines. cbn [fold_left]. rewrite stateLines_pushCurrent.
  set (st1 := parseLine _ m).
  assert (H1 : currentFile st1 <> None /\ hunkFlagSound st1 /\ stateLines st1 = [m]).
  { unfold st1. rewrite (parseLine_marker _ m Hm). repeat split. discriminate. }
  destruct H1 as (Hc & Hs & E).
  now rewrite (stateLines_fold b st1 Hc Hs), E.
Qed.

End ParserMore.

(** X1.  The parser returns one file entry for each line of the input that
    begins with the file marker, however the other lines look. *)
Theorem parse_one_entry_per_marker :
  forall diff : string,
    List.length (parseUnifiedDiff diff) = fileMarkers (splitLines diff).
Proof. intros diff. apply parseLines_length. Qed.

(** X2.  Parsing two texts joined by a line feed, the second of which
    begins with the file marker, gives the entries of the first followed by
    the entries of the second; when the first holds no marker line it
    contributes nothing. *)
Theorem parse_concatenation :
  forall t1 t2 : string,
    startsWith t2 "diff --git " = true ->
    parseUnifiedDiff (t1 ++ NL ++ t2)
    = (parseUnifiedDiff t1 ++ parseUnifiedDiff t2)%list /\
    (fileMarkers (splitLines t1) = O ->
     parseUnifiedDiff (t1 ++ NL ++ t2) = parseUnifiedDiff t2).
Proof.
  intros t1 t2 H2.
  destruct (splitLines_marker_first t2 H2) as (m & b & E & Hm).
  assert (Happ : parseUnifiedDiff (t1 ++ NL ++ t2)
                 = (parseUnifiedDiff t1 ++ parseUnifiedDiff t2)%list).
  { unfold parseUnifiedDiff. rewrite splitLines_append_NL, E.
    now apply parseLines_app_marker. }
  split; [exact Happ|].
  intros H0. rewrite Happ. unfold parseUnifiedDiff at 1.
  now rewrite (parseLines_no_marker _ H0).
Qed.

Lemma parse_concatenation_witness :
  parseUnifiedDiff (("junk" ++ NL ++ "more junk") ++ NL ++
                    ("diff --git a/x b/x" ++ NL ++ "@@ -1 +1 @@" ++ NL ++ "+y"))
  = parseUnifiedDiff ("diff --git a/x b/x" ++ NL ++ "@@ -1 +1 @@" ++ NL ++ "+y").
Proof.
  exact (proj2 (parse_concatenation ("junk" ++ NL ++ "more junk")
                  ("diff --git a/x b/x" ++ NL ++ "@@ -1 +1 @@" ++ NL ++ "+y") eq_refl)
               eq_refl).
Defined.

(** X3.  The parser loses no line of a text that begins with the file
    marker: the header lines and hunk lines of the entries, read in order
    and joined by line feeds, are the text again. *)
Theorem parse_keeps_every_line :
  forall diff : string,
    startsWith diff "diff --git " = true ->
    join NL (diffLines (parseUnifiedDiff diff)) = diff.
Proof.
  intros diff H.
  destruct (splitLines_marker_first diff H) as (m & b & E & Hm).
  unfold parseUnifiedDiff. rewrite E, (diffLines_parseLines_marker m b Hm), <- E.
  apply join_splitLines.
Qed.

Lemma parse_keeps_every_line_witness :
  join NL (diffLines (parseUnifiedDiff
             ("diff --git a/x b/x" ++ NL ++ "index 1..2" ++ NL ++ "@@ -1 +1 @@" ++ NL ++
              "-a" ++ NL ++ "+b" ++ NL ++ "diff --git a/y b/y" ++ NL)))
  = "diff --git a/x b/x" ++ NL ++ "index 1..2" ++ NL ++ "@@ -1 +1 @@" ++ NL ++
    "-a" ++ NL ++ "+b" ++ NL ++ "diff --git a/y b/y" ++ NL.
Proof.
  exact (parse_keeps_every_line
           ("diff --git a/x b/x" ++ NL ++ "index 1..2" ++ NL ++ "@@ -1 +1 @@" ++ NL ++
            "-a" ++ NL ++ "+b" ++ NL ++ "diff --git a/y b/y" ++ NL) eq_refl).
Defined.

(* ================================================================== *)
(** ** Decimal numerals *)

Section Decimals.

Lemma digitsFold_acc d p :
  fold_left (fun acc c => 10 * acc + (Z.of_nat (nat_of_ascii c) - 48))
            (list_ascii_of_string (NilEmpty.string_of_uint d)) (Z.pos p)
  = Z.pos (Pos.of_uint_acc d p).
Proof.
  revert p; induction d; intros p; cbn [NilEmpty.string_of_uint list_ascii_of_string
                                       fold_left Pos.of_uint_acc];
    [reflexivity
    | rewrite <- IHd; f_equal;
      match goal with
      | |- context [nat_of_ascii ?c] =>
          let v := eval vm_compute in (Z.of_nat (nat_of_ascii c)) in
          change (Z.of_nat (nat_of_ascii c)) with v
      end; lia ..].
Qed.

Lemma digitsFold_uint d :
  fold_left (fun acc c => 10 * acc + (Z.of_nat (nat_of_ascii c) - 48))
            (list_ascii_of_string (NilEmpty.string_of_uint d)) 0
  = Z.of_N (Pos.of_uint d).
Proof.
  induction d; cbn [NilEmpty.string_of_uint list_ascii_of_string fold_left Pos.of_uint];
    [reflexivity | exact IHd | apply digitsFold_acc ..].
Qed.

Lemma digitsValue_uint d :
  digitsValue (NilZero.string_of_uint d) = Z.of_N (Pos.of_uint d).
Proof.
  unfold digitsValue. destruct d; try apply digitsFold_uint. reflexivity.
Qed.

Lemma digitsValue_numberToString n :
  0 <= n -> digitsValue (numberToString n) = n.
Proof.
  intros Hn. unfold numberToString.
  rewrite <- (DecimalZ.of_to n) at 2.
  destruct n as [|p|p]; [reflexivity | | lia].
  cbn [Z.to_int NilZero.string_of_int Z.of_int]. rewrite digitsValue_uint.
  reflexivity.
Qed.

(** The integers up to [2 ^ 53] are numbers of the host as they are. *)
Lemma toDouble_exact n : 0 <= n <= 2 ^ 53 -> toDouble n = n.
Proof.
  intros [Hlo Hhi]. destruct (Z.eq_dec n (2 ^ 53)) as [-> | Hne]; [reflexivity|].
  unfold toDouble.
  assert (Hlog : Z.log2 n < 53).
  { destruct (Z.eq_dec n 0) as [-> | Hz]; [cbn; lia|].
    apply Z.log2_lt_pow2; lia. }
  destruct (Z.leb_spec (Z.log2 n - 52) 0); [reflexivity | lia].
Qed.

(** Reading the numeral of a number that the host holds exactly gives the
    number. *)
Lemma digitsToNumber_numberToString n :
  0 <= n <= 2 ^ 53 -> digitsToNumber (numberToString n) = n.
Proof.
  intros Hn. unfold digitsToNumber.
  rewrite digitsValue_numberToString by lia. now apply toDouble_exact.
Qed.

Lemma spanDigits_uint d rest :
  fst (spanDigits rest) = EmptyString ->
  spanDigits (NilEmpty.string_of_uint d ++ rest) = (NilEmpty.string_of_uint d, rest).
Proof.
  intros Hr. induction d; cbn [NilEmpty.string_of_uint append];
    [ destruct rest as [|c r]; [reflexivity|];
      cbn [spanDigits] in Hr |- *; destruct (isDigit c); [|reflexivity];
      destruct (spanDigits r); discriminate
    | cbn [spanDigits]; change (isDigit _) with true; cbn iota; now rewrite IHd .. ].
Qed.

Lemma numeral_nonempty n : 0 <= n -> exists c s, numberToString n = String c s.
Proof.
  intros Hn. unfold numberToString. destruct n as [|p|p]; [cbn; eauto | | lia].
  cbn [Z.to_int NilZero.string_of_int]. pose proof (DecimalPos.Unsigned.to_uint_nonnil p) as H.
  unfold NilZero.string_of_uint. destruct (Pos.to_uint p); [contradiction | cbn; eauto ..].
Qed.

(** The digits of a numeral are read as far as the numeral goes. *)
Lemma spanDigits_numberToString n rest :
  0 <= n -> fst (spanDigits rest) = EmptyString ->
  spanDigits (numberToString n ++ rest) = (numberToString n, rest).
Proof.
  intros Hn Hr. unfold numberToString. destruct n as [|p|p]; [| | lia].
  - cbn [Z.to_int NilZero.string_of_int]. change (NilZero.string_of_uint Decimal.zero) with "0".
    cbn [append spanDigits]. change (isDigit "0") with true. cbn iota.
    destruct rest as [|c r]; [reflexivity|].
    cbn [spanDigits] in Hr |- *. destruct (isDigit c); [|reflexivity].
    destruct (spanDigits r); discriminate.
  - cbn [Z.to_int NilZero.string_of_int].
    pose proof (DecimalPos.Unsigned.to_uint_nonnil p) as H.
    unfold NilZero.string_of_uint.
    destruct (Pos.to_uint p) eqn:E; [contradiction | rewrite <- E; now apply spanDigits_uint ..].
Qed.

End Decimals.

(* ================================================================== *)
(** ** DiffParser: what is read off well-formed lines *)

Section ParserReads.

Lemma list_ascii_append a b :
  list_ascii_of_string (a ++ b) = (list_ascii_of_string a ++ list_ascii_of_string b)%list.
Proof. induction a as [|c a IH]; cbn; [reflexivity | now rewrite IH]. Qed.

Lemma noLineTerminator_append a b :
  noLineTerminator (a ++ b) = noLineTerminator a && noLineTerminator b.
Proof. unfold noLineTerminator. now rewrite list_ascii_append, forallb_app. Qed.

Lemma diffGitNewPath_no_space old new :
  noSpace old = true -> new <> EmptyString ->
  diffGitNewPath (old ++ " b/" ++ new) = Some new.
Proof.
  intros Hs Hn. induction old as [|c old IH].
  - cbn [append]. cbn [diffGitNewPath startsWith sliceFrom].
    rewrite !Ascii.eqb_refl. cbn [andb].
    destruct new as [|x new']; [contradiction | reflexivity].
  - unfold noSpace in Hs. cbn [list_ascii_of_string forallb] in Hs.
    apply andb_true_iff in Hs as [Hc Hs].
    cbn [append diffGitNewPath startsWith].
    rewrite Ascii.eqb_sym. apply negb_true_iff in Hc. rewrite Hc. cbn [andb].
    apply IH, Hs.
Qed.

Lemma diffGitExec_well_formed old new :
  old <> EmptyString -> noSpace old = true -> new <> EmptyString ->
  noLineTerminator old = true -> noLineTerminator new = true ->
  diffGitExec ("diff --git a/" ++ old ++ " b/" ++ new) = Some new.
Proof.
  intros Ho Hs Hn Hto Htn. unfold diffGitExec.
  rewrite startsWith_append.
  change 13%nat with (String.length "diff --git a/"). rewrite sliceFrom_append.
  rewrite !noLineTerminator_append, Hto, Htn. cbn [andb noLineTerminator].
  change (noLineTerminator " b/") with true. cbn [andb].
  destruct old as [|c old']; [contradiction|]. cbn [append].
  apply diffGitNewPath_no_space; auto.
  unfold noSpace in Hs |- *. cbn [list_ascii_of_string forallb] in Hs.
  now apply andb_true_iff in Hs as [_ Hs].
Qed.

Lemma expect_append p s : expect (p ++ s) p = Some s.
Proof. unfold expect. now rewrite startsWith_append, sliceFrom_append. Qed.

Lemma skipCount_withCount count rest :
  countOk count -> fst (spanDigits rest) = EmptyString ->
  (exists r, rest = String " " r) ->
  skipCount (withCount count rest) = rest.
Proof.
  intros Hc Hr (r & ->). destruct count as [n|]; [|reflexivity].
  cbn [withCount append skipCount]. rewrite Ascii.eqb_refl.
  rewrite (spanDigits_numberToString n _ Hc Hr).
  destruct (numeral_nonempty n Hc) as (c & s & ->). reflexivity.
Qed.

Lemma withCount_no_digit count rest :
  (exists r, rest = String " " r) -> fst (spanDigits (withCount count rest)) = EmptyString.
Proof. intros (r & ->). destruct count; reflexivity. Qed.

Lemma hunkHeaderAt_steps s s1 d1 s2 s4 d2 s5 r :
  expect s "@@ -" = Some s1 -> spanDigits s1 = (d1, s2) -> d1 <> EmptyString ->
  expect (skipCount s2) " +" = Some s4 -> spanDigits s4 = (d2, s5) ->
  d2 <> EmptyString -> expect (skipCount s5) " @@" = Some r ->
  hunkHeaderAt s = Some (digitsToNumber d1, digitsToNumber d2).
Proof.
  intros E1 E2 N1 E3 E4 N2 E5. unfold hunkHeaderAt. rewrite E1, E2.
  destruct d1 as [|x1 d1]; [contradiction|]. rewrite E3, E4.
  destruct d2 as [|x2 d2]; [contradiction|]. now rewrite E5.
Qed.

Lemma hunkHeaderAt_text a b c d tail :
  0 <= a <= 2 ^ 53 -> countOk b -> 0 <= c <= 2 ^ 53 -> countOk d ->
  hunkHeaderAt (hunkHeaderText a b c d tail) = Some (a, c).
Proof.
  intros Ha' Hb Hc' Hd.
  assert (Ha : 0 <= a) by lia. assert (Hc : 0 <= c) by lia.
  rewrite <- (digitsToNumber_numberToString a Ha') at 2.
  rewrite <- (digitsToNumber_numberToString c Hc') at 2.
  unfold hunkHeaderText.
  eapply hunkHeaderAt_steps.
  - apply expect_append.
  - apply (spanDigits_numberToString a _ Ha), withCount_no_digit.
    eexists; reflexivity.
  - destruct (numeral_nonempty a Ha) as (x & s & ->). discriminate.
  - rewrite skipCount_withCount
      by (first [assumption | reflexivity | eexists; reflexivity]).
    apply expect_append.
  - apply (spanDigits_numberToString c _ Hc), withCount_no_digit.
    eexists; reflexivity.
  - destruct (numeral_nonempty c Hc) as (x & s & ->). discriminate.
  - rewrite skipCount_withCount
      by (first [assumption | reflexivity | eexists; reflexivity]).
    apply expect_append.
Qed.

Lemma hunkHeaderExec_text a b c d tail :
  0 <= a <= 2 ^ 53 -> countOk b -> 0 <= c <= 2 ^ 53 -> countOk d ->
  hunkHeaderExec (hunkHeaderText a b c d tail) = Some (a, c).
Proof.
  intros Ha Hb Hc Hd.
  pose proof (hunkHeaderAt_text a b c d tail Ha Hb Hc Hd) as H.
  destruct (hunkHeaderText a b c d tail); cbn [hunkHeaderExec]; now rewrite H.
Qed.

Lemma pushToLastHunk_numbered l hs :
  Forall startsFromHeader hs -> Forall startsFromHeader (pushToLastHunk l hs).
Proof.
  induction 1 as [|h hs Hh Hhs IH]; [constructor|].
  cbn [pushToLastHunk]. destruct hs as [|h' hs']; constructor; auto.
Qed.

Lemma numberedState_parseLine st l : numberedState st -> numberedState (parseLine st l).
Proof.
  intros [Hf Hc]. unfold parseLine.
  destruct (startsWith l "diff --git ").
  - split; cbn [files currentFile hunks]; [|constructor].
    unfold pushCurrent. cbn [files]. destruct (currentFile st); auto.
    apply Forall_app; split; auto.
  - destruct (currentFile st) as [cf|] eqn:Ecf; [|split; [assumption | now rewrite Ecf]].
    destruct (startsWith l "@@ "); [|destruct (currentHunk st)];
      split; cbn [files currentFile hunks withHunks]; auto.
    + apply Forall_app; split; auto. constructor; [|constructor].
      unfold startsFromHeader. cbn [oldStart newStart header].
      destruct (hunkHeaderExec l) as [[o n]|]; reflexivity.
    + now apply pushToLastHunk_numbered.
Qed.

Lemma parseUnifiedDiff_numbered diff f h :
  In f (parseUnifiedDiff diff) -> In h (hunks f) -> startsFromHeader h.
Proof.
  assert (H : forall ls st, numberedState st -> numberedState (fold_left parseLine ls st)).
  { induction ls as [|l ls IH]; intros st Hst; cbn [fold_left]; auto.
    apply IH, numberedState_parseLine, Hst. }
  unfold parseUnifiedDiff, parseLines. intros Hf Hh.
  destruct (H (splitLines diff) (mkParse [] None false)) as [Hfiles Hcur];
    [split; [constructor | exact I]|].
  set (st := fold_left parseLine (splitLines diff) _) in *.
  assert (Hall : Forall (fun f => Forall startsFromHeader (hunks f))
                        (files (pushCurrent st))).
  { unfold pushCurrent. cbn [files]. destruct (currentFile st); auto.
    apply Forall_app; split; auto. }
  rewrite Forall_forall in Hall. specialize (Hall f Hf).
  rewrite Forall_forall in Hall. auto.
Qed.

End ParserReads.

(** X4.  A marker line [diff --git a/<old> b/<new>], with an old path that
    holds no space and neither path holding a carriage return, opens an
    entry whose path is the new path. *)
Theorem parse_path_is_new_side :
  forall (diff : string) (pre : list string) (old new : string) (post : list string),
    splitLines diff = (pre ++ markerLine old new :: post)%list ->
    old <> EmptyString -> noSpace old = true -> new <> EmptyString ->
    noLineTerminator old = true -> noLineTerminator new = true ->
    exists f,
      nth_error (parseUnifiedDiff diff) (fileMarkers pre) = Some f /\
      path f = new /\
      nth_error (headerLines f) 0 = Some (markerLine old new).
Proof.
  intros diff pre old new post Hsplit Ho Hs Hn Hto Htn.
  destruct (parseLines_marker pre (markerLine old new) post)
    as (f & Hnth & Hp & Hh); [reflexivity|].
  unfold markerLine in Hp at 1.
  rewrite (diffGitExec_well_formed old new Ho Hs Hn Hto Htn) in Hp.
  exists f. unfold parseUnifiedDiff. rewrite Hsplit. auto.
Qed.

Lemma parse_path_is_new_side_witness :
  exists f,
    nth_error (parseUnifiedDiff ("diff --git a/src/old.ts b/src/new name.ts" ++ NL ++
                                 "rename from src/old.ts")) 0 = Some f /\
    path f = "src/new name.ts" /\
    nth_error (headerLines f) 0 = Some (markerLine "src/old.ts" "src/new name.ts").
Proof.
  exact (parse_path_is_new_side
           ("diff --git a/src/old.ts b/src/new name.ts" ++ NL ++ "rename from src/old.ts")
           [] "src/old.ts" "src/new name.ts" ["rename from src/old.ts"]
           eq_refl ltac:(discriminate) eq_refl ltac:(discriminate) eq_refl eq_refl).
Defined.

(** X5.  A hunk of a parsed diff whose header line reads
    [@@ -<a>[,<b>] +<c>[,<d>] @@...], the numbers written in decimal, not
    negative and at most [2 ^ 53] (so that the host reads them exactly), has
    [oldStart = a] and [newStart = c]; the counts are not used. *)
Theorem parse_reads_hunk_starts :
  forall (diff : string) (f : DiffFile) (h : DiffHunk)
         (a : Z) (b : option Z) (c : Z) (d : option Z) (tail : string),
    In f (parseUnifiedDiff diff) -> In h (hunks f) ->
    header h = hunkHeaderText a b c d tail ->
    0 <= a <= 2 ^ 53 -> countOk b -> 0 <= c <= 2 ^ 53 -> countOk d ->
    oldStart h = a /\ newStart h = c.
Proof.
  intros diff f h a b c d tail Hf Hh Hhd Ha Hb Hc Hd.
  pose proof (parseUnifiedDiff_numbered diff f h Hf Hh) as H.
  unfold startsFromHeader in H.
  rewrite Hhd, (hunkHeaderExec_text a b c d tail Ha Hb Hc Hd) in H.
  now injection H.
Qed.

Lemma parse_reads_hunk_starts_witness :
  let h := mkHunk "@@ -120,7 +131 @@ fn main()" ["@@ -120,7 +131 @@ fn main()"; "+x"]
                  120 131 in
  oldStart h = 120 /\ newStart h = 131.
Proof.
  intros h.
  apply (parse_reads_hunk_starts
           ("diff --git a/m b/m" ++ NL ++ "@@ -120,7 +131 @@ fn main()" ++ NL ++ "+x")
           (mkFile "m" ["diff --git a/m b/m"] [h]) h
           120 (Some 7) 131 None " fn main()");
    try reflexivity; try (now left); cbn; lia.
Defined.

(** Beyond [2 ^ 53] the start that is read is the nearest number of the
    host, not the numeral: the hunk below starts, for the parser, at
    9007199254740992. *)
Example parse_rounds_large_start :
  map (fun f => map oldStart (hunks f))
      (parseUnifiedDiff ("diff --git a/m b/m" ++ NL ++
                         "@@ -9007199254740993 +1 @@" ++ NL ++ "+x"))
  = [[9007199254740992]].
Proof. reflexivity. Qed.

(* ================================================================== *)
(** ** DiffFilter: what the result is made of *)

Section FilterReduces.

Lemma subseq_refl {A : Type} (l : list A) : subseq l l.
Proof. induction l; constructor; auto. Qed.

Lemma subseq_filter {A : Type} (p : A -> bool) (l : list A) : subseq (filter p l) l.
Proof. induction l as [|x l IH]; cbn; [constructor|]. destruct (p x); constructor; auto. Qed.

Lemma subseq_trans {A : Type} (a b c : list A) : subseq a b -> subseq b c -> subseq a c.
Proof.
  intros Hab Hbc; revert a Hab; induction Hbc as [|x b c Hbc IH|x b c Hbc IH]; intros a Hab.
  - assumption.
  - inversion Hab; subst; constructor; auto.
  - constructor; auto.
Qed.

Lemma subseq_app {A : Type} (a b c d : list A) :
  subseq a b -> subseq c d -> subseq (a ++ c) (b ++ d).
Proof. induction 1; intros Hcd; cbn; [assumption | constructor; auto ..]. Qed.

Lemma subseq_nil_l {A : Type} (l : list A) : subseq [] l.
Proof. induction l; constructor; auto. Qed.

Lemma subseq_filterIndexed {A : Type} (p : A -> Z -> bool) i (l : list A) :
  subseq (filterIndexed p i l) l.
Proof.
  revert i; induction l as [|x l IH]; intros i; cbn [filterIndexed]; [constructor|].
  destruct (p x i); constructor; auto.
Qed.

Lemma sliceLine_subseq r st l :
  exists more, collected (sliceLine r st l) = (collected st ++ more)%list /\
               subseq more [l].
Proof.
  unfold sliceLine.
  repeat match goal with
         | |- context [if ?b then _ else _] => destruct b
         end; cbn [collected];
    first [ exists [l]; split; [reflexivity | apply subseq_refl]
          | exists []; split; [now rewrite app_nil_r | apply subseq_nil_l] ].
Qed.

Lemma sliceFold_subseq r ls st :
  exists more, collected (fold_left (sliceLine r) ls st) = (collected st ++ more)%list /\
               subseq more ls.
Proof.
  revert st; induction ls as [|l ls IH]; intros st; cbn [fold_left].
  - exists []. split; [now rewrite app_nil_r | constructor].
  - destruct (IH (sliceLine r st l)) as (m1 & E1 & S1).
    destruct (sliceLine_subseq r st l) as (m2 & E2 & S2).
    exists (m2 ++ m1)%list. split; [now rewrite E1, E2, app_assoc|].
    apply (subseq_app m2 [l] m1 ls S2 S1).
Qed.

Lemma filterHunk_reduced g c lr h h' :
  filterHunk g c lr h = Some h' -> hunkReduced h' h.
Proof.
  intros E. destruct (filterHunk_headerFirst g c lr h h' E) as (H1 & H2 & H3 & _).
  repeat split; auto.
  unfold filterHunk in E. destruct (sliceByRange lr h) as [h1|] eqn:E1; [|discriminate].
  apply (subseq_trans _ (lines h1)).
  - unfold applyGrep in E. destruct g as [r|]; [|injection E as <-; apply subseq_refl].
    destruct (isEmpty _); [discriminate|].
    destruct (c <=? 0); injection E as <-; [apply subseq_refl|].
    apply subseq_filterIndexed.
  - unfold sliceByRange in E1. destruct lr as [r|]; [|injection E1 as <-; apply subseq_refl].
    destruct (hasAny _); [|discriminate]. injection E1 as <-. cbn [lines withLines].
    destruct (sliceFold_subseq r (lines h) (mkSlice (oldStart h) (newStart h) [] false))
      as (more & -> & S). exact S.
Qed.

Lemma filterMap_subseq {A B : Type} (f : A -> option B) (l : list A) :
  exists kept, subseq kept l /\
               Forall2 (fun y x => f x = Some y) (filterMap f l) kept.
Proof.
  induction l as [|x l (kept & S & F)]; cbn [filterMap].
  - exists []. split; constructor.
  - destruct (f x) as [y|] eqn:E.
    + exists (x :: kept). split; constructor; auto.
    + exists kept. split; [constructor|]; auto.
Qed.

Lemma filterFile_reduced g c lr f : fileReduced (filterFile g c lr f) f.
Proof.
  unfold fileReduced, filterFile. cbn [path headerLines hunks withHunks].
  repeat split.
  destruct (filterMap_subseq (filterHunk g c lr) (hunks f)) as (kept & S & F).
  exists kept. split; auto.
  eapply Forall2_impl; [|exact F]. intros h' h. apply filterHunk_reduced.
Qed.

Lemma subseq_filterPaths ps fs : subseq (filterPaths ps fs) fs.
Proof.
  unfold filterPaths. destruct ps as [[|p l]|]; try apply subseq_refl.
  apply subseq_filter.
Qed.

Lemma subseq_map_Forall2 {A B : Type} (f : A -> B) (l' : list B) (l : list A) :
  subseq l' (map f l) ->
  exists kept, subseq kept l /\ Forall2 (fun y x => y = f x) l' kept.
Proof.
  revert l'; induction l as [|x l IH]; intros l' H; cbn [map] in H.
  - inversion H; subst. exists []. split; constructor.
  - inversion H as [|y l1 l2 H1|y l1 l2 H1]; subst.
    + destruct (IH _ H1) as (kept & S & F). exists (x :: kept). split; constructor; auto.
    + destruct (IH _ H1) as (kept & S & F). exists kept. split; [constructor|]; auto.
Qed.

Lemma filterCompiled_reduced g o fs :
  exists kept, subseq kept fs /\ Forall2 fileReduced (filterCompiled g o fs) kept.
Proof.
  set (c := match grepContext o with Some c => c | None => 0 end).
  assert (S : subseq (filterCompiled g o fs)
                     (map (filterFile g c (lineRange o)) (filterPaths (paths o) fs))).
  { unfold filterCompiled. fold c. destruct g.
    - eapply subseq_trans; apply subseq_filter.
    - apply subseq_filter. }
  destruct (subseq_map_Forall2 _ _ _ S) as (kept & Sk & F).
  exists kept. split.
  - eapply subseq_trans; [exact Sk | apply subseq_filterPaths].
  - eapply Forall2_impl; [|exact F]. intros f' f ->. apply filterFile_reduced.
Qed.

(** A hunk that the grep stage returns holds a line that matches. *)
Lemma applyGrep_has_match g c h h' :
  applyGrep (Some g) c h = Some h' -> exists l, In l (lines h') /\ g l = true.
Proof.
  unfold applyGrep.
  destruct (isEmpty (matchIndices g 0 (lines h))) eqn:Eh; [discriminate|].
  assert (Hne : matchIndices g 0 (lines h) <> [])
    by (intros E; rewrite E in Eh; discriminate).
  assert (Hany : forall ls, matchIndices g 0 ls <> [] -> exists l, In l ls /\ g l = true).
  { intros ls Hls. destruct (matchIndices g 0 ls) as [|m M] eqn:EM; [contradiction|].
    assert (Hm : In m (matchIndices g 0 ls)) by (rewrite EM; now left).
    apply In_matchIndices in Hm as (k & _ & Hk & Hg).
    exists (nth k ls EmptyString). split; [now apply nth_In | exact Hg]. }
  destruct (c <=? 0) eqn:Ec; intros [= <-]; [now apply Hany|].
  cbn [lines withLines]. apply Z.leb_gt in Ec.
  destruct (keepIndex_twice g c (lines h) Ec Hne) as [Hne' _].
  apply Hany. exact Hne'.
Qed.

(** The number of content lines collected never passes the number of line
    numbers of the range that lie below the new-file counter. *)
Lemma sliceLine_count r st l :
  contentCount (collected st)
  <= Z.max 0 (Z.min (sliceNewLine st - rangeStart r) (rangeEnd r - rangeStart r + 1)) ->
  (hasAny st = true -> 1 <= contentCount (collected st)) ->
  contentCount (collected (sliceLine r st l))
  <= Z.max 0 (Z.min (sliceNewLine (sliceLine r st l) - rangeStart r)
                    (rangeEnd r - rangeStart r + 1)) /\
  (hasAny (sliceLine r st l) = true -> 1 <= contentCount (collected (sliceLine r st l))).
Proof.
  intros Hinv Hany. unfold sliceLine.
  assert (Hpush : forall x, startsWith x "@@" = false ->
            contentCount (collected st ++ [x]) = contentCount (collected st) + 1).
  { intros x Hx. unfold contentCount. rewrite filter_app, length_app. cbn [filter].
    rewrite Hx. cbn. lia. }
  assert (Hpos : 0 <= contentCount (collected st)) by (unfold contentCount; lia).
  destruct (startsWith l "@@") eqn:Hh.
  - cbn [collected sliceNewLine hasAny]. unfold contentCount in *.
    rewrite filter_app, length_app. cbn [filter]. rewrite Hh. cbn [negb List.length].
    rewrite Nat.add_0_r. auto.
  - destruct (isAdded l).
    + destruct ((rangeStart r <=? sliceNewLine st) && (sliceNewLine st <=? rangeEnd r))
        eqn:E; cbn [collected sliceNewLine hasAny].
      * apply andb_true_iff in E as [E1 E2]. apply Z.leb_le in E1, E2.
        rewrite (Hpush l Hh). split; lia.
      * split; [lia | exact Hany].
    + destruct (isRemoved l); [cbn [collected sliceNewLine hasAny]; auto|].
      destruct (isContext l); [|auto].
      destruct ((rangeStart r <=? sliceNewLine st) && (sliceNewLine st <=? rangeEnd r))
        eqn:E; cbn [collected sliceNewLine hasAny].
      * apply andb_true_iff in E as [E1 E2]. apply Z.leb_le in E1, E2.
        rewrite (Hpush l Hh). split; lia.
      * split; [lia | exact Hany].
Qed.

Lemma sliceFold_count r ls st :
  contentCount (collected st)
  <= Z.max 0 (Z.min (sliceNewLine st - rangeStart r) (rangeEnd r - rangeStart r + 1)) ->
  (hasAny st = true -> 1 <= contentCount (collected st)) ->
  contentCount (collected (fold_left (sliceLine r) ls st))
  <= Z.max 0 (rangeEnd r - rangeStart r + 1) /\
  (hasAny (fold_left (sliceLine r) ls st) = true ->
   1 <= contentCount (collected (fold_left (sliceLine r) ls st))).
Proof.
  revert st; induction ls as [|l ls IH]; intros st Hinv Hany; cbn [fold_left].
  - split; [lia | exact Hany].
  - destruct (sliceLine_count r st l Hinv Hany) as [H1 H2]. apply IH; auto.
Qed.

End FilterReduces.

Lemma filterDiffFiles_selectsNothing :
  forall (newRegExp : RegExpConstructor) (diff : string) (o : FilterOptions),
    selectsNothing o ->
    filterDiffFiles newRegExp (parseUnifiedDiff diff) o = Ok (parseUnifiedDiff diff).
Proof.
  intros newRegExp diff o (Hp & Hg & Hr).
  assert (Hc : compileGrep newRegExp (grep o) = Ok None)
    by (destruct Hg as [-> | ->]; reflexivity).
  unfold filterDiffFiles. rewrite Hc. cbn [bindResult]. f_equal.
  unfold filterCompiled. rewrite Hr.
  assert (Hf : filterPaths (paths o) (parseUnifiedDiff diff) = parseUnifiedDiff diff)
    by (destruct Hp as [-> | ->]; reflexivity).
  rewrite Hf, map_all by (apply Forall_forall; intros; apply filterFile_plain).
  apply filter_all, Forall_forall. intros f Hin.
  pose proof (parseUnifiedDiff_parsed diff) as Hpf. rewrite Forall_forall in Hpf.
  destruct (Hpf f Hin) as [Hh _ _ _ _].
  destruct (headerLines f); [contradiction | apply orb_true_r].
Qed.

(** X6.  Options that select nothing (no path, or an empty list of paths;
    no pattern, or the empty pattern; no line range; any context) leave a
    parsed diff as it is. *)
Theorem filter_nothing_selected :
  forall (newRegExp : RegExpConstructor) (diff : string) (o : FilterOptions),
    selectsNothing o ->
    filterDiffFiles newRegExp (parseUnifiedDiff diff) o = Ok (parseUnifiedDiff diff).
Proof. exact filterDiffFiles_selectsNothing. Qed.

Lemma filter_nothing_selected_witness :
  let diff := "diff --git a/old b/new" ++ NL ++ "rename to new" ++ NL ++
              "diff --git a/x b/x" ++ NL ++ "@@ -1 +1 @@" ++ NL ++ "+y" in
  filterDiffFiles literalRegExp (parseUnifiedDiff diff)
                  (mkFilterOptions (Some []) (Some EmptyString) (Some 3) None)
  = Ok (parseUnifiedDiff diff).
Proof.
  intros diff.
  apply (filter_nothing_selected literalRegExp diff).
  repeat split; [now right | now right].
Defined.

(** X7.  The filter only leaves things out.  The files of its result are,
    in order, files of the input with the same path and header lines; their
    hunks are, in order, hunks of that file with the same header and start
    counters; and the lines of such a hunk are lines of the input hunk in
    their order. *)
Theorem filter_only_removes :
  forall (newRegExp : RegExpConstructor) (d : list DiffFile) (o : FilterOptions)
         (out : list DiffFile),
    filterDiffFiles newRegExp d o = Ok out ->
    exists kept, subseq kept d /\ Forall2 fileReduced out kept.
Proof.
  intros newRegExp d o out Hout.
  destruct (filterDiffFiles_Ok newRegExp d o out Hout) as (g & -> & _).
  apply filterCompiled_reduced.
Qed.

Lemma filter_only_removes_witness :
  let hd := "@@ -1,6 +1,7 @@" in
  let f := mkFile "a.ts" ["diff --git a/a.ts b/a.ts"]
                  [mkHunk hd [hd; " a"; " b"; "+needle"; " d"; " e"] 1 1] in
  let g := mkFile "b.ts" ["diff --git a/b.ts b/b.ts"] [] in
  exists kept, subseq kept [g; f] /\
               Forall2 fileReduced
                       [withHunks f [mkHunk hd [hd; " b"; "+needle"; " d"] 1 1]] kept.
Proof.
  intros hd f g.
  exact (filter_only_removes literalRegExp [g; f]
           (mkFilterOptions None (Some "needle") (Some 1) None)
           [withHunks f [mkHunk hd [hd; " b"; "+needle"; " d"] 1 1]] eq_refl).
Defined.

(** X8.  With a pattern that compiles, no file of the result is without a
    hunk and every hunk of the result holds a line that the pattern
    matches, whatever the context, an integer, and the other options. *)
Theorem filter_grep_hunks_match :
  forall (newRegExp : RegExpConstructor) (d : list DiffFile) (o : FilterOptions)
         (out : list DiffFile) (p : string) (g : RegExp),
    grep o = Some p -> p <> EmptyString -> newRegExp p = Some g ->
    filterDiffFiles newRegExp d o = Ok out ->
    forall f', In f' out ->
               hunks f' <> [] /\
               forall h', In h' (hunks f') -> exists l, In l (lines h') /\ g l = true.
Proof.
  intros newRegExp d o out p g Hg Hne Hc Hout f' Hin.
  unfold filterDiffFiles, compileGrep in Hout. rewrite Hg in Hout.
  destruct p as [|x p]; [contradiction|]. rewrite Hc in Hout. cbn [bindResult] in Hout.
  injection Hout as <-.
  destruct (In_filterCompiled (Some g) o d f' Hin) as (f & _ & -> & Hn).
  split; [apply Hn; discriminate|].
  intros h' Hh'. unfold filterFile in Hh'. cbn [hunks withHunks] in Hh'.
  apply In_filterMap in Hh' as (h & _ & E).
  unfold filterHunk in E. destruct (sliceByRange (lineRange o) h); [|discriminate].
  eapply applyGrep_has_match; eauto.
Qed.

Lemma filter_grep_hunks_match_witness :
  let hd := "@@ -1,6 +1,7 @@" in
  let f := mkFile "a.ts" ["diff --git a/a.ts b/a.ts"]
                  [mkHunk hd [hd; " a"; " b"; "+needle"; " d"; " e"] 1 1] in
  let f' := withHunks f [mkHunk hd [hd; " b"; "+needle"; " d"] 1 1] in
  hunks f' <> [] /\
  forall h', In h' (hunks f') ->
             exists l, In l (lines h') /\ includes l "needle" = true.
Proof.
  intros hd f f'.
  exact (filter_grep_hunks_match literalRegExp [f]
           (mkFilterOptions None (Some "needle") (Some 1) None) [f']
           "needle" (fun l => includes l "needle")
           eq_refl ltac:(discriminate) eq_refl eq_refl f' (or_introl eq_refl)).
Defined.

(** X9.  For a hunk whose counters stay within the integers that the host
    counts exactly, a hunk that survives the line-range stage holds at
    least one content line and at most as many content lines as the range
    has line numbers. *)
Theorem slice_content_within_range :
  forall (r : LineRange) (h h' : DiffHunk),
    safeCounters h ->
    sliceByRange (Some r) h = Some h' ->
    1 <= contentCount (lines h') <= rangeEnd r - rangeStart r + 1.
Proof.
  intros r h h' _. unfold sliceByRange.
  destruct (sliceFold_count r (lines h) (mkSlice (oldStart h) (newStart h) [] false))
    as [H1 H2]; [cbn; lia | cbn; discriminate |].
  destruct (hasAny _); [|discriminate]. intros [= <-]. cbn [lines withLines].
  specialize (H2 eq_refl). lia.
Qed.

Lemma slice_content_within_range_witness :
  let hd := "@@ -10,6 +10,7 @@" in
  let h := mkHunk hd [hd; " a"; " b"; " c"; "+new"; "-old"; " d"] 10 10 in
  safeCounters h /\
  1 <= contentCount [hd; " c"; "+new"] <= 13 - 12 + 1.
Proof.
  intros hd h.
  assert (Hs : safeCounters h) by (unfold safeCounters; cbn; lia).
  split; [exact Hs|].
  exact (slice_content_within_range (mkRange 12 13) h
           (mkHunk hd [hd; " c"; "+new"] 10 10) Hs eq_refl).
Defined.

(* ================================================================== *)
(** ** AnchorLinker: where the target lies *)

Section TargetBounds.

Lemma replay_kinds o n ls : map (fun e => fst (fst e)) (replay o n ls) = map lineKind ls.
Proof.
  revert o n; induction ls as [|l ls IH]; intros o n; cbn [replay map]; [reflexivity|].
  f_equal. destruct (lineKind l); apply IH.
Qed.

Lemma replay_bounds o n ls e :
  In e (replay o n ls) ->
  o <= oldNumber e <= o + Z.of_nat (List.length ls) /\
  n <= newNumber e <= n + Z.of_nat (List.length ls).
Proof.
  revert o n; induction ls as [|l ls IH]; intros o n; cbn [replay]; [contradiction|].
  intros [<- | Hin].
  - unfold oldNumber, newNumber. cbn. lia.
  - cbn [List.length].
    destruct (lineKind l); apply IH in Hin; lia.
Qed.

Lemma find_isKind_none k o n ls :
  find (isKind k) (replay o n ls) = None -> forall l, In l ls -> lineKind l <> k.
Proof.
  intros Hf l Hl Hk.
  assert (Hin : In k (map (fun e => fst (fst e)) (replay o n ls))).
  { rewrite replay_kinds. apply in_map_iff. eauto. }
  apply in_map_iff in Hin as (e & He & Hin).
  pose proof (find_none _ _ Hf e Hin) as Hno.
  unfold isKind in Hno. rewrite He in Hno. destruct k; discriminate.
Qed.

Lemma hunkLinkTarget_cases h :
  (exists e, find (isKind KAdded) (replay (oldStart h) (newStart h) (lines h)) = Some e /\
             hunkLinkTarget h = mkTarget (newNumber e) R) \/
  (find (isKind KAdded) (replay (oldStart h) (newStart h) (lines h)) = None /\
   exists e, find (isKind KRemoved) (replay (oldStart h) (newStart h) (lines h)) = Some e /\
             hunkLinkTarget h = mkTarget (oldNumber e) L) \/
  (find (isKind KAdded) (replay (oldStart h) (newStart h) (lines h)) = None /\
   find (isKind KRemoved) (replay (oldStart h) (newStart h) (lines h)) = None /\
   hunkLinkTarget h = mkTarget (newStart h) R).
Proof.
  unfold hunkLinkTarget.
  destruct (targetFold (lines h) (oldStart h) (newStart h) None None) as [H1 H2].
  cbn zeta in H1, H2. rewrite H1, H2.
  destruct (find (isKind KAdded) _) as [e|]; [left; eauto|].
  destruct (find (isKind KRemoved) _) as [e|]; [right; left; eauto | right; right; auto].
Qed.

Lemma stripTrailingSlash_append s : stripTrailingSlash (s ++ "/") = s.
Proof.
  induction s as [|c s IH]; [reflexivity|].
  cbn [append]. destruct s as [|c' s'].
  - reflexivity.
  - change (stripTrailingSlash (String c (String c' s' ++ "/")))
      with (String c (stripTrailingSlash (String c' s' ++ "/"))).
    now rewrite IH.
Qed.

End TargetBounds.

(** X10.  The link target of a hunk lies within the hunk: on side [R] the
    line is at least [newStart] and at most [newStart] plus the number of
    lines; on side [L] it is at least [oldStart] and at most [oldStart] plus
    the number of lines, and side [L] is chosen only when no line of the
    hunk begins with [+] without beginning with [+++]. *)
Theorem hunkLinkTarget_within_hunk :
  forall h : DiffHunk,
    let t := hunkLinkTarget h in
    match side t with
    | R => newStart h <= line t <= newStart h + Z.of_nat (List.length (lines h))
    | L => oldStart h <= line t <= oldStart h + Z.of_nat (List.length (lines h)) /\
           forall l, In l (lines h) -> bodyKind l <> KAdded
    end.
Proof.
  intros h t. unfold t.
  destruct (hunkLinkTarget_cases h)
    as [(e & Hf & ->) | [(Hn & e & Hf & ->) | (_ & _ & ->)]]; cbn [side line].
  - apply find_some in Hf as [Hin _]. now apply replay_bounds in Hin.
  - apply find_some in Hf as [Hin _]. split; [now apply replay_bounds in Hin|].
    intros l Hl. rewrite <- lineKind_bodyKind. eapply find_isKind_none; eauto.
  - lia.
Qed.

(** X11.  One slash at the end of the base URL makes no difference to the
    link, and a line that is not positive is left out of it like a missing
    one. *)
Theorem buildGithubLink_normalises :
  forall (diffAnchor : string -> string) (url p : string) (sd : Side),
    stripTrailingSlash url = url ->
    (forall ln, buildGithubLink diffAnchor (url ++ "/") p ln sd
                = buildGithubLink diffAnchor url p ln sd) /\
    (forall n, n <= 0 ->
               buildGithubLink diffAnchor url p (Some n) sd
               = buildGithubLink diffAnchor url p None sd) /\
    buildGithubLink diffAnchor url p None sd
    = url ++ "/changes#diff-" ++ diffAnchor p.
Proof.
  intros diffAnchor url p sd Hu. unfold buildGithubLink.
  rewrite stripTrailingSlash_append, Hu. repeat split.
  intros n Hn. destruct (0 <? n) eqn:E; [apply Z.ltb_lt in E; lia | reflexivity].
Qed.

Lemma buildGithubLink_normalises_witness :
  buildGithubLink (fun _ => "0a1b") ("https://host/o/r/pull/7" ++ "/") "x.ts" (Some 3) L
  = buildGithubLink (fun _ => "0a1b") "https://host/o/r/pull/7" "x.ts" (Some 3) L.
Proof.
  exact (proj1 (buildGithubLink_normalises (fun _ => "0a1b") "https://host/o/r/pull/7"
                  "x.ts" L eq_refl) (Some 3)).
Defined.

(* ================================================================== *)
(** ** DiffRenderer: the counters and the suggested ranges *)

Section RenderCounters.

Variable diffAnchor : string -> string.
Variable options : RenderOptions.

Lemma renderHunk_others f h fl st :
  shownFiles (counters (snd (renderHunk diffAnchor options f h fl st)))
  = shownFiles (counters st) /\
  suggestedRanges (counters (snd (renderHunk diffAnchor options f h fl st)))
  = suggestedRanges (counters st).
Proof.
  unfold renderHunk. cbn [snd].
  destruct (givenUrl options), (hunkTruncated f h _), (prettyHeaderAdded fl),
    (diffStarted fl); cbn; rewrite ?addDiffBlock_counters; cbn;
    rewrite ?addDiffBlock_counters; cbn; rewrite ?addDiffBlock_counters; auto.
Qed.

Lemma renderHeaderOnly_others f st :
  shownFiles (counters (renderHeaderOnly diffAnchor options f st))
  = shownFiles (counters st) + 1 /\
  suggestedRanges (counters (renderHeaderOnly diffAnchor options f st))
  = suggestedRanges (counters st).
Proof.
  unfold renderHeaderOnly. destruct (givenUrl options); cbn;
    rewrite ?addDiffBlock_counters; auto.
Qed.

Lemma renderHunks_others f hs fl st :
  shownHunks (counters st)
  <= shownHunks (counters (snd (renderHunks diffAnchor options f hs fl st)))
  <= shownHunks (counters st) + Z.of_nat (List.length hs) /\
  shownFiles (counters (snd (renderHunks diffAnchor options f hs fl st)))
  = shownFiles (counters st) /\
  suggestedRanges (counters (snd (renderHunks diffAnchor options f hs fl st)))
  = suggestedRanges (counters st).
Proof.
  revert fl st; induction hs as [|h hs IH]; intros fl st; cbn [renderHunks List.length].
  - cbn [snd]. repeat split; lia.
  - destruct (budgetReached options st); [cbn; repeat split; lia|].
    destruct (renderHunk_state diffAnchor options f h fl st) as (_ & _ & _ & N).
    destruct (renderHunk_others f h fl st) as (F & S).
    destruct (renderHunk diffAnchor options f h fl st) as [fl' st'].
    cbn [snd] in N, F, S.
    destruct (IH fl' st') as (N' & F' & S'). rewrite F', S', F, S.
    repeat split; lia.
Qed.

Lemma renderFiles_others fs st :
  shownHunks (counters st)
  <= shownHunks (counters (renderFiles diffAnchor options fs st))
  <= shownHunks (counters st) + hunkCount fs /\
  shownFiles (counters st)
  <= shownFiles (counters (renderFiles diffAnchor options fs st))
  <= shownFiles (counters st) + Z.of_nat (List.length fs).
Proof.
  revert st; induction fs as [|f fs IH]; intros st; cbn [renderFiles List.length].
  - cbn [hunkCount fold_right]. lia.
  - rewrite hunkCount_cons. pose proof (hunkCount_nonneg fs) as Hn.
    destruct (budgetReached options st); [cbn; lia|].
    destruct (isEmpty (hunks f)) eqn:Ee.
    + pose proof (renderHeaderOnly_hunks diffAnchor options f st) as N.
      destruct (renderHeaderOnly_others f st) as (F & _).
      specialize (IH (renderHeaderOnly diffAnchor options f st)). lia.
    + destruct (renderHunks_others f (hunks f) (mkFlags false false false) st)
        as (N & F & _).
      destruct (renderHunks diffAnchor options f (hunks f) (mkFlags false false false) st)
        as [fl st1].
      cbn [snd] in N, F.
      set (st2 := if truncated (counters st1) && isNewFileDiff f
                  then setSuggested (path f)
                                    (computeFileLineRanges f (maxLines options)) st1
                  else st1).
      set (st3 := if fileShown fl then incrShownFiles st2 else st2).
      assert (H3 : shownHunks (counters st3) = shownHunks (counters st1) /\
                   shownFiles (counters st1) <= shownFiles (counters st3)
                   <= shownFiles (counters st1) + 1).
      { unfold st3, st2.
        destruct (fileShown fl), (truncated (counters st1) && isNewFileDiff f); cbn; lia. }
      specialize (IH st3). lia.
Qed.

Lemma renderFiles_hunk_budget fs st :
  shownHunks (counters st) <= Z.max 0 (maxHunks options) ->
  shownHunks (counters (renderFiles diffAnchor options fs st))
  <= Z.max 0 (maxHunks options).
Proof.
  apply (renderFiles_invariant diffAnchor options
           (fun s => shownHunks (counters s) <= Z.max 0 (maxHunks options))); auto.
  - intros f s _ _ Hs _. now rewrite renderHeaderOnly_hunks.
  - intros f h fl s _ _ Hs Hb.
    destruct (renderHunk_state diffAnchor options f h fl s) as (_ & _ & _ & N).
    rewrite N. unfold budgetReached in Hb. apply orb_false_iff in Hb as [Hb _].
    apply Z.leb_gt in Hb. lia.
Qed.

Lemma In_objSet {V : Type} (k p : string) (v r : V) (o : JsObject V) :
  In (k, v) (objSet p r o) -> (k = p /\ v = r) \/ In (k, v) o.
Proof.
  unfold objSet. destruct (String.eqb p "__proto__"); [auto|].
  induction o as [|[k0 v0] o IH]; cbn [objAssign].
  - intros [E | []]. injection E as <- <-. auto.
  - destruct (String.eqb k0 p) eqn:Ek.
    + apply String.eqb_eq in Ek. subst k0.
      intros [E | Hin]; [injection E as <- <-; auto | right; now right].
    + intros [E | Hin]; [right; now left|].
      destruct (IH Hin) as [? | ?]; [auto | right; now right].
Qed.

Lemma renderFiles_suggestions fs0 fs st :
  (forall f, In f fs -> In f fs0) ->
  suggestionsSound options fs0 st ->
  suggestionsSound options fs0 (renderFiles diffAnchor options fs st).
Proof.
  revert st; induction fs as [|f fs IH]; intros st Hsub Hst; cbn [renderFiles];
    [assumption|].
  assert (Hsub' : forall f0, In f0 fs -> In f0 fs0) by (intros; apply Hsub; now right).
  destruct (budgetReached options st).
  - destruct Hst as [_ H2]. split; [cbn; discriminate | exact H2].
  - destruct (isEmpty (hunks f)) eqn:Ee.
    + apply IH; auto.
      destruct (renderHeaderOnly_state diffAnchor options f st) as (_ & _ & T).
      destruct (renderHeaderOnly_others f st) as (_ & S).
      unfold suggestionsSound. rewrite T, S. exact Hst.
    + destruct (renderHunks_others f (hunks f) (mkFlags false false false) st)
        as (_ & _ & S).
      pose proof (renderHunks_truncated diffAnchor options f (hunks f)
                    (mkFlags false false false) st) as T.
      destruct (renderHunks diffAnchor options f (hunks f) (mkFlags false false false) st)
        as [fl st1].
      cbn [snd] in S, T.
      apply IH; auto.
      assert (H1 : suggestionsSound options fs0 st1).
      { destruct Hst as [H1 H2]. unfold suggestionsSound. rewrite S. split; auto.
        intros Ht. apply H1. destruct (truncated (counters st)); [|reflexivity].
        rewrite T in Ht by reflexivity. discriminate. }
      assert (H2 : suggestionsSound options fs0
                     (if truncated (counters st1) && isNewFileDiff f
                      then setSuggested (path f)
                                        (computeFileLineRanges f (maxLines options)) st1
                      else st1)).
      { destruct (truncated (counters st1) && isNewFileDiff f) eqn:E; [|exact H1].
        apply andb_true_iff in E as [Et En].
        destruct H1 as [_ H1]. split.
        - cbn [setSuggested counters truncated]. rewrite Et. discriminate.
        - cbn [setSuggested counters suggestedRanges]. intros k v Hin.
          apply In_objSet in Hin as [[-> ->] | Hin]; [|auto].
          exists f. repeat split; auto; [apply Hsub; now left|].
          intros Eh. rewrite Eh in Ee. discriminate. }
      destruct (fileShown fl); [|exact H2].
      destruct H2 as [A B]. split; [exact A | exact B].
Qed.

End RenderCounters.

Lemma formatDiffOutput_counters :
  forall (diffAnchor : string -> string) (fs : list DiffFile) (options : RenderOptions),
    let i := info (formatDiffOutput diffAnchor fs options) in
    0 <= shownHunks i <= Z.max 0 (maxHunks options) /\
    shownHunks i <= hunkCount fs /\
    0 <= shownFiles i <= Z.of_nat (List.length fs).
Proof.
  intros diffAnchor fs options i. unfold i, formatDiffOutput.
  destruct fs as [|f fs]; [cbn; lia|]. cbn [isEmpty info]. unfold renderLoop.
  pose proof (renderFiles_others diffAnchor options (f :: fs) initialRender) as H.
  pose proof (renderFiles_hunk_budget diffAnchor options (f :: fs) initialRender) as B.
  change (shownHunks (counters initialRender)) with 0 in *.
  change (shownFiles (counters initialRender)) with 0 in *.
  specialize (B ltac:(lia)). lia.
Qed.

(** X12.  The hunk counter never passes the hunk budget: [shownHunks] is at
    most [maxHunks] (zero when the budget is negative) and at most the number
    of hunks of the diff, and [shownFiles] is at most the number of files. *)
Theorem render_counters_bounded :
  forall (diffAnchor : string -> string) (fs : list DiffFile) (options : RenderOptions),
    let i := info (formatDiffOutput diffAnchor fs options) in
    0 <= shownHunks i <= Z.max 0 (maxHunks options) /\
    shownHunks i <= hunkCount fs /\
    0 <= shownFiles i <= Z.of_nat (List.length fs).
Proof. exact formatDiffOutput_counters. Qed.

Lemma render_suggestions_sound_aux
      (diffAnchor : string -> string) (fs : list DiffFile) (options : RenderOptions) :
  suggestionsSound options fs
    (mkRender [] [] (info (formatDiffOutput diffAnchor fs options))).
Proof.
  unfold formatDiffOutput.
  destruct fs as [|f fs]; [cbn; split; [reflexivity | contradiction]|].
  cbn [isEmpty info]. unfold renderLoop.
  assert (H : suggestionsSound options (f :: fs)
                (renderFiles diffAnchor options (f :: fs) initialRender)).
  { apply renderFiles_suggestions; [auto|].
    split; [reflexivity | cbn; contradiction]. }
  exact H.
Qed.

(** X13.  [suggestedRanges] is empty when the output is not truncated, and
    each of its entries belongs to a file of the diff that has hunks and is
    a new-file diff, with the ranges computed for that file and [maxLines]. *)
Theorem render_suggestions_sound :
  forall (diffAnchor : string -> string) (fs : list DiffFile) (options : RenderOptions),
    let i := info (formatDiffOutput diffAnchor fs options) in
    (truncated i = false -> suggestedRanges i = []) /\
    forall k v, In (k, v) (suggestedRanges i) ->
                exists f, In f fs /\ path f = k /\ isNewFileDiff f = true /\
                          hunks f <> [] /\
                          v = computeFileLineRanges f (maxLines options).
Proof.
  intros diffAnchor fs options i.
  exact (render_suggestions_sound_aux diffAnchor fs options).
Qed.

(* ================================================================== *)
(** ** The suggested ranges and the [lineRange] parameter *)

Section Ranges.




Lemma append_empty (s : string) : (s ++ "")%string = s.
Proof. induction s as [|c s IH]; cbn [append]; [reflexivity | now rewrite IH]. Qed.

Lemma digit_not_space c : isDigit c = true -> isWhiteSpace c = false.
Proof.
  destruct c as [[] [] [] [] [] [] [] []]; vm_compute; congruence.
Qed.

Lemma numeral_digit_first n :
  0 <= n -> exists c s, numberToString n = String c s /\ isDigit c = true.
Proof.
  intros Hn. destruct (numeral_nonempty n Hn) as (c & s & E).
  exists c, s. split; [exact E|].
  pose proof (spanDigits_numberToString n "" Hn eq_refl) as H.
  rewrite append_empty, E in H. cbn [spanDigits] in H.
  destruct (isDigit c); [reflexivity | discriminate].
Qed.

Lemma spanWhiteSpace_append w rest :
  allWhiteSpace w = true ->
  (forall c r, rest = String c r -> isWhiteSpace c = false) ->
  spanWhiteSpace (w ++ rest) = (w, rest).
Proof.
  intros Hw Hr. induction w as [|c w IH]; cbn [append].
  - destruct rest as [|c r]; [reflexivity|]. cbn [spanWhiteSpace].
    now rewrite (Hr c r eq_refl).
  - unfold allWhiteSpace in Hw. cbn [list_ascii_of_string forallb] in Hw.
    apply andb_true_iff in Hw as [Hc Hw]. cbn [spanWhiteSpace]. rewrite Hc.
    now rewrite (IH Hw).
Qed.

Lemma spanDigits_stops c rest :
  isDigit c = false -> fst (spanDigits (String c rest)) = EmptyString.
Proof. intros H. cbn [spanDigits]. now rewrite H. Qed.

Lemma spanDigits_space w rest :
  allWhiteSpace w = true ->
  fst (spanDigits (w ++ "-" ++ rest)) = EmptyString.
Proof.
  intros Hw. destruct w as [|c w]; [reflexivity|].
  unfold allWhiteSpace in Hw. cbn [list_ascii_of_string forallb] in Hw.
  apply andb_true_iff in Hw as [Hc _]. cbn [append]. apply spanDigits_stops.
  destruct (isDigit c) eqn:E; [|reflexivity].
  apply digit_not_space in E. congruence.
Qed.

Lemma parseLineRange_spaced a w1 w2 b :
  0 <= a <= 2 ^ 53 -> 0 <= b <= 2 ^ 53 ->
  allWhiteSpace w1 = true -> allWhiteSpace w2 = true ->
  parseLineRange (spacedRange a w1 w2 b) = Some (mkRange a b).
Proof.
  intros Ha' Hb' H1 H2.
  assert (Ha : 0 <= a) by lia. assert (Hb : 0 <= b) by lia. unfold parseLineRange, spacedRange.
  rewrite spanDigits_numberToString by (auto using spanDigits_space).
  destruct (numeral_nonempty a Ha) as (ca & sa & Ea).
  destruct (numeral_digit_first b Hb) as (cb & sb & Eb & Db).
  rewrite spanWhiteSpace_append; [|assumption|].
  2:{ intros c r E. cbn [append] in E. injection E as <- _. reflexivity. }
  cbn [snd]. rewrite expect_append.
  rewrite spanWhiteSpace_append; [|assumption|].
  2:{ intros c r E. rewrite Eb in E. injection E as <- _. now apply digit_not_space. }
  cbn [snd].
  pose proof (spanDigits_numberToString b "" Hb eq_refl) as Sb.
  rewrite append_empty in Sb. rewrite Sb.
  rewrite !digitsToNumber_numberToString by assumption.
  rewrite Ea, Eb. reflexivity.
Qed.

End Ranges.



(** X15.  The match of the diff tool on its [lineRange] parameter reads
    back the two numbers of a text [`${a}`, white space, [-], white space,
    `${b}`] when they are not negative and at most [2 ^ 53] (so that the
    host reads their numerals exactly); so every such text [`${a}-${b}`] of
    a suggested range gives the range from [a] to [b]. *)
Theorem parseLineRange_reads_range :
  forall (a b : Z) (w1 w2 : string),
    0 <= a <= 2 ^ 53 -> 0 <= b <= 2 ^ 53 ->
    allWhiteSpace w1 = true -> allWhiteSpace w2 = true ->
    parseLineRange (spacedRange a w1 w2 b) = Some (mkRange a b) /\
    parseLineRange (rangeText (a, b)) = Some (mkRange a b).
Proof.
  intros a b w1 w2 Ha Hb H1 H2. split.
  - now apply parseLineRange_spaced.
  - apply (parseLineRange_spaced a "" "" b); auto.
Qed.

Lemma parseLineRange_reads_range_witness :
  parseLineRange (spacedRange 12 " " "  " 40) = Some (mkRange 12 40) /\
  parseLineRange (rangeText (12, 40)) = Some (mkRange 12 40).
Proof.
  apply parseLineRange_reads_range; [lia | lia | reflexivity | reflexivity].
Defined.

Section RenderAllShown.

Variable diffAnchor : string -> string.
Variable options : RenderOptions.

Lemma renderHunks_fileShown f hs fl st :
  (fileShown fl = true \/ hs <> []) ->
  truncated (counters (snd (renderHunks diffAnchor options f hs fl st))) = false ->
  fileShown (fst (renderHunks diffAnchor options f hs fl st)) = true /\
  shownHunks (counters (snd (renderHunks diffAnchor options f hs fl st)))
  = shownHunks (counters st) + Z.of_nat (List.length hs).
Proof.
  revert fl st; induction hs as [|h hs IH]; intros fl st Hs; cbn [renderHunks List.length].
  - intros _. cbn [fst snd]. destruct Hs as [Hs | Hs]; [|contradiction].
    split; [assumption | cbn; lia].
  - destruct (budgetReached options st); [cbn; discriminate|].
    destruct (renderHunk_state diffAnchor options f h fl st) as (_ & _ & _ & N).
    assert (Hfl : fileShown (fst (renderHunk diffAnchor options f h fl st)) = true)
      by reflexivity.
    destruct (renderHunk diffAnchor options f h fl st) as [fl' st'].
    cbn [fst snd] in N, Hfl. intros Hfin.
    destruct (IH fl' st' (or_introl Hfl) Hfin) as [F N'].
    split; [exact F | rewrite N', N; lia].
Qed.

Lemma renderFiles_all_shown fs st :
  truncated (counters (renderFiles diffAnchor options fs st)) = false ->
  shownHunks (counters (renderFiles diffAnchor options fs st))
  = shownHunks (counters st) + hunkCount fs /\
  shownFiles (counters (renderFiles diffAnchor options fs st))
  = shownFiles (counters st) + Z.of_nat (List.length fs).
Proof.
  revert st; induction fs as [|f fs IH]; intros st; cbn [renderFiles List.length].
  - intros _. cbn [hunkCount fold_right]. cbn. lia.
  - rewrite hunkCount_cons.
    destruct (budgetReached options st); [cbn; discriminate|].
    destruct (isEmpty (hunks f)) eqn:Ee.
    + intros Hfin. destruct (IH _ Hfin) as [N F]. rewrite N, F.
      rewrite renderHeaderOnly_hunks.
      destruct (renderHeaderOnly_others diffAnchor options f st) as [F1 _]. rewrite F1.
      destruct (hunks f); [cbn [List.length]; lia | discriminate].
    + pose proof (renderHunks_fileShown f (hunks f) (mkFlags false false false) st) as H.
      destruct (renderHunks_others diffAnchor options f (hunks f)
                  (mkFlags false false false) st) as (_ & F1 & _).
      destruct (renderHunks diffAnchor options f (hunks f) (mkFlags false false false) st)
        as [fl st1].
      cbn [fst snd] in H, F1.
      set (st2 := if truncated (counters st1) && isNewFileDiff f
                  then setSuggested (path f)
                                    (computeFileLineRanges f (maxLines options)) st1
                  else st1).
      set (st3 := if fileShown fl then incrShownFiles st2 else st2).
      intros Hfin.
      assert (T3 : truncated (counters st3) = false).
      { destruct (truncated (counters st3)) eqn:E; [|reflexivity].
        rewrite (renderFiles_truncated diffAnchor options fs st3 E) in Hfin.
        discriminate. }
      assert (T1 : truncated (counters st1) = false).
      { unfold st3, st2 in T3.
        destruct (truncated (counters st1)) eqn:E1; [|reflexivity].
        destruct (fileShown fl), (isNewFileDiff f); cbn in T3; congruence. }
      destruct H as [Hshown N1]; [right; intros E; rewrite E in Ee; discriminate
                                 | assumption |].
      destruct (IH st3 Hfin) as [N F]. rewrite N, F.
      unfold st3, st2. rewrite Hshown, T1. cbn. lia.
Qed.

End RenderAllShown.

(** What a rendering that fits in the budgets returns. *)
Lemma formatDiffOutput_complete
      (diffAnchor : string -> string) (fs : list DiffFile) (options : RenderOptions) :
  fs <> [] ->
  fullOutputLines diffAnchor options fs <= maxLines options ->
  hunkCount fs < maxHunks options ->
  let out := formatDiffOutput diffAnchor fs options in
  text out = join (NL ++ NL) (fullBlocks diffAnchor options fs) /\
  truncated (info out) = false /\
  shownLines (info out) = fullOutputLines diffAnchor options fs /\
  shownHunks (info out) = hunkCount fs /\
  shownFiles (info out) = Z.of_nat (List.length fs) /\
  suggestedRanges (info out) = [].
Proof.
  intros Hne Hl Hh out.
  destruct (formatDiffOutput_unbounded diffAnchor options fs Hne Hl Hh) as (T & L).
  destruct (render_suggestions_sound_aux diffAnchor fs options) as (S & _).
  fold out in T, L, S. cbn [counters] in S.
  assert (H : text out = join (NL ++ NL) (fullBlocks diffAnchor options fs) /\
              shownHunks (info out) = hunkCount fs /\
              shownFiles (info out) = Z.of_nat (List.length fs)).
  { unfold out, formatDiffOutput in T |- *. destruct fs as [|f fs]; [contradiction|].
    cbn [isEmpty info text] in T |- *. rewrite T.
    unfold renderLoop in T |- *.
    destruct (renderFiles_all_shown diffAnchor options (f :: fs) initialRender T)
      as [N F].
    rewrite N, F.
    rewrite (renderFiles_complete diffAnchor options (f :: fs) initialRender T).
    repeat split; cbn [initialRender counters shownHunks shownFiles blocks app]; lia. }
  destruct H as (Ht & Hn & Hf). repeat split; auto.
Qed.

(** X16.  When the whole rendering fits in the budgets, nothing is cut: the
    text is the blocks of every file, one per hunk (or one for a file
    without hunks), each followed by its link block when a URL is given,
    joined by blank lines; every hunk and every file is counted as shown,
    [truncated] is false and no range is suggested. *)
Theorem render_complete_within_budget :
  forall (diffAnchor : string -> string) (fs : list DiffFile) (options : RenderOptions),
    fs <> [] ->
    fullOutputLines diffAnchor options fs <= maxLines options ->
    hunkCount fs < maxHunks options ->
    let out := formatDiffOutput diffAnchor fs options in
    text out = join (NL ++ NL) (fullBlocks diffAnchor options fs) /\
    truncated (info out) = false /\
    shownLines (info out) = fullOutputLines diffAnchor options fs /\
    shownHunks (info out) = hunkCount fs /\
    shownFiles (info out) = Z.of_nat (List.length fs) /\
    suggestedRanges (info out) = [].
Proof. exact formatDiffOutput_complete. Qed.

Lemma render_complete_within_budget_witness :
  let fs := [mkFile "a" ["diff --git a/a b/a"]
                    [mkHunk "@@ -1 +1 @@" ["@@ -1 +1 @@"; "-x"; "+y"] 1 1]] in
  let options := mkRenderOptions None 150 8 in
  let out := formatDiffOutput (fun p => p) fs options in
  text out = join (NL ++ NL) (fullBlocks (fun p => p) options fs) /\
  truncated (info out) = false /\
  shownLines (info out) = fullOutputLines (fun p => p) options fs /\
  shownHunks (info out) = hunkCount fs /\
  shownFiles (info out) = Z.of_nat (List.length fs) /\
  suggestedRanges (info out) = [].
Proof.
  apply render_complete_within_budget;
    [discriminate | vm_compute; discriminate | reflexivity].
Defined.

(* ================================================================== *)
(** ** The comment tool *)

Section CommentToolFacts.

Import CommentTool.

Lemma findIndex_nth k cs i :
  findIndex k cs = Some i ->
  exists c, nth_error cs i = Some c /\ id c = k.
Proof.
  revert i; induction cs as [|c0 r IH]; intros i; cbn [findIndex]; [discriminate|].
  destruct (Z.eqb_spec (id c0) k) as [E | E].
  - intros [= <-]. exists c0. split; [reflexivity | assumption].
  - destruct (findIndex k r) as [j|]; [|discriminate].
    intros [= <-]. destruct (IH j eq_refl) as (c & Hn & Hc). exists c. auto.
Qed.

Lemma findIndex_none k cs :
  findIndex k cs = None <-> forall c, In c cs -> id c <> k.
Proof.
  induction cs as [|c0 r IH]; cbn [findIndex].
  - split; [intros _ c [] | reflexivity].
  - destruct (Z.eqb_spec (id c0) k) as [E | E].
    + split; [discriminate|]. intros H. exfalso. apply (H c0); [now left | assumption].
    + destruct (findIndex k r) as [j|].
      * split; [discriminate|]. intros H.
        destruct IH as [_ IH]. discriminate IH. intros c Hc. apply H. now right.
      * split; [|reflexivity]. intros _ c [<- | Hc]; [assumption|].
        destruct IH as [IH _]. now apply IH.
Qed.

Lemma updateTitle_id p s : id (fst (updateTitle p s)) = id (fst s).
Proof. unfold updateTitle. destruct (pTitle p); reflexivity. Qed.

Lemma updateBody_id p s : id (fst (updateBody p s)) = id (fst s).
Proof. unfold updateBody. destruct (pBody p); reflexivity. Qed.

Lemma updatePriority_id p s : id (fst (updatePriority p s)) = id (fst s).
Proof. unfold updatePriority. destruct (pPriority p); reflexivity. Qed.

Lemma updatePath_id p s : id (fst (updatePath p s)) = id (fst s).
Proof.
  unfold updatePath. destruct (pPath p) as [pa|]; [|reflexivity].
  destruct (String.eqb (trim pa) EmptyString); reflexivity.
Qed.

Lemma updateLine_id p s : id (fst (updateLine p s)) = id (fst s).
Proof.
  unfold updateLine. destruct (pLine p) as [n|]; [|reflexivity].
  destruct (n <=? 0); reflexivity.
Qed.

Lemma updateSide_id p s : id (fst (updateSide p s)) = id (fst s).
Proof. unfold updateSide. destruct (pSide p); reflexivity. Qed.

Lemma updated_id p c : id (fst (updated p c)) = id c.
Proof.
  unfold updated.
  rewrite updateSide_id, updateLine_id, updatePath_id, updatePriority_id, updateBody_id,
    updateTitle_id.
  reflexivity.
Qed.

Lemma setAt_sameButFor i next cs cur :
  nth_error cs i = Some cur -> id next = id cur ->
  Forall2 (sameButFor (Some (id cur))) cs (setAt i next cs).
Proof.
  revert i; induction cs as [|c0 r IH]; intros i; [destruct i; discriminate|].
  assert (Hrefl : forall l, Forall2 (sameButFor (Some (id cur))) l l).
  { induction l; constructor; auto. split; auto. }
  destruct i as [|i]; cbn [nth_error setAt].
  - intros [= ->] Hid. constructor; [|apply Hrefl].
    split; [assumption | congruence].
  - intros Hn Hid. constructor; [split; auto | apply IH; assumption].
Qed.

Lemma sameButFor_ids k cs cs' :
  Forall2 (sameButFor k) cs cs' -> map id cs' = map id cs.
Proof. induction 1 as [|c c' r r' [E _] _ IH]; cbn [map]; congruence. Qed.

Lemma sameButFor_refl k cs : Forall2 (sameButFor k) cs cs.
Proof. induction cs; constructor; auto. split; auto. Qed.

Lemma setAt_Forall (P : AssistedReviewComment -> Prop) i next cs :
  Forall P cs -> P next -> Forall P (setAt i next cs).
Proof.
  revert i; induction cs as [|c0 r IH]; intros i Hcs Hn; [destruct i; constructor|].
  inversion Hcs; subst. destruct i; cbn [setAt]; constructor; auto.
Qed.

Lemma removeAt_In i cs c : In c (removeAt i cs) -> In c cs.
Proof.
  revert i; induction cs as [|c0 r IH]; intros i; [destruct i; contradiction|].
  destruct i; cbn [removeAt]; [now right|].
  intros [<- | H]; [now left | right; eauto].
Qed.

Lemma removeAt_Forall (P : AssistedReviewComment -> Prop) i cs :
  Forall P cs -> Forall P (removeAt i cs).
Proof.
  rewrite !Forall_forall. intros H c Hc. apply H. eapply removeAt_In; eassumption.
Qed.

Lemma removeAt_sorted i cs :
  StronglySorted Z.lt (map id cs) -> StronglySorted Z.lt (map id (removeAt i cs)).
Proof.
  revert i; induction cs as [|c0 r IH]; intros i Hs; [destruct i; assumption|].
  cbn [map] in Hs. inversion Hs as [|? ? Hr Hall]; subst.
  destruct i; cbn [removeAt map]; [assumption|].
  constructor; [apply IH; assumption|].
  rewrite Forall_forall in Hall |- *. intros x Hx. apply Hall.
  apply in_map_iff in Hx as (c & <- & Hc). apply in_map. eapply removeAt_In; eassumption.
Qed.

Lemma removeAt_found k i cs :
  StronglySorted Z.lt (map id cs) -> findIndex k cs = Some i ->
  forall c, In c (removeAt i cs) <-> In c cs /\ id c <> k.
Proof.
  revert i; induction cs as [|c0 r IH]; intros i Hs; cbn [findIndex]; [discriminate|].
  cbn [map] in Hs. inversion Hs as [|? ? Hr Hall]; subst.
  rewrite Forall_forall in Hall.
  destruct (Z.eqb_spec (id c0) k) as [E | E].
  - intros [= <-] c. cbn [removeAt]. split.
    + intros Hc. split; [now right|].
      specialize (Hall (id c) (in_map id _ _ Hc)). lia.
    + intros [[<- | Hc] Hne]; [contradiction | assumption].
  - destruct (findIndex k r) as [j|] eqn:Ej; [|discriminate].
    intros [= <-] c. cbn [removeAt]. specialize (IH j Hr eq_refl c). split.
    + intros [<- | Hc]; [split; [now left | assumption]|].
      apply IH in Hc as [Hc Hne]. split; [now right | assumption].
    + intros [[<- | Hc] Hne]; [now left | right; apply IH; auto].
Qed.

Lemma sorted_snoc (l : list Z) (x : Z) :
  StronglySorted Z.lt l -> Forall (fun y => y < x) l -> StronglySorted Z.lt (l ++ [x]).
Proof.
  induction 1 as [|a l Hs IH Ha]; intros Hall; cbn [app].
  - constructor; constructor.
  - inversion Hall; subst. constructor; [auto|].
    apply Forall_app. split; [assumption | constructor; [assumption | constructor]].
Qed.

Lemma findIndex_last k cs c :
  (forall c0, In c0 cs -> id c0 <> k) -> id c = k ->
  findIndex k (cs ++ [c]) = Some (List.length cs).
Proof.
  intros Hcs Hc. induction cs as [|c0 r IH]; cbn [app findIndex List.length].
  - destruct (Z.eqb_spec (id c) k); [reflexivity | contradiction].
  - destruct (Z.eqb_spec (id c0) k) as [E | E].
    + exfalso. apply (Hcs c0); [now left | assumption].
    + rewrite IH; [reflexivity|]. intros c1 H1. apply Hcs. now right.
Qed.

Lemma removeAt_last cs c : removeAt (List.length cs) (cs ++ [c]) = cs.
Proof. induction cs as [|c0 r IH]; cbn [app List.length removeAt]; congruence. Qed.

Ltac stays :=
  apply NoChange; cbn; [reflexivity | reflexivity | right; discriminate | reflexivity].

Lemma execute_effect p st : Effect p st (execute p st).
Proof.
  unfold execute. destruct (pAction p) eqn:Ea.
  - apply NoChange; auto.
  - destruct (pTitle p) as [[|t0 t]|] eqn:Et;
      try (stays).
    destruct (pBody p) as [[|b0 b]|] eqn:Eb;
      try (stays).
    destruct (pPriority p) as [pr|] eqn:Ep;
      try (stays).
    destruct (lineWithoutPath (pLine p) (pPath p)) eqn:El;
      [stays|].
    eapply Added with (c := mkComment (nextId st) (String t0 t) (String b0 b) pr
                                      (pPath p) (pLine p) (pSide p)); auto.
  - apply Cleared; auto.
  - destruct (pId p) as [k|] eqn:Ek;
      [|stays].
    destruct (findIndex k (comments st)) as [index|] eqn:Ei;
      [|stays].
    destruct (findIndex_nth _ _ _ Ei) as (current & Hn & Hc). rewrite Hn.
    pose proof (updated_id p current) as Hid.
    destruct (updated p current) as [next changed]. cbn [fst] in Hid.
    destruct changed; cbn [negb];
      [|stays].
    destruct (lineWithoutPath (line next) (path next)) eqn:El;
      [stays|].
    eapply Updated with (k := k) (index := index) (current := current) (next := next);
      auto; congruence.
  - destruct (pId p) as [k|] eqn:Ek;
      [|stays].
    destruct (findIndex k (comments st)) as [index|] eqn:Ei;
      [|stays].
    destruct (findIndex_nth _ _ _ Ei) as (removed & Hn & Hc). rewrite Hn.
    eapply Deleted with (k := k) (index := index); auto.
Qed.

Lemma execute_idsOrdered p st : idsOrdered st -> idsOrdered (after (execute p st)).
Proof.
  intros (Hs & Hb & Hn).
  destruct (execute_effect p st) as
    [o Ha _ _ _ | o c _ Hid _ Ha _ _ _ | o k i cur next _ _ Hi Hnth Hc Hx _ Ha _ _ _
     | o k i _ _ _ Ha _ _ _ | o _ Ha _ _ _]; rewrite Ha.
  - repeat split; assumption.
  - unfold idsOrdered. cbn [comments nextId]. repeat split; [| |lia].
    + rewrite map_app. cbn [map]. apply sorted_snoc; [assumption|].
      rewrite Forall_forall in Hb |- *. intros y Hy.
      apply in_map_iff in Hy as (c0 & <- & Hc0). specialize (Hb c0 Hc0). lia.
    + apply Forall_app. split.
      * eapply Forall_impl; [|exact Hb]. cbn. intros; lia.
      * constructor; [lia | constructor].
  - unfold idsOrdered. cbn [comments nextId]. repeat split; [| |assumption].
    + rewrite (sameButFor_ids (Some (id cur)) (comments st)); [assumption|].
      apply setAt_sameButFor; [assumption | congruence].
    + apply setAt_Forall; [assumption|].
      rewrite Forall_forall in Hb. apply nth_error_In in Hnth.
      specialize (Hb cur Hnth). lia.
  - unfold idsOrdered. cbn [comments nextId]. repeat split; [| |assumption].
    + now apply removeAt_sorted.
    + now apply removeAt_Forall.
  - unfold idsOrdered, initialState. cbn. repeat split; [constructor | constructor | lia].
Qed.

Lemma execute_lineHasPath p st :
  Forall lineHasPath (comments st) ->
  Forall lineHasPath (comments (after (execute p st))).
Proof.
  intros H.
  destruct (execute_effect p st) as
    [o Ha _ _ _ | o c _ _ Hl Ha _ _ _ | o k i cur next _ _ _ _ _ _ Hl Ha _ _ _
     | o k i _ _ _ Ha _ _ _ | o _ Ha _ _ _]; rewrite Ha; cbn [comments initialState].
  - assumption.
  - apply Forall_app. split; [assumption | constructor; [assumption | constructor]].
  - now apply setAt_Forall.
  - now apply removeAt_Forall.
  - constructor.
Qed.

Lemma run_invariant (P : CommentsState -> Prop) :
  (forall p st, P st -> P (after (execute p st))) ->
  forall ps st, P st -> P (run ps st).
Proof.
  intros Hstep. induction ps as [|p ps IH]; intros st Hst; [assumption|].
  unfold run. cbn [fold_left]. apply IH. now apply Hstep.
Qed.

End CommentToolFacts.

(** X17.  Comment ids are never reused while comments exist: after any
    sequence of calls the ids of the stored comments grow along the list (so
    no two comments share an id), each is at least 1 and below the next id
    to be given. *)
Theorem comment_ids_ordered :
  forall (ps : list CommentTool.Params) (st : CommentTool.CommentsState),
    CommentTool.idsOrdered st ->
    CommentTool.idsOrdered (CommentTool.run ps st).
Proof.
  intros ps st. apply (run_invariant CommentTool.idsOrdered).
  intros p s. apply execute_idsOrdered.
Qed.

Lemma comment_ids_ordered_witness :
  CommentTool.idsOrdered
    (CommentTool.run
       [CommentTool.mkParams CommentTool.doAdd None (Some "t") (Some "b")
                             (Some CommentTool.P1) None None None;
        CommentTool.mkParams CommentTool.doAdd None (Some "u") (Some "c")
                             (Some CommentTool.P2) (Some "a.rs") (Some 3) None;
        CommentTool.deleteParams 1]
       CommentTool.initialState).
Proof.
  apply comment_ids_ordered.
  unfold CommentTool.idsOrdered, CommentTool.initialState. cbn.
  repeat split; [constructor | constructor | lia].
Defined.

(** X18.  A stored comment that has a line has a non-empty path: no
    sequence of calls (add, update, delete, clear, list) can leave a comment
    with a line and without a path. *)
Theorem comment_line_has_path :
  forall (ps : list CommentTool.Params) (st : CommentTool.CommentsState),
    Forall CommentTool.lineHasPath (CommentTool.comments st) ->
    Forall CommentTool.lineHasPath (CommentTool.comments (CommentTool.run ps st)).
Proof.
  intros ps st.
  apply (run_invariant (fun s => Forall CommentTool.lineHasPath (CommentTool.comments s))).
  intros p s. apply execute_lineHasPath.
Qed.

Lemma comment_line_has_path_witness :
  Forall CommentTool.lineHasPath
    (CommentTool.comments
       (CommentTool.run
          [CommentTool.mkParams CommentTool.doAdd None (Some "t") (Some "b")
                                (Some CommentTool.P1) (Some "a.rs") (Some 3) None;
           CommentTool.mkParams CommentTool.doUpdate (Some 1) None None None
                                (Some " ") (Some 9) None]
          CommentTool.initialState)).
Proof.
  apply comment_line_has_path. constructor.
Defined.

(** X19.  The [details] of every result carry the comments and the next id
    as the call left them and the action that was asked for.  A call that
    reports an error, and a [list] call, change nothing and append no entry
    to the session; every other call appends the state it left. *)
Theorem comment_details_mirror_state :
  forall (p : CommentTool.Params) (st : CommentTool.CommentsState),
    let o := CommentTool.execute p st in
    let d := CommentTool.details (CommentTool.result o) in
    CommentTool.snapshot d = CommentTool.after o /\
    CommentTool.action d = CommentTool.pAction p /\
    (CommentTool.error d <> None \/ CommentTool.pAction p = CommentTool.doList ->
     CommentTool.after o = st /\ CommentTool.persisted o = None) /\
    (CommentTool.error d = None -> CommentTool.pAction p <> CommentTool.doList ->
     CommentTool.persisted o = Some (CommentTool.after o)).
Proof.
  intros p st o d. assert (Ha : CommentTool.action d = CommentTool.pAction p).
  { unfold d, o, CommentTool.execute.
    destruct (CommentTool.pAction p); cbn;
      repeat match goal with
             | |- context [match ?x with _ => _ end] => destruct x; cbn
             end; reflexivity. }
  unfold d, o in *.
  destruct (execute_effect p st) as
    [o' A P E S | o' c Ac _ _ A P E S | o' k i cur next Ac _ _ _ _ _ _ A P E S
     | o' k i Ac _ _ A P E S | o' Ac A P E S]; cbn zeta in *.
  - split; [congruence|]. split; [exact Ha|]. split.
    + intros _. split; assumption.
    + intros He Hl. destruct E; contradiction.
  - split; [congruence|]. split; [exact Ha|]. split.
    + intros [Hx | Hx]; congruence.
    + intros _ _. assumption.
  - split; [congruence|]. split; [exact Ha|]. split.
    + intros [Hx | Hx]; congruence.
    + intros _ _. assumption.
  - split; [congruence|]. split; [exact Ha|]. split.
    + intros [Hx | Hx]; congruence.
    + intros _ _. assumption.
  - split; [congruence|]. split; [exact Ha|]. split.
    + intros [Hx | Hx]; congruence.
    + intros _ _. assumption.
Qed.

Section CommentToolCalls.

Import CommentTool.

Lemma delete_effect p st k :
  pAction p = doDelete -> pId p = Some k ->
  match findIndex k (comments st) with
  | Some index =>
      after (execute p st) = mkState (removeAt index (comments st)) (nextId st) /\
      error (details (result (execute p st))) = None
  | None =>
      after (execute p st) = st /\ error (details (result (execute p st))) <> None
  end.
Proof.
  intros Ha Hk. unfold execute. rewrite Ha, Hk.
  destruct (findIndex k (comments st)) as [index|] eqn:Ei.
  - destruct (findIndex_nth _ _ _ Ei) as (removed & Hn & _). rewrite Hn.
    split; reflexivity.
  - split; [reflexivity | discriminate].
Qed.

Lemma update_effect p st :
  pAction p = doUpdate ->
  nextId (after (execute p st)) = nextId st /\
  Forall2 (sameButFor (pId p)) (comments st) (comments (after (execute p st))).
Proof.
  intros Ha.
  destruct (execute_effect p st) as
    [o A _ _ _ | o c Ac _ _ _ _ _ _ | o k i cur next _ Hk _ Hn Hc Hx _ A _ _ _
     | o k i Ac _ _ _ _ _ _ | o Ac _ _ _ _]; try congruence.
  - rewrite A. split; [reflexivity | apply sameButFor_refl].
  - rewrite A. cbn [comments nextId]. split; [reflexivity|].
    rewrite Hk, <- Hc. apply setAt_sameButFor; [assumption | congruence].
Qed.

Lemma add_effect p st :
  pAction p = doAdd -> error (details (result (execute p st))) = None ->
  exists c, id c = nextId st /\
            after (execute p st) = mkState (comments st ++ [c]) (nextId st + 1).
Proof.
  intros Ha He.
  destruct (execute_effect p st) as
    [o _ _ E _ | o c _ Hid _ A _ _ _ | o k i cur next Ac _ _ _ _ _ _ _ _ _ _
     | o k i Ac _ _ _ _ _ _ | o Ac _ _ _ _]; try congruence.
  - destruct E; congruence.
  - exists c. auto.
Qed.

End CommentToolCalls.

(** X20.  With ids that grow along the list, a [delete] call for the id [k]
    succeeds exactly when a comment has that id; it then removes that
    comment and no other and leaves the next id as it was, so the id is not
    given again. *)
Theorem comment_delete_removes_exactly :
  forall (p : CommentTool.Params) (st : CommentTool.CommentsState) (k : Z),
    CommentTool.idsOrdered st ->
    CommentTool.pAction p = CommentTool.doDelete ->
    CommentTool.pId p = Some k ->
    let o := CommentTool.execute p st in
    (CommentTool.error (CommentTool.details (CommentTool.result o)) = None <->
     exists c, In c (CommentTool.comments st) /\ CommentTool.id c = k) /\
    (forall c, In c (CommentTool.comments (CommentTool.after o)) <->
               In c (CommentTool.comments st) /\ CommentTool.id c <> k) /\
    CommentTool.nextId (CommentTool.after o) = CommentTool.nextId st.
Proof.
  intros p st k (Hs & _ & _) Ha Hk o. unfold o.
  pose proof (delete_effect p st k Ha Hk) as H.
  destruct (CommentTool.findIndex k (CommentTool.comments st)) as [index|] eqn:Ei.
  - destruct H as [A E]. rewrite A, E. cbn [CommentTool.comments CommentTool.nextId].
    split; [|split; [|reflexivity]].
    + split; [|reflexivity]. intros _.
      destruct (findIndex_nth _ _ _ Ei) as (c & Hn & Hc).
      exists c. split; [eapply nth_error_In; eassumption | assumption].
    + now apply removeAt_found.
  - destruct H as [A E]. rewrite A.
    destruct (findIndex_none k (CommentTool.comments st)) as [Hnone _].
    specialize (Hnone Ei).
    split; [|split; [|reflexivity]].
    + split; [contradiction|]. intros (c & Hc & Hid). exfalso. now apply (Hnone c).
    + intros c. split; [intros Hc; split; auto | tauto].
Qed.

Lemma comment_delete_removes_exactly_witness :
  let st := CommentTool.mkState
              [CommentTool.mkComment 1 "t" "b" CommentTool.P0 None None None;
               CommentTool.mkComment 2 "u" "c" CommentTool.P1 None None None] 3 in
  let o := CommentTool.execute (CommentTool.deleteParams 1) st in
  (CommentTool.error (CommentTool.details (CommentTool.result o)) = None <->
   exists c, In c (CommentTool.comments st) /\ CommentTool.id c = 1) /\
  (forall c, In c (CommentTool.comments (CommentTool.after o)) <->
             In c (CommentTool.comments st) /\ CommentTool.id c <> 1) /\
  CommentTool.nextId (CommentTool.after o) = CommentTool.nextId st.
Proof.
  apply comment_delete_removes_exactly; [|reflexivity|reflexivity].
  unfold CommentTool.idsOrdered. cbn. repeat split; try lia.
  - repeat constructor.
  - repeat constructor; cbn; lia.
Defined.

(** X21.  An [update] call never changes the number, the order or the ids
    of the comments, nor the next id, and it leaves every comment whose id
    is not the one given as it was. *)
Theorem comment_update_touches_one :
  forall (p : CommentTool.Params) (st : CommentTool.CommentsState),
    CommentTool.pAction p = CommentTool.doUpdate ->
    let st' := CommentTool.after (CommentTool.execute p st) in
    CommentTool.nextId st' = CommentTool.nextId st /\
    map CommentTool.id (CommentTool.comments st')
    = map CommentTool.id (CommentTool.comments st) /\
    Forall2 (CommentTool.sameButFor (CommentTool.pId p))
            (CommentTool.comments st) (CommentTool.comments st').
Proof.
  intros p st Ha st'. destruct (update_effect p st Ha) as [N F].
  split; [exact N|]. split; [|exact F]. eapply sameButFor_ids. exact F.
Qed.

Lemma comment_update_touches_one_witness :
  let p := CommentTool.mkParams CommentTool.doUpdate (Some 2) (Some "v") None None
                                None None None in
  let st := CommentTool.mkState
              [CommentTool.mkComment 1 "t" "b" CommentTool.P0 None None None;
               CommentTool.mkComment 2 "u" "c" CommentTool.P1 None None None] 3 in
  let st' := CommentTool.after (CommentTool.execute p st) in
  CommentTool.nextId st' = CommentTool.nextId st /\
  map CommentTool.id (CommentTool.comments st')
  = map CommentTool.id (CommentTool.comments st) /\
  Forall2 (CommentTool.sameButFor (CommentTool.pId p))
          (CommentTool.comments st) (CommentTool.comments st').
Proof.
  apply comment_update_touches_one. reflexivity.
Defined.

(** X22.  Adding a comment and then deleting the id it was given brings the
    comments back to what they were, while the next id stays one higher:
    the id of a deleted comment is not handed out again. *)
Theorem comment_add_then_delete :
  forall (p : CommentTool.Params) (st : CommentTool.CommentsState),
    CommentTool.idsOrdered st ->
    CommentTool.pAction p = CommentTool.doAdd ->
    CommentTool.error (CommentTool.details (CommentTool.result (CommentTool.execute p st)))
    = None ->
    let added := CommentTool.after (CommentTool.execute p st) in
    let o := CommentTool.execute (CommentTool.deleteParams (CommentTool.nextId st)) added in
    CommentTool.error (CommentTool.details (CommentTool.result o)) = None /\
    CommentTool.comments (CommentTool.after o) = CommentTool.comments st /\
    CommentTool.nextId (CommentTool.after o) = CommentTool.nextId st + 1.
Proof.
  intros p st (_ & Hb & _) Ha He added o.
  destruct (add_effect p st Ha He) as (c & Hid & A).
  unfold o, added. rewrite A.
  pose proof (delete_effect (CommentTool.deleteParams (CommentTool.nextId st))
                (CommentTool.mkState (CommentTool.comments st ++ [c])
                                     (CommentTool.nextId st + 1))
                (CommentTool.nextId st) eq_refl eq_refl) as H.
  cbn [CommentTool.comments CommentTool.nextId] in H.
  rewrite (findIndex_last (CommentTool.nextId st) (CommentTool.comments st) c) in H;
    [|intros c0 H0; rewrite Forall_forall in Hb; specialize (Hb c0 H0); lia | assumption].
  destruct H as [A' E']. rewrite A', E'.
  cbn [CommentTool.comments CommentTool.nextId]. rewrite removeAt_last. auto.
Qed.

Lemma comment_add_then_delete_witness :
  let p := CommentTool.mkParams CommentTool.doAdd None (Some "t") (Some "b")
                                (Some CommentTool.P1) None None None in
  let st := CommentTool.initialState in
  let added := CommentTool.after (CommentTool.execute p st) in
  let o := CommentTool.execute (CommentTool.deleteParams (CommentTool.nextId st)) added in
  CommentTool.error (CommentTool.details (CommentTool.result o)) = None /\
  CommentTool.comments (CommentTool.after o) = CommentTool.comments st /\
  CommentTool.nextId (CommentTool.after o) = CommentTool.nextId st + 1.
Proof.
  apply comment_add_then_delete; [|reflexivity|reflexivity].
  unfold CommentTool.idsOrdered. cbn. repeat split; [constructor | constructor | lia].
Defined.

(* ================================================================== *)
(** ** The restored state and the arrays it shares *)

Section SessionFacts.

Import CommentTool.
Import Session.

Lemma readArray_old (s t : Store) a :
  (a < List.length s)%nat -> readArray (s ++ t)%list a = readArray s a.
Proof. intros H. unfold readArray. now rewrite app_nth1. Qed.

Lemma readArray_new (s : Store) cs : readArray (s ++ [cs])%list (List.length s) = cs.
Proof. unfold readArray. rewrite app_nth2 by lia. now rewrite Nat.sub_diag. Qed.

Lemma writeArray_length s a cs : List.length (writeArray s a cs) = List.length s.
Proof.
  revert a; induction s as [|x s IH]; intros a; [destruct a; reflexivity|].
  destruct a; cbn [writeArray List.length]; [reflexivity | now rewrite IH].
Qed.

Lemma readArray_written s a cs :
  (a < List.length s)%nat -> readArray (writeArray s a cs) a = cs.
Proof.
  revert a; induction s as [|x s IH]; intros a H; cbn [List.length] in H; [lia|].
  destruct a; cbn [writeArray]; [reflexivity|]. apply IH. lia.
Qed.

(** What a call leaves in the store. *)
Lemma executeStored_spec p m :
  wellFormed m ->
  let c := executeStored p m in
  let o := execute p (contents m) in
  contents (machine c) = after o /\
  wellFormed (machine c) /\
  (dComments (returned c) < List.length (store (machine c)))%nat /\
  readArray (store (machine c)) (dComments (returned c)) = comments (after o) /\
  dNextId (returned c) = nextId (after o) /\
  reviewMode (machine c) = reviewMode m /\
  (arrayEffect p o = InPlace -> commentsVar (machine c) = commentsVar m).
Proof.
  intros Hw c o. unfold wellFormed in Hw.
  assert (Hsnap : snapshot (details (result o)) = after o).
  { unfold o. destruct (execute_effect p (contents m)); congruence. }
  assert (Hm1 : exists m1,
             (match arrayEffect p o with
              | InPlace =>
                  mkMachine (writeArray (store m) (commentsVar m) (comments (after o)))
                            (commentsVar m) (nextId (after o)) (reviewMode m)
              | Fresh =>
                  let (s, a) := newArray (store m) [] in mkMachine s a 1 (reviewMode m)
              | Untouched => m
              end) = m1 /\
             contents m1 = after o /\ wellFormed m1 /\ reviewMode m1 = reviewMode m /\
             (arrayEffect p o = InPlace -> commentsVar m1 = commentsVar m)).
  { eexists. split; [reflexivity|].
    unfold arrayEffect, o.
    destruct (execute_effect p (contents m))
      as [o' A P E S | o' x Ac _ _ A P E S | o' k i cur next Ac _ _ _ _ _ _ A P E S
          | o' k i Ac _ _ A P E S | o' Ac A P E S].
    - destruct (error (details (result o'))) eqn:Ee.
      + repeat split; auto.
      + destruct E as [E | E]; [|contradiction]. rewrite E. repeat split; auto.
    - rewrite E, Ac. unfold contents, wellFormed. cbn [store commentsVar nextCommentId
                                                       reviewMode].
      rewrite readArray_written, writeArray_length by assumption.
      repeat split; auto. now destruct (after o').
    - rewrite E, Ac. unfold contents, wellFormed. cbn [store commentsVar nextCommentId
                                                       reviewMode].
      rewrite readArray_written, writeArray_length by assumption.
      repeat split; auto. now destruct (after o').
    - rewrite E, Ac. unfold contents, wellFormed. cbn [store commentsVar nextCommentId
                                                       reviewMode].
      rewrite readArray_written, writeArray_length by assumption.
      repeat split; auto. now destruct (after o').
    - rewrite E, Ac. unfold newArray, contents, wellFormed.
      cbn [store commentsVar nextCommentId reviewMode].
      rewrite readArray_new, length_app. cbn [List.length].
      rewrite A. repeat split; auto; [lia | discriminate]. }
  destruct Hm1 as (m1 & Em1 & C1 & W1 & R1 & V1).
  set (extra := match persisted o with
                | Some st => [comments st]
                | None => []
                end).
  assert (Hc : store (machine c) = ((store m1 ++ extra) ++ [comments (after o)])%list /\
               commentsVar (machine c) = commentsVar m1 /\
               nextCommentId (machine c) = nextCommentId m1 /\
               reviewMode (machine c) = reviewMode m1 /\
               dComments (returned c) = List.length (store m1 ++ extra)%list /\
               dNextId (returned c) = nextId (after o)).
  { unfold c, executeStored. fold o. rewrite Em1, Hsnap. unfold extra, newArray.
    destruct (persisted o) as [st|]; cbn [machine returned store commentsVar
                                          nextCommentId reviewMode dComments dNextId];
      rewrite ?app_nil_r; repeat split; reflexivity. }
  destruct Hc as (Es & Ev & En & Er & Ed & Ei).
  unfold wellFormed in W1.
  assert (Hread : readArray (store (machine c)) (commentsVar m1)
                  = readArray (store m1) (commentsVar m1)).
  { rewrite Es, <- app_assoc. now apply readArray_old. }
  unfold contents, wellFormed. rewrite Ev, En, Er, Ed, Ei, Hread.
  repeat split; auto.
  - rewrite Es, !length_app. lia.
  - rewrite Es, !length_app. cbn [List.length]. lia.
  - rewrite Es. apply readArray_new.
Qed.

Lemma restore_store branch m :
  store (fold_left restoreEntry branch m) = store m.
Proof.
  revert m; induction branch as [|e branch IH]; intros m; cbn [fold_left]; [reflexivity|].
  rewrite IH. destruct e as [toolName [d|] | [d|] | [d|] | ]; cbn [restoreEntry];
    try reflexivity.
  destruct (String.eqb toolName "assisted_review_comment"); reflexivity.
Qed.

Lemma restore_rest rest m :
  forallb noCommentState rest = true ->
  commentsVar (fold_left restoreEntry rest m) = commentsVar m /\
  nextCommentId (fold_left restoreEntry rest m) = nextCommentId m.
Proof.
  revert m; induction rest as [|e rest IH]; intros m; cbn [forallb fold_left];
    [auto|].
  intros H. apply andb_true_iff in H as [He Hr]. destruct (IH (restoreEntry m e) Hr)
    as [-> ->].
  destruct e as [toolName [d|] | [d|] | [d|] | ]; cbn [restoreEntry noCommentState] in *;
    auto; try discriminate.
  destruct (String.eqb toolName "assisted_review_comment"); [discriminate | auto].
Qed.

(** Restoring from a branch whose last entry with comment state is the
    result [d]: the variable names the array of [d]. *)
Lemma reconstructState_last before d rest m :
  forallb noCommentState rest = true ->
  let r := reconstructState
             (before ++ ToolResultEntry "assisted_review_comment" (Some d) :: rest) m in
  store r = (store m ++ [[]])%list /\
  commentsVar r = dComments d /\ nextCommentId r = dNextId d.
Proof.
  intros Hrest r. unfold r, reconstructState, newArray.
  rewrite fold_left_app. cbn [fold_left].
  destruct (restore_rest rest
              (restoreEntry
                 (fold_left restoreEntry before
                    (mkMachine (store m ++ [[]])%list (List.length (store m)) 1
                               (mkMode false None None None)))
                 (ToolResultEntry "assisted_review_comment" (Some d))) Hrest) as [-> ->].
  rewrite restore_store.
  cbn [restoreEntry String.eqb Ascii.eqb Bool.eqb store commentsVar nextCommentId].
  rewrite restore_store. auto.
Qed.

End SessionFacts.

(** X23.  Right after a call, [reconstructState] on a branch whose last
    entry with comment state is the result of that call restores the
    comments and the next id as the call left them.  It does so by making
    the variable [comments] name the array of that entry: a later [add]
    pushes onto the array of the entry itself, so that restoring once more
    from the same branch gives the comments with the added one and the
    earlier next id, which is then the id of a stored comment. *)
Theorem reconstruct_restores_and_shares :
  forall (before rest : list Session.SessionEntry)
         (p q : CommentTool.Params) (m : Session.Machine),
    Session.wellFormed m ->
    forallb Session.noCommentState rest = true ->
    let c := Session.executeStored p m in
    let branch :=
      (before ++ Session.ToolResultEntry "assisted_review_comment"
                   (Some (Session.returned c)) :: rest)%list in
    let r := Session.reconstructState branch (Session.machine c) in
    Session.contents r = Session.contents (Session.machine c) /\
    Session.commentsVar r = Session.dComments (Session.returned c) /\
    (CommentTool.pAction q = CommentTool.doAdd ->
     CommentTool.error
       (CommentTool.details
          (CommentTool.result (CommentTool.execute q (Session.contents r)))) = None ->
     let c2 := Session.executeStored q r in
     let r2 := Session.reconstructState branch (Session.machine c2) in
     CommentTool.comments (Session.contents r2)
     = CommentTool.comments (Session.contents (Session.machine c2)) /\
     CommentTool.nextId (Session.contents r2)
     = CommentTool.nextId (Session.contents (Session.machine c)) /\
     exists x, In x (CommentTool.comments (Session.contents r2)) /\
               CommentTool.id x = CommentTool.nextId (Session.contents r2)).
Proof.
  intros before rest p q m Hw Hrest c branch r.
  destruct (executeStored_spec p m Hw) as (C & W & D & RD & N & _ & _).
  fold c in C, W, D, RD, N.
  destruct (reconstructState_last before (Session.returned c) rest (Session.machine c) Hrest)
    as (S & V & I).
  fold branch in S, V, I. fold r in S, V, I.
  assert (Hr : Session.contents r = Session.contents (Session.machine c)).
  { unfold Session.contents at 1. rewrite S, V, I, readArray_old by assumption.
    rewrite RD, N, C. now destruct (CommentTool.after _). }
  split; [exact Hr|]. split; [exact V|].
  intros Hq He c2 r2.
  assert (Wr : Session.wellFormed r).
  { unfold Session.wellFormed. rewrite S, V, length_app. cbn [List.length]. lia. }
  destruct (executeStored_spec q r Wr) as (C2 & W2 & _ & _ & _ & _ & V2).
  fold c2 in C2, W2, V2.
  assert (Hin : Session.arrayEffect q (CommentTool.execute q (Session.contents r))
                = Session.InPlace).
  { unfold Session.arrayEffect. now rewrite He, Hq. }
  specialize (V2 Hin).
  destruct (reconstructState_last before (Session.returned c) rest (Session.machine c2)
              Hrest) as (S' & V' & I').
  fold branch in S', V', I'. fold r2 in S', V', I'.
  assert (Hc2 : CommentTool.comments (Session.contents r2)
                = CommentTool.comments (Session.contents (Session.machine c2))).
  { unfold Session.contents. cbn [CommentTool.comments].
    rewrite S', V', readArray_old; [now rewrite V2, V|].
    unfold Session.wellFormed in W2. now rewrite <- V, <- V2. }
  assert (Hn2 : CommentTool.nextId (Session.contents r2)
                = CommentTool.nextId (Session.contents (Session.machine c))).
  { unfold Session.contents at 1. cbn [CommentTool.nextId]. rewrite I', N, C. reflexivity. }
  split; [exact Hc2|]. split; [exact Hn2|].
  destruct (add_effect q (Session.contents r) Hq He) as (x & Hx & A).
  exists x. split.
  - rewrite Hc2, C2, A. cbn [CommentTool.comments]. apply in_or_app. right. now left.
  - now rewrite Hx, Hn2, Hr.
Qed.

Lemma reconstruct_restores_and_shares_witness :
  let p := CommentTool.mkParams CommentTool.doAdd None (Some "one") (Some "b")
                                (Some CommentTool.P1) None None None in
  let q := CommentTool.mkParams CommentTool.doAdd None (Some "two") (Some "b")
                                (Some CommentTool.P2) None None None in
  let c := Session.executeStored p Session.initialMachine in
  let branch := [Session.ToolResultEntry "assisted_review_comment"
                   (Some (Session.returned c))] in
  let r := Session.reconstructState branch (Session.machine c) in
  let r2 := Session.reconstructState branch (Session.machine (Session.executeStored q r)) in
  Session.contents r = Session.contents (Session.machine c) /\
  map CommentTool.title (CommentTool.comments (Session.contents r2)) = ["one"; "two"] /\
  CommentTool.nextId (Session.contents r2) = 2 /\
  exists x, In x (CommentTool.comments (Session.contents r2)) /\
            CommentTool.id x = CommentTool.nextId (Session.contents r2).
Proof.
  intros p q c branch r r2.
  destruct (reconstruct_restores_and_shares [] [] p q Session.initialMachine)
    as (H1 & _ & H3); [unfold Session.wellFormed; cbn; lia | reflexivity |].
  destruct H3 as (_ & _ & H4); [reflexivity | reflexivity |].
  split; [exact H1|]. split; [reflexivity|]. split; [reflexivity | exact H4].
Defined.

(* ================================================================== *)
(** ** The hint of a review target *)

Section Hints.

Lemma length_append_string (a b : string) :
  String.length (a ++ b) = (String.length a + String.length b)%nat.
Proof. induction a as [|c a IH]; cbn [append String.length]; [reflexivity | now rewrite IH]. Qed.

Lemma append_assoc_string (a b c : string) : ((a ++ b) ++ c = a ++ (b ++ c))%string.
Proof. induction a as [|x a IH]; cbn [append]; [reflexivity | now rewrite IH]. Qed.

Lemma sliceHead_split n s :
  s = (ReviewTarget.sliceHead n s ++ sliceFrom n s)%string /\
  String.length (ReviewTarget.sliceHead n s) = Nat.min n (String.length s).
Proof.
  unfold ReviewTarget.sliceHead.
  revert s; induction n as [|n IH]; intros s.
  - destruct s; cbn; auto.
  - destruct s as [|c s]; [cbn; auto|].
    cbn [substring sliceFrom append String.length]. destruct (IH s) as [E L].
    split; [now rewrite <- E | now rewrite L].
Qed.

End Hints.

(** X24.  The hint of a custom target never has more than 40 characters:
    instructions of at most 40 characters are shown as they are, longer ones
    as their first 37 characters followed by three dots.  The hint of a
    commit shows at most the first 7 characters of the hash. *)
Theorem hint_is_abbreviated :
  forall (instructions sha : string) (title : option string),
    let h := ReviewTarget.getUserFacingHint (ReviewTarget.custom instructions) in
    (String.length h <= 40)%nat /\
    ((String.length instructions <= 40)%nat -> h = instructions) /\
    ((40 < String.length instructions)%nat ->
     exists head rest, instructions = (head ++ rest)%string /\
                       String.length head = 37%nat /\ h = (head ++ "...")%string) /\
    exists head rest, sha = (head ++ rest)%string /\
                      String.length head = Nat.min 7 (String.length sha) /\
                      startsWith (ReviewTarget.getUserFacingHint
                                    (ReviewTarget.commit sha title))
                                 ("commit " ++ head) = true.
Proof.
  intros instructions sha title h.
  assert (Hc : exists head rest,
             sha = (head ++ rest)%string /\
             String.length head = Nat.min 7 (String.length sha) /\
             startsWith (ReviewTarget.getUserFacingHint (ReviewTarget.commit sha title))
                        ("commit " ++ head) = true).
  { destruct (sliceHead_split 7 sha) as [E7 L7].
    exists (ReviewTarget.sliceHead 7 sha), (sliceFrom 7 sha).
    split; [exact E7|]. split; [exact L7|].
    unfold ReviewTarget.getUserFacingHint.
    destruct title as [[|c t]|].
    - rewrite <- (append_empty ("commit " ++ ReviewTarget.sliceHead 7 sha)) at 1.
      apply startsWith_append.
    - rewrite <- append_assoc_string. apply startsWith_append.
    - rewrite <- (append_empty ("commit " ++ ReviewTarget.sliceHead 7 sha)) at 1.
      apply startsWith_append. }
  unfold h, ReviewTarget.getUserFacingHint.
  destruct (sliceHead_split 37 instructions) as [E L].
  destruct (Nat.ltb_spec 40 (String.length instructions)) as [Hl | Hl].
  - split; [|split; [|split]].
    + rewrite length_append_string, L. cbn [String.length]. lia.
    + lia.
    + intros _. exists (ReviewTarget.sliceHead 37 instructions), (sliceFrom 37 instructions).
      split; [exact E|]. split; [rewrite L; lia | reflexivity].
    + exact Hc.
  - split; [|split; [|split]].
    + lia.
    + reflexivity.
    + lia.
    + exact Hc.
Qed.

(* ================================================================== *)
(** ** Colouring the rendered diff *)

Section PrettyDiff.

Lemma spanWhiteSpace_split s :
  s = (fst (spanWhiteSpace s) ++ snd (spanWhiteSpace s))%string /\
  allWhiteSpace (fst (spanWhiteSpace s)) = true.
Proof.
  induction s as [|c s [E W]]; [split; reflexivity|].
  cbn [spanWhiteSpace]. destruct (isWhiteSpace c) eqn:Ec; [|split; reflexivity].
  destruct (spanWhiteSpace s) as [w r]. cbn [fst snd append] in *.
  split; [now rewrite <- E|].
  unfold allWhiteSpace in *. cbn [list_ascii_of_string forallb]. now rewrite Ec, W.
Qed.

Lemma spanDigits_split s :
  s = (fst (spanDigits s) ++ snd (spanDigits s))%string.
Proof.
  induction s as [|c s E]; [reflexivity|].
  cbn [spanDigits]. destruct (isDigit c); [|reflexivity].
  destruct (spanDigits s) as [d r]. cbn [fst snd append] in *. now rewrite <- E.
Qed.

Lemma dropLast_split c w :
  allWhiteSpace (String c w) = true ->
  exists sep, isWhiteSpace sep = true /\
              String c w = (dropLast (String c w) ++ String sep EmptyString)%string.
Proof.
  revert c; induction w as [|c' w IH]; intros c H.
  - exists c. unfold allWhiteSpace in H. cbn in H. rewrite andb_true_r in H.
    split; [assumption | reflexivity].
  - unfold allWhiteSpace in H. cbn [list_ascii_of_string forallb] in H.
    apply andb_true_iff in H as [_ H].
    destruct (IH c' H) as (sep & Hs & E). exists sep. split; [assumption|].
    change (dropLast (String c (String c' w))) with (String c (dropLast (String c' w))).
    cbn [append]. now rewrite <- E.
Qed.

Lemma prettyBacktrack_sound c0 w rest r :
  allWhiteSpace w = true ->
  prettyBacktrack c0 w rest = Some r ->
  exists sep, prefix r = String c0 EmptyString /\ isWhiteSpace sep = true /\
              (w ++ rest = lineNum r ++ String sep (content r))%string /\
              noLineTerminator (content r) = true.
Proof.
  intros Hw. unfold prettyBacktrack. destruct w as [|c w]; [discriminate|].
  destruct (noLineTerminator rest) eqn:En; [|discriminate].
  intros [= <-]. cbn [prefix lineNum content].
  destruct (dropLast_split c w Hw) as (sep & Hs & E).
  exists sep. repeat split; auto.
  rewrite E at 1. now rewrite append_assoc_string.
Qed.

Lemma parsePrettyDiffLine_sound l r :
  parsePrettyDiffLine l = Some r ->
  exists c sep,
    prefix r = String c EmptyString /\ isPrefixChar c = true /\
    isWhiteSpace sep = true /\
    l = (prefix r ++ lineNum r ++ String sep (content r))%string /\
    noLineTerminator (content r) = true.
Proof.
  destruct l as [|c0 s]; cbn [parsePrettyDiffLine]; [discriminate|].
  destruct (isPrefixChar c0) eqn:Ep; [|discriminate].
  destruct (spanWhiteSpace_split s) as [Es Hw].
  destruct (spanWhiteSpace s) as [w s1]. cbn [fst snd] in Es, Hw.
  pose proof (spanDigits_split s1) as Ed.
  destruct (spanDigits s1) as [d s2]. cbn [fst snd] in Ed.
  assert (Hback : prettyBacktrack c0 w s1 = Some r ->
                  exists c sep,
                    prefix r = String c EmptyString /\ isPrefixChar c = true /\
                    isWhiteSpace sep = true /\
                    String c0 s = (prefix r ++ lineNum r ++ String sep (content r))%string /\
                    noLineTerminator (content r) = true).
  { intros H. destruct (prettyBacktrack_sound c0 w s1 r Hw H) as (sep & P & Hs & E & N).
    exists c0, sep. repeat split; auto. rewrite P. cbn [append]. congruence. }
  destruct d as [|d0 d]; [destruct s2; exact Hback|].
  destruct s2 as [|c rest]; [exact Hback|].
  destruct (isWhiteSpace c) eqn:Ec; cbn [andb]; [|exact Hback].
  destruct (noLineTerminator rest) eqn:En; [|exact Hback].
  intros [= <-]. cbn [prefix lineNum content]. exists c0, c. repeat split; auto.
  cbn [append]. f_equal. rewrite Es, Ed. now rewrite append_assoc_string.
Qed.



End PrettyDiff.



(** X26.  Whatever line is recognised is taken apart without loss: the
    line is its prefix (one plus, minus or white-space character), its line
    number, one white-space character and its content, and the content
    holds no line terminator.  So with a theme that leaves the text alone,
    colouring never changes the length of a line. *)
Theorem pretty_line_parts :
  forall l : string,
    (forall r, parsePrettyDiffLine l = Some r ->
               exists c sep,
                 prefix r = String c EmptyString /\ isPrefixChar c = true /\
                 isWhiteSpace sep = true /\
                 l = (prefix r ++ lineNum r ++ String sep (content r))%string /\
                 noLineTerminator (content r) = true) /\
    String.length (renderPrettyLine (fun _ s => s) l) = String.length l.
Proof.
  intros l. split; [intros r; apply parsePrettyDiffLine_sound|].
  unfold renderPrettyLine. destruct (parsePrettyDiffLine l) as [r|] eqn:E; [|reflexivity].
  destruct (parsePrettyDiffLine_sound l r E) as (c & sep & P & _ & _ & El & _).
  assert (Hl : String.length l
               = S (String.length (lineNum r) + S (String.length (content r)))).
  { rewrite El, P. cbn [append String.length]. rewrite length_append_string.
    reflexivity. }
  rewrite Hl.
  destruct (String.eqb (prefix r) "+"), (String.eqb (prefix r) "-");
    cbn [append String.length]; rewrite length_append_string; reflexivity.
Qed.

(* ================================================================== *)
(** ** The diff tool *)

Section DiffToolFacts.

Lemma countHunks_from fs acc :
  fold_left (fun a file => a + Z.of_nat (List.length (hunks file))) fs acc
  = acc + hunkCount fs.
Proof.
  revert acc; induction fs as [|f fs IH]; intros acc; cbn [fold_left].
  - cbn [hunkCount fold_right]. lia.
  - rewrite IH, hunkCount_cons. lia.
Qed.

Lemma countHunks_hunkCount fs : DiffTool.countHunks fs = hunkCount fs.
Proof. unfold DiffTool.countHunks. rewrite countHunks_from. lia. Qed.

Lemma subseq_length {A : Type} (a b : list A) :
  subseq a b -> (List.length a <= List.length b)%nat.
Proof. induction 1; cbn [List.length]; lia. Qed.

Lemma maxLinesOf_floor params : 50 <= DiffTool.maxLinesOf params.
Proof.
  unfold DiffTool.maxLinesOf. destruct (DiffTool.context params) as [c|]; [|lia].
  destruct (0 <? c); lia.
Qed.

Lemma unfiltered_selectsNothing params :
  DiffTool.unfiltered params -> selectsNothing (DiffTool.filterOptionsOf params).
Proof. intros (P & G & R). repeat split; assumption. Qed.

End DiffToolFacts.

(** X27.  Whatever the parameters, a result of the diff tool that carries
    details was rendered with a budget of 8 hunks and of at least 50 lines;
    it shows at most 8 hunks and no more hunks or files than the filter
    left, and the filter left no more files than the diff text has file
    markers. *)
Theorem diff_tool_counts :
  forall (newRegExp : RegExpConstructor) (diffAnchor : string -> string)
         (diffText : string) (prUrl : option string) (params : DiffTool.Params)
         (r : DiffTool.ToolResult) (d : DiffTool.Details),
    DiffTool.renderTool newRegExp diffAnchor diffText prUrl params = Ok r ->
    DiffTool.details r = Some d ->
    DiffTool.maxHunks d = 8 /\
    50 <= DiffTool.maxLines d /\
    0 <= DiffTool.shownHunks d <= Z.min 8 (DiffTool.hunks d) /\
    0 <= DiffTool.shownFiles d <= DiffTool.files d /\
    DiffTool.files d <= Z.of_nat (fileMarkers (splitLines diffText)).
Proof.
  intros newRegExp diffAnchor diffText prUrl params r d. unfold DiffTool.renderTool.
  destruct (String.eqb (trim diffText) EmptyString); [intros [= <-]; discriminate|].
  destruct (filterDiffFiles newRegExp (parseUnifiedDiff diffText)
                            (DiffTool.filterOptionsOf params)) as [filtered|] eqn:Ef;
    cbn [bindResult]; [|discriminate].
  pose proof (formatDiffOutput_counters diffAnchor filtered
                (mkRenderOptions prUrl (DiffTool.maxLinesOf params) 8)) as Hc.
  cbn zeta in Hc. cbn [maxHunks] in Hc.
  destruct (formatDiffOutput diffAnchor filtered
              (mkRenderOptions prUrl (DiffTool.maxLinesOf params) 8))
    as [t dt [nFiles nHunks nLines cut ranges]].
  cbn [info shownHunks shownFiles] in Hc.
  intros [= <-]. cbn [DiffTool.details]. intros [= <-].
  cbn [DiffTool.maxHunks DiffTool.maxLines DiffTool.shownHunks DiffTool.hunks
       DiffTool.shownFiles DiffTool.files].
  rewrite countHunks_hunkCount.
  pose proof (maxLinesOf_floor params).
  assert (Hlen : (List.length filtered <= fileMarkers (splitLines diffText))%nat).
  { destruct (filterDiffFiles_Ok newRegExp _ _ _ Ef) as (g & -> & _).
    destruct (filterCompiled_reduced g (DiffTool.filterOptionsOf params)
                (parseUnifiedDiff diffText)) as (kept & S & F).
    apply Forall2_length in F. apply subseq_length in S.
    unfold parseUnifiedDiff in S. rewrite parseLines_length in S. lia. }
  lia.
Qed.

Lemma diff_tool_counts_witness :
  let diffText := "diff --git a/a b/a" ++ NL ++ "@@ -1 +1 @@" ++ NL ++ "-x" ++ NL ++ "+y" in
  let params := DiffTool.mkParams None (Some "y") None (Some "1-1") (Some 5) in
  exists r d,
    DiffTool.renderTool literalRegExp (fun p => p) diffText None params = Ok r /\
    DiffTool.details r = Some d /\
    DiffTool.maxHunks d = 8 /\
    50 <= DiffTool.maxLines d /\
    0 <= DiffTool.shownHunks d <= Z.min 8 (DiffTool.hunks d) /\
    0 <= DiffTool.shownFiles d <= DiffTool.files d /\
    DiffTool.files d <= Z.of_nat (fileMarkers (splitLines diffText)).
Proof.
  intros diffText params.
  destruct (DiffTool.renderTool literalRegExp (fun p => p) diffText None params)
    as [r|] eqn:Er; [|vm_compute in Er; discriminate].
  destruct (DiffTool.details r) as [d|] eqn:Ed;
    [|vm_compute in Er; injection Er as <-; discriminate].
  exists r, d. split; [reflexivity|]. split; [exact Ed|].
  exact (diff_tool_counts literalRegExp (fun p => p) diffText None params r d Er Ed).
Defined.

(** X28.  Without filters (no paths, no grep, and a [lineRange] that is
    absent or does not have the form of two numbers) the tool renders the
    parsed diff itself: when its blocks fit in the budgets, the text is all
    of them, nothing is truncated, and the details report every file and
    every hunk of the diff as shown. *)
Theorem diff_tool_unfiltered_complete :
  forall (newRegExp : RegExpConstructor) (diffAnchor : string -> string)
         (diffText : string) (prUrl : option string) (params : DiffTool.Params),
    let fs := parseUnifiedDiff diffText in
    let options := mkRenderOptions prUrl (DiffTool.maxLinesOf params) 8 in
    DiffTool.unfiltered params ->
    String.eqb (trim diffText) EmptyString = false ->
    fs <> [] ->
    fullOutputLines diffAnchor options fs <= DiffTool.maxLinesOf params ->
    hunkCount fs < 8 ->
    exists d,
      DiffTool.renderTool newRegExp diffAnchor diffText prUrl params
      = Ok (DiffTool.mkResult (join (NL ++ NL) (fullBlocks diffAnchor options fs))
                              (Some d)) /\
      DiffTool.truncated d = false /\
      DiffTool.shownFiles d = DiffTool.files d /\
      DiffTool.files d = Z.of_nat (fileMarkers (splitLines diffText)) /\
      DiffTool.shownHunks d = DiffTool.hunks d /\
      DiffTool.hunks d = hunkCount fs /\
      DiffTool.suggestedRanges d = [].
Proof.
  intros newRegExp diffAnchor diffText prUrl params fs options Hu Hb Hne Hl Hh.
  unfold DiffTool.renderTool. rewrite Hb.
  rewrite (filterDiffFiles_selectsNothing newRegExp diffText _
             (unfiltered_selectsNothing params Hu)).
  cbn [bindResult]. fold fs. fold options.
  destruct (formatDiffOutput_complete diffAnchor fs options Hne Hl Hh)
    as (Ht & Hc & _ & Hn & Hf & Hs).
  destruct (formatDiffOutput diffAnchor fs options)
    as [t dt [nFiles nHunks nLines cut ranges]].
  cbn [text info truncated shownHunks shownFiles suggestedRanges] in Ht, Hc, Hn, Hf, Hs.
  subst. eexists. split; [reflexivity|].
  cbn [DiffTool.truncated DiffTool.shownFiles DiffTool.files DiffTool.shownHunks
       DiffTool.hunks DiffTool.suggestedRanges].
  assert (Hm : List.length fs = fileMarkers (splitLines diffText))
    by apply parseLines_length.
  rewrite countHunks_hunkCount, <- Hm. repeat split; reflexivity.
Qed.

Lemma diff_tool_unfiltered_complete_witness :
  let diffText := "diff --git a/a b/a" ++ NL ++ "@@ -1 +1 @@" ++ NL ++ "-x" ++ NL ++ "+y" in
  let params := DiffTool.mkParams None None None (Some "1-") None in
  let fs := parseUnifiedDiff diffText in
  let options := mkRenderOptions None (DiffTool.maxLinesOf params) 8 in
  exists d,
    DiffTool.renderTool literalRegExp (fun p => p) diffText None params
    = Ok (DiffTool.mkResult (join (NL ++ NL) (fullBlocks (fun p => p) options fs))
                            (Some d)) /\
    DiffTool.truncated d = false /\
    DiffTool.shownFiles d = DiffTool.files d /\
    DiffTool.files d = Z.of_nat (fileMarkers (splitLines diffText)) /\
    DiffTool.shownHunks d = DiffTool.hunks d /\
    DiffTool.hunks d = hunkCount fs /\
    DiffTool.suggestedRanges d = [].
Proof.
  apply diff_tool_unfiltered_complete.
  - repeat split; auto.
  - reflexivity.
  - vm_compute. discriminate.
  - vm_compute. discriminate.
  - reflexivity.
Defined.

(* ================================================================== *)
(** ** Sharing the comments *)

Section ShareFacts.

Import CommentTool.
Import Share.

Variable exec : nat -> list string -> Z.
Variable prInfo : PrInfo.

Lemma postComment_cases st c :
  let st' := postComment exec prInfo st c in
  (anchored c = true /\
   List.length (calls st') = S (List.length (calls st)) /\
   ((posted st' = posted st + 1 /\ failed st' = failed st) \/
    (posted st' = posted st /\ failed st' = (failed st ++ [c])%list))) \/
  (anchored c = false /\ calls st' = calls st /\
   posted st' = posted st /\ failed st' = (failed st ++ [c])%list).
Proof.
  unfold postComment, anchored, given.
  destruct (path c) as [[|a p]|], (line c) as [n|]; cbn [andb];
    try (right; repeat split; reflexivity).
  left. split; [reflexivity|].
  destruct (exec (List.length (calls st)) (postArgs prInfo (String a p) n c) =? 0);
    cbn [calls posted failed]; rewrite length_app; cbn [List.length];
    (split; [lia|]); [left | right]; split; reflexivity.
Qed.

Lemma postFold cs st :
  let st' := fold_left (postComment exec prInfo) cs st in
  exists kept,
    failed st' = (failed st ++ kept)%list /\ subseq kept cs /\
    filter (fun c => negb (anchored c)) kept = filter (fun c => negb (anchored c)) cs /\
    posted st' + Z.of_nat (List.length kept) = posted st + Z.of_nat (List.length cs) /\
    posted st <= posted st' /\
    List.length (calls st') = (List.length (calls st) + List.length (filter anchored cs))%nat.
Proof.
  revert st; induction cs as [|c cs IH]; intros st; cbn [fold_left].
  - exists []. rewrite app_nil_r. repeat split; try constructor; cbn; lia.
  - destruct (IH (postComment exec prInfo st c)) as (kept & F & S & U & P & M & C).
    destruct (postComment_cases st c) as
      [(A & C1 & [[P1 F1] | [P1 F1]]) | (A & C1 & P1 & F1)]; cbn zeta in *.
    + exists kept. rewrite F, F1, C, C1, P1 in *. cbn [filter List.length]. rewrite A.
      cbn [negb List.length]. repeat split; try lia; auto. now constructor.
    + exists (c :: kept). rewrite F, F1, C, C1, P1 in *. cbn [filter List.length].
      rewrite A. cbn [negb List.length]. rewrite <- app_assoc.
      repeat split; try lia; auto. now constructor.
    + exists (c :: kept). rewrite F, F1, C, C1, P1 in *. cbn [filter List.length].
      rewrite A. cbn [negb List.length]. rewrite <- app_assoc, U.
      repeat split; try lia; auto. now constructor.
Qed.

Lemma summary_inline_lengths cs :
  (List.length (inlineComments cs) + List.length (summaryComments cs))%nat
  = List.length cs.
Proof.
  unfold inlineComments, summaryComments, anchored.
  induction cs as [|c cs IH]; [reflexivity|]. cbn [filter].
  destruct (given (path c)), (line c); cbn [andb negb orb List.length]; lia.
Qed.

Lemma filter_filter_none {A : Type} (p : A -> bool) (l : list A) :
  filter (fun x => negb (p x)) (filter p l) = [].
Proof.
  induction l as [|x l IH]; [reflexivity|]. cbn [filter].
  destruct (p x) eqn:E; [cbn [filter]; now rewrite E | assumption].
Qed.

Lemma filter_none_all {A : Type} (p : A -> bool) (l : list A) :
  filter (fun x => negb (p x)) l = [] -> Forall (fun x => p x = true) l.
Proof.
  induction l as [|x l IH]; [constructor|]. cbn [filter].
  destruct (p x) eqn:E; cbn [negb]; [|discriminate].
  intros H. constructor; auto.
Qed.

End ShareFacts.

(** X29.  Posting loses no comment and never posts one that has no place:
    every comment handed to [postGithubComments] is either counted as
    posted or returned as failed, in the order given; a comment without a
    path or without a line is returned as failed without any call being
    made for it, so the number of calls is the number of comments that have
    both.  For the share command, which posts the comments that have both
    and lists the others in the summary, the posted, failed and summary
    comments add up to all comments. *)
Theorem share_loses_no_comment :
  forall (exec : nat -> list string -> Z) (prInfo : Share.PrInfo)
         (cs : list CommentTool.AssistedReviewComment),
    let r := Share.postGithubComments exec prInfo cs in
    let shared := Share.postGithubComments exec prInfo (Share.inlineComments cs) in
    (0 <= Share.posted r /\
     Share.posted r + Z.of_nat (List.length (Share.failed r)) = Z.of_nat (List.length cs) /\
     subseq (Share.failed r) cs /\
     filter (fun c => negb (Share.anchored c)) (Share.failed r)
     = filter (fun c => negb (Share.anchored c)) cs /\
     List.length (Share.calls r) = List.length (filter Share.anchored cs)) /\
    (Share.posted shared + Z.of_nat (List.length (Share.failed shared)) +
     Z.of_nat (List.length (Share.summaryComments cs)) = Z.of_nat (List.length cs) /\
     Forall (fun c => Share.anchored c = true) (Share.failed shared)).
Proof.
  intros exec prInfo cs r shared. split.
  - unfold r, Share.postGithubComments.
    destruct (postFold exec prInfo cs (Share.mkPost 0 [] [])) as (kept & F & S & U & P & M & C).
    cbn zeta in *. cbn [Share.failed Share.posted Share.calls app List.length] in *.
    rewrite F. repeat split; auto; lia.
  - unfold shared, Share.postGithubComments.
    destruct (postFold exec prInfo (Share.inlineComments cs) (Share.mkPost 0 [] []))
      as (kept & F & S & U & P & M & C).
    cbn zeta in *. cbn [Share.failed Share.posted Share.calls app List.length] in *.
    rewrite F. pose proof (summary_inline_lengths cs) as L. split; [lia|].
    apply filter_none_all. rewrite U. apply filter_filter_none.
Qed.
